(** * chiveit: the asynchronous analysis pipeline and the scoring rubric

    A shallow embedding of
    - [src/server/domain/scoring.ts]  ([scoreChiveAnalysis]),
    - [worker/worker.js]              ([processJob], [pollQueue]),
    - [src/server/index.ts]           (the [/api/analyze-async] and
                                       [/api/result/:jobId] handlers),
    followed by the properties the specification states about them.

    JavaScript numbers are IEEE-754 binary64 values: they are embedded as
    Rocq's primitive [float], whose operations are the processor's and whose
    meaning is given by [Prim2SF] and the [SpecFloat] operations.  Strings
    are embedded as [string]; a character stands for a code unit below 256. *)

From Stdlib Require Import ZArith Floats Lia Bool Ascii String.
From stdpp Require Import gmap strings list pretty.

#[local] Set Warnings "-inexact-float,-register-all".
#[local] Open Scope Z_scope.

(** ** The JavaScript run-time values the code inspects *)

Module JS.

(** What [JSON.parse] can produce, plus [undefined] for a missing property. *)
Inductive value : Type :=
| VUndefined
| VNull
| VBool (b : bool)
| VNumber (x : float)
| VString (s : string)
| VArray (elems : list value)
| VObject (props : list (string * value)).

Inductive error : Type :=
| TypeError (msg : string)
| SyntaxError (msg : string)
| Error (msg : string).

Definition message (e : error) : string :=
  match e with TypeError m | SyntaxError m | Error m => m end.

(** A completion: the statement list either returns or throws. *)
Inductive completion (A : Type) : Type :=
| Return (a : A)
| Throw (e : error).
Arguments Return {A} a.
Arguments Throw {A} e.

Definition bind {A B} (c : completion A) (k : A -> completion B) : completion B :=
  match c with
  | Return a => k a
  | Throw e => Throw e
  end.

(** [typeof v] *)
Definition typeof (v : value) : string :=
  match v with
  | VUndefined => "undefined"
  | VNull => "object"
  | VBool _ => "boolean"
  | VNumber _ => "number"
  | VString _ => "string"
  | VArray _ => "object"
  | VObject _ => "object"
  end.

(** [ToBoolean v]: [undefined], [null], [false], [+0], [-0], [NaN] and the
    empty string are falsy. *)
Definition truthy (v : value) : bool :=
  match v with
  | VUndefined | VNull => false
  | VBool b => b
  | VNumber x => negb (is_zero x || is_nan x)
  | VString s => negb (String.eqb s "")
  | VArray _ | VObject _ => true
  end.

Fixpoint lookup_prop (k : string) (props : list (string * value)) : value :=
  match props with
  | [] => VUndefined
  | (k', v) :: rest => if String.eqb k k' then v else lookup_prop k rest
  end.

(** [v.k] for a [v] that is neither [undefined] nor [null], and a [k] that
    no prototype defines: only an object's own properties answer. *)
Definition prop (v : value) (k : string) : value :=
  match v with
  | VObject props => lookup_prop k props
  | _ => VUndefined
  end.

Definition Array_isArray (v : value) : bool :=
  match v with VArray _ => true | _ => false end.

Definition elements (v : value) : list value :=
  match v with VArray l => l | _ => [] end.

(** [a === b] where [b] is a string literal. *)
Definition strict_eq_string (v : value) (lit : string) : bool :=
  match v with VString s => String.eqb s lit | _ => false end.

(** *** Strings *)

(** WhiteSpace and LineTerminator code units below 256: TAB, LF, VT, FF, CR,
    SP and NBSP. *)
Definition isWhiteSpace (c : ascii) : bool :=
  let n := nat_of_ascii c in
  ((9 <=? n)%nat && (n <=? 13)%nat) || (n =? 32)%nat || (n =? 160)%nat.

Fixpoint trimStart (s : string) : string :=
  match s with
  | EmptyString => EmptyString
  | String c rest => if isWhiteSpace c then trimStart rest else s
  end.

Fixpoint trimEnd (s : string) : string :=
  match s with
  | EmptyString => EmptyString
  | String c rest =>
      match trimEnd rest with
      | EmptyString => if isWhiteSpace c then EmptyString else String c EmptyString
      | t => String c t
      end
  end.

(** [s.trim()] *)
Definition trim (s : string) : string := trimEnd (trimStart s).

(** Lower-casing of one code unit below 256: A-Z, and the Latin-1 capitals
    U+00C0-U+00DE except the multiplication sign U+00D7. *)
Definition lower_char (c : ascii) : ascii :=
  let n := nat_of_ascii c in
  if ((65 <=? n)%nat && (n <=? 90)%nat)
     || ((192 <=? n)%nat && (n <=? 222)%nat && negb (n =? 215)%nat)
  then ascii_of_nat (n + 32)
  else c.

(** [s.toLowerCase()] *)
Fixpoint toLowerCase (s : string) : string :=
  match s with
  | EmptyString => EmptyString
  | String c rest => String (lower_char c) (toLowerCase rest)
  end.

(** *** Numbers *)

#[local] Open Scope float_scope.

(** [Number.isFinite(x)] for a value that is a number. *)
Definition Number_isFinite (x : float) : bool := is_finite x.

(** [Math.max(a, b)]: NaN if either is NaN; [+0] is larger than [-0]. *)
Definition Math_max (a b : float) : float :=
  if is_nan a || is_nan b then nan
  else if a <? b then b
  else if b <? a then a
  else if get_sign a then b else a.

(** [⌊k·m·2^e + 1/2⌋] for an integer [m]: the integer nearest to [k·m·2^e],
    the larger one of two that are equally near. *)
Definition round_half_up (k m e : Z) : Z :=
  if (0 <=? e)%Z then (k * m * 2 ^ e)%Z
  else ((2 * k * m + 2 ^ (- e)) / 2 ^ (1 - e))%Z.

(** The integer [n] as a number (exact below 2^53). *)
Definition of_Z (n : Z) : float := SF2Prim (binary_normalize prec emax n 0 false).

(** [Math.round(x)]: the integral number nearest to [x], ties towards +∞;
    [-0] for [-0.5 <= x < 0]; zeros, infinities and NaN are returned as they
    are. *)
Definition Math_round (x : float) : float :=
  match Prim2SF x with
  | S754_finite s m e =>
      if (0 <=? e)%Z then x
      else
        let n := round_half_up 1 (if s then Zneg m else Zpos m) e in
        if (n =? 0)%Z then (if s then neg_zero else PrimFloat.zero) else of_Z n
  | _ => x
  end.

(** The strings [Number.prototype.toFixed(2)] produces, by shape. *)
Inductive fixed2 : Type :=
| FixedNaN                              (* "NaN" *)
| FixedInfinity (neg : bool)            (* "Infinity", "-Infinity" *)
| FixedDigits (neg : bool) (n : Z)      (* sign, then n/100 with two decimals *)
| FixedToString (x : float).            (* |x| >= 1e21: ToString(x) *)

(** [x.toFixed(2)]: for a finite [|x| < 10^21], the digits of the integer
    [n] for which [n/100 - |x|] is nearest to zero, the larger [n] of two;
    a minus sign is put in front when [x < 0]. *)
Definition toFixed2 (x : float) : fixed2 :=
  match Prim2SF x with
  | S754_nan => FixedNaN
  | S754_infinity s => FixedInfinity s
  | S754_zero _ => FixedDigits false 0
  | S754_finite s m e =>
      if 1e21 <=? abs x then FixedToString x
      else FixedDigits s (round_half_up 100 (Zpos m) e)
  end.

(** The number nearest to [n/d] (ties to even), for positive [n] and [d]. *)
Definition nearest_ratio (n d : positive) : float :=
  SF2Prim (SFdiv prec emax (S754_finite false n 0) (S754_finite false d 0)).

(** [Number(s)] for a string [s] that [toFixed(2)] produced: the number
    nearest to the decimal it spells. *)
Definition Number_of_fixed2 (s : fixed2) : float :=
  match s with
  | FixedNaN => nan
  | FixedInfinity neg => if neg then neg_infinity else infinity
  | FixedDigits neg n =>
      match n with
      | Zpos p => if neg then - nearest_ratio p 100 else nearest_ratio p 100
      | _ => if neg then neg_zero else PrimFloat.zero
      end
  | FixedToString x => x
  end.

End JS.

(** ** Binary64 values by their specification

    Ranges of values, read on the [spec_float] a number stands for. *)

Module Binary64.

Definition SF_one : spec_float := S754_finite false 4503599627370496 (-52).

Definition SF_three_halves : spec_float := S754_finite false 6755399441055744 (-52).

(** Zero of either sign, a positive number, or +∞. *)
Definition SF_nonneg (x : spec_float) : Prop :=
  match x with
  | S754_zero _ => True
  | S754_infinity s => s = false
  | S754_finite s _ _ => s = false
  | S754_nan => False
  end.

(** A number in (0, 1], or any number that is not larger than zero. *)
Definition SF_at_most_one (x : spec_float) : Prop :=
  match x with
  | S754_zero _ => True
  | S754_infinity s => s = true
  | S754_finite s m e => s = true \/ (e <= 0 /\ Zpos m <= 2 ^ (- e))
  | S754_nan => False
  end.

(** A number that is at least 1, or +∞. *)
Definition SF_at_least_one (x : spec_float) : Prop :=
  match x with
  | S754_infinity s => s = false
  | S754_finite s m e => s = false /\ 2 ^ (- e) <= Zpos m
  | _ => False
  end.

(** Zero of either sign, a negative number, or -∞. *)
Definition SF_nonpos (x : spec_float) : Prop :=
  match x with
  | S754_zero _ => True
  | S754_infinity s => s = true
  | S754_finite s _ _ => s = true
  | S754_nan => False
  end.

End Binary64.

(** ** The scoring rubric ([scoreChiveAnalysis]) *)

Module Scoring.
Import JS.
#[local] Open Scope string_scope.
#[local] Open Scope float_scope.

(** [ScoredChiveMetrics]; [None] is [null]. *)
Record ScoredChiveMetrics : Type := {
  thicknessConsistencyScore : option float;
  cutQualityScore : option float;
  overallScore : option float;
  notes : string
}.

(** The callback of [regions.filter]:
    [r && typeof r.regionCutQualityLabel === 'string'
       && r.regionCutQualityLabel !== 'no_chives']. *)
Definition hasChives (r : value) : bool :=
  truthy r
  && String.eqb (typeof (prop r "regionCutQualityLabel")) "string"
  && negb (strict_eq_string (prop r "regionCutQualityLabel") "no_chives").

Definition regionList (regions : value) : list value :=
  if Array_isArray regions then elements regions else [].

Definition regionsWithChives (regions : value) : list value :=
  List.filter hasChives (regionList regions).

(** [rawNotes && rawNotes.trim().length], as the condition it is used for:
    a falsy [rawNotes] answers [false] without being inspected; a string
    answers whether its trimmed length is non-zero; any other value has no
    [trim] method, and the call throws. *)
Definition hasNotes (rawNotes : value) : completion bool :=
  if truthy rawNotes then
    match rawNotes with
    | VString s => Return (negb (Nat.eqb (String.length (trim s)) 0))
    | _ => Throw (TypeError "rawNotes.trim is not a function")
    end
  else Return false.

(** A template literal or a conditional branch that yields [rawNotes] where
    it is known to be a string. *)
Definition text (v : value) : string :=
  match v with VString s => s | _ => "" end.

Definition allNull (n : string) : ScoredChiveMetrics :=
  {| thicknessConsistencyScore := None;
     cutQualityScore := None;
     overallScore := None;
     notes := n |}.

(** Lines 70-74: thickness consistency; 0 mm of deviation gives 1.0,
    1.5 mm and more give 0. *)
Definition consistencyOf (thicknessStdDevMm : value) : option float :=
  match thicknessStdDevMm with
  | VNumber sd =>
      if Number_isFinite sd then
        let normalized := Math_max 0 (1 - sd / 1.5) in
        Some (Number_of_fixed2 (toFixed2 normalized))
      else None
  | _ => None
  end.

(** Lines 77-84: the label mapped to a score. *)
Definition qualityOf (cutQualityLabel : value) : option float :=
  match cutQualityLabel with
  | VString l =>
      let label := toLowerCase l in
      if String.eqb label "clean" then Some 1.0
      else if String.eqb label "mixed" then Some 0.7
      else if String.eqb label "ragged" then Some 0.35
      else Some 0.5
  | _ => None
  end.

(** Lines 87-89: the weighted sum, out of 100. *)
Definition overallOf (thicknessConsistencyScore cutQualityScore : option float) : float :=
  let consistency := default 0.5 thicknessConsistencyScore in
  let quality := default 0.5 cutQualityScore in
  Math_round ((consistency * 0.6 + quality * 0.4) * 100).

(** The body of [scoreChiveAnalysis] once [base] is destructured. *)
Definition score (averageThicknessMm thicknessStdDevMm cutQualityLabel rawNotes regions : value)
  : completion ScoredChiveMetrics :=
  let regionsWithChives := regionsWithChives regions in
  (* Anti-cheat 1: no chives anywhere -> no score. *)
  if Nat.eqb (length regionsWithChives) 0 then
    bind (hasNotes rawNotes) (fun some =>
    Return (allNull
      (if some
       then String.append (text rawNotes)
              " (No regions with chives detected; score not computed.)"
       else "No regions with chives detected; score not computed.")))
  (* Anti-cheat 2: only one small region with chives. *)
  else if Nat.eqb (length regionsWithChives) 1 then
    Return (allNull
      "Insufficient chive coverage (only one region contains chives); score not computed.")
  (* Anti-cheat 3: sanity-check global thickness range. *)
  else if match averageThicknessMm with
          | VNumber a => (a <=? 0) || (5 <? a)
          | _ => false
          end then
    Return (allNull
      "Model reported an implausible average thickness for chives; score not computed.")
  else
    let thicknessConsistencyScore := consistencyOf thicknessStdDevMm in
    let cutQualityScore := qualityOf cutQualityLabel in
    let overallScore := overallOf thicknessConsistencyScore cutQualityScore in
    bind (hasNotes rawNotes) (fun some =>
    Return
      {| thicknessConsistencyScore := thicknessConsistencyScore;
         cutQualityScore := cutQualityScore;
         overallScore := Some overallScore;
         notes := if some then text rawNotes
                  else "Scored based on thickness uniformity and cleanliness of cuts." |}).

(** [scoreChiveAnalysis(base)]: destructuring [undefined] or [null] throws;
    any other value is read property by property. *)
Definition scoreChiveAnalysis (base : value) : completion ScoredChiveMetrics :=
  match base with
  | VUndefined | VNull =>
      Throw (TypeError "Cannot destructure property 'averageThicknessMm' of 'base'")
  | _ =>
      score (prop base "averageThicknessMm") (prop base "thicknessStdDevMm")
            (prop base "cutQualityLabel") (prop base "rawNotes") (prop base "regions")
  end.

(** *** The declared types of the input *)

(** [RegionMetrics]: an object with a string [id], optional numbers, and an
    optional label out of the four literals. *)
Definition optional_number (v : value) : bool :=
  match v with VUndefined | VNumber _ => true | _ => false end.

Definition isRegionLabel (v : value) : bool :=
  match v with
  | VUndefined => true
  | VString s =>
      String.eqb s "clean" || String.eqb s "mixed" || String.eqb s "ragged"
      || String.eqb s "no_chives"
  | _ => false
  end.

Definition isRegionMetrics (r : value) : bool :=
  match r with
  | VObject _ =>
      String.eqb (typeof (prop r "id")) "string"
      && optional_number (prop r "regionAverageThicknessMm")
      && optional_number (prop r "regionThicknessStdDevMm")
      && isRegionLabel (prop r "regionCutQualityLabel")
  | _ => false
  end.

Definition number_or_null (v : value) : bool :=
  match v with VNull | VNumber _ => true | _ => false end.

Definition optional_string (v : value) : bool :=
  match v with VUndefined | VString _ => true | _ => false end.

Definition optional_regions (v : value) : bool :=
  match v with
  | VUndefined => true
  | VArray l => forallb isRegionMetrics l
  | _ => false
  end.

(** [BaseChiveMetrics] *)
Definition isBaseChiveMetrics (base : value) : bool :=
  match base with
  | VObject _ =>
      number_or_null (prop base "averageThicknessMm")
      && number_or_null (prop base "thicknessStdDevMm")
      && String.eqb (typeof (prop base "cutQualityLabel")) "string"
      && optional_string (prop base "rawNotes")
      && optional_regions (prop base "regions")
  | _ => false
  end.

(** *** Vocabulary of the properties *)

Definition allScoresNull (r : ScoredChiveMetrics) : Prop :=
  thicknessConsistencyScore r = None /\ cutQualityScore r = None /\ overallScore r = None.

(** The regions whose label is not [no_chives], by the label alone. *)
Definition labelledOtherThan (lit : string) (r : value) : bool :=
  negb (strict_eq_string (prop r "regionCutQualityLabel") lit).

Definition activeByLabel (regions : value) : list value :=
  List.filter (labelledOtherThan "no_chives") (regionList regions).

(** A number outside (0, 5]: at most 0, or above 5. *)
Definition outsidePlausible (a : float) : Prop :=
  (a <=? 0) = true \/ (5 <? a) = true.

(** An average thickness that is absent, or a number in (0, 5]. *)
Definition plausibleAverage (v : value) : Prop :=
  v = VNull \/ exists a, v = VNumber a /\ (0 <? a) = true /\ (a <=? 5) = true.

(** The note of a scored input. *)
Definition scoredNote (rawNotes : value) : string :=
  match rawNotes with
  | VString s =>
      if Nat.eqb (String.length (trim s)) 0
      then "Scored based on thickness uniformity and cleanliness of cuts."
      else s
  | _ => "Scored based on thickness uniformity and cleanliness of cuts."
  end.

(** The numbers [toFixed(2)] spells from 0.00 to 1.00, by their hundredths. *)
Definition unitScore (n : Z) : float := Number_of_fixed2 (FixedDigits false n).

Definition hundredths : list Z := map Z.of_nat (seq 0 101).

Definition qualities : list float := [1.0; 0.7; 0.35; 0.5].

(** The note of the first guard, as the code composes it. *)
Definition noChivesNote (rawNotes : value) : string :=
  match rawNotes with
  | VString s =>
      if Nat.eqb (String.length (trim s)) 0
      then "No regions with chives detected; score not computed."
      else String.append s " (No regions with chives detected; score not computed.)"
  | _ => "No regions with chives detected; score not computed."
  end.

(** No element of [regions] has a string label other than [no_chives]. *)
Definition noLabelledChives (regions : value) : Prop :=
  forall r s, In r (elements regions) ->
              prop r "regionCutQualityLabel" = VString s -> s = "no_chives".

(** The implicit totality property in the words it is stated in: whenever
    [regions] is not an array or holds no labelled chives, the call returns
    all scores null with the no-chives note, prefixed by [rawNotes] when
    [rawNotes] is a non-empty string. *)
Definition totalOnMalformed (base : value) : Prop :=
  Array_isArray (prop base "regions") = false \/ noLabelledChives (prop base "regions") ->
  exists r, scoreChiveAnalysis base = Return r
            /\ allScoresNull r
            /\ notes r =
               match prop base "rawNotes" with
               | VString (String c s) =>
                   String.append (String c s)
                     " (No regions with chives detected; score not computed.)"
               | _ => "No regions with chives detected; score not computed."
               end.

(** The properties of [base] the function reads. *)
Definition fieldsRead : list string :=
  ["averageThicknessMm"; "thicknessStdDevMm"; "cutQualityLabel"; "rawNotes"; "regions"].

Definition agreeOnFieldsRead (base other : value) : Prop :=
  Forall (fun k => prop base k = prop other k) fieldsRead.

Definition destructurable (base : value) : Prop :=
  base <> VUndefined /\ base <> VNull.

(** The test of the third guard. *)
Definition implausible (averageThicknessMm : value) : bool :=
  match averageThicknessMm with
  | VNumber a => (a <=? 0) || (5 <? a)
  | _ => false
  end.

(** A [rawNotes] on which [rawNotes.trim()] is not a function: truthy, and
    not a string. *)
Definition untrimmable (rawNotes : value) : bool :=
  truthy rawNotes && negb (String.eqb (typeof rawNotes) "string").

(** A string without a character that is not white space. *)
Fixpoint blank (s : string) : bool :=
  match s with
  | EmptyString => true
  | String c rest => isWhiteSpace c && blank rest
  end.

(** The overall score of an analysis whose deviation gives no consistency
    score, and of one whose consistency score is 0, by the label. *)
Definition overallByLabel (clean mixed ragged other : Z) (cutQualityLabel : string) : Z :=
  let label := toLowerCase cutQualityLabel in
  if String.eqb label "clean" then clean
  else if String.eqb label "mixed" then mixed
  else if String.eqb label "ragged" then ragged
  else other.

(** *** Sample inputs *)

Definition sampleRegion (id label : string) : value :=
  VObject [ ("id", VString id);
            ("regionAverageThicknessMm", VNumber 2);
            ("regionThicknessStdDevMm", VNumber 0.5);
            ("regionCutQualityLabel", VString label) ].

Definition sampleRegions (first second : string) : value :=
  VArray [ sampleRegion "r1c1" first; sampleRegion "r1c2" second;
           sampleRegion "r1c3" "no_chives"; sampleRegion "r2c1" "no_chives";
           sampleRegion "r2c2" "no_chives"; sampleRegion "r2c3" "no_chives";
           sampleRegion "r3c1" "no_chives"; sampleRegion "r3c2" "no_chives";
           sampleRegion "r3c3" "no_chives" ].

Definition sampleBase (average sd : float) (regions : value) : value :=
  VObject [ ("averageThicknessMm", VNumber average);
            ("thicknessStdDevMm", VNumber sd);
            ("cutQualityLabel", VString "clean");
            ("rawNotes", VString "Even, tidy cuts.");
            ("regions", regions) ].

(** An analysis with two active regions and a plausible average, with the
    deviation and the label left open. *)
Definition sampleAnalysis (deviation label : value) : value :=
  VObject [ ("averageThicknessMm", VNumber 2);
            ("thicknessStdDevMm", deviation);
            ("cutQualityLabel", label);
            ("rawNotes", VString "Even, tidy cuts.");
            ("regions", sampleRegions "clean" "mixed") ].

(** The same analysis, which also claims an overall score of its own. *)
Definition boastfulAnalysis : value :=
  VObject [ ("averageThicknessMm", VNumber 2);
            ("thicknessStdDevMm", VNumber 0.75);
            ("cutQualityLabel", VString "clean");
            ("rawNotes", VString "Even, tidy cuts.");
            ("regions", sampleRegions "clean" "mixed");
            ("overallScore", VNumber 100) ].

End Scoring.

(** ** [JSON.parse] and the regular expression of the parse step *)

Module Json.
Import JS.
#[local] Open Scope string_scope.

Definition code (c : ascii) : nat := nat_of_ascii c.

(** The quotation mark, U+0022. *)
Definition dquote : ascii := Ascii false true false false false true false false.

(** JSON whitespace: space, tab, line feed, carriage return. *)
Definition is_ws (c : ascii) : bool :=
  let n := code c in
  (n =? 32)%nat || (n =? 9)%nat || (n =? 10)%nat || (n =? 13)%nat.

Fixpoint skip_ws (s : string) : string :=
  match s with
  | String c rest => if is_ws c then skip_ws rest else s
  | EmptyString => EmptyString
  end.

Definition digit (c : ascii) : option Z :=
  let n := code c in
  if ((48 <=? n)%nat && (n <=? 57)%nat) then Some (Z.of_nat (n - 48)) else None.

Definition hex (c : ascii) : option nat :=
  let n := code c in
  if ((48 <=? n)%nat && (n <=? 57)%nat) then Some (n - 48)%nat
  else if ((65 <=? n)%nat && (n <=? 70)%nat) then Some (n - 55)%nat
  else if ((97 <=? n)%nat && (n <=? 102)%nat) then Some (n - 87)%nat
  else None.

(** The characters of a string literal after its opening quote, decoded, and
    the text after the closing quote.  A [\uXXXX] escape above U+00FF names
    a code unit outside the strings modelled here: it is kept modulo 256,
    which changes nothing in whether the text parses. *)
Fixpoint parse_chars (s : string) : option (string * string) :=
  let keep c rest :=
    match parse_chars rest with
    | Some (t, after) => Some (String c t, after)
    | None => None
    end in
  match s with
  | EmptyString => None
  | String c rest =>
      if Ascii.eqb c dquote then Some (EmptyString, rest)
      else if Ascii.eqb c "\"%char then
        match rest with
        | String e rest' =>
            if Ascii.eqb e dquote then keep dquote rest'
            else if Ascii.eqb e "\"%char then keep "\"%char rest'
            else if Ascii.eqb e "/"%char then keep "/"%char rest'
            else if Ascii.eqb e "b"%char then keep (ascii_of_nat 8) rest'
            else if Ascii.eqb e "f"%char then keep (ascii_of_nat 12) rest'
            else if Ascii.eqb e "n"%char then keep (ascii_of_nat 10) rest'
            else if Ascii.eqb e "r"%char then keep (ascii_of_nat 13) rest'
            else if Ascii.eqb e "t"%char then keep (ascii_of_nat 9) rest'
            else if Ascii.eqb e "u"%char then
              match rest' with
              | String h1 (String h2 (String h3 (String h4 rest''))) =>
                  match hex h1, hex h2, hex h3, hex h4 with
                  | Some _, Some _, Some a, Some b => keep (ascii_of_nat (16 * a + b)) rest''
                  | _, _, _, _ => None
                  end
              | _ => None
              end
            else None
        | EmptyString => None
        end
      else if (code c <? 32)%nat then None
      else keep c rest
  end.

(** A run of decimal digits: its value continued from [acc], how many there
    were, and the text after them. *)
Fixpoint digits (acc : Z) (count : nat) (s : string) : Z * nat * string :=
  match s with
  | String c rest =>
      match digit c with
      | Some d => digits (10 * acc + d) (S count) rest
      | None => (acc, count, s)
      end
  | EmptyString => (acc, count, s)
  end.

(** The number nearest to [±m·10^e]. *)
Definition decimal (neg : bool) (m e : Z) : float :=
  let x :=
    match m with
    | Zpos p =>
        if (0 <=? e)%Z then of_Z (m * 10 ^ e)
        else nearest_ratio p (Z.to_pos (10 ^ (- e)))
    | _ => PrimFloat.zero
    end in
  if neg then PrimFloat.opp x else x.

(** A number: an optional minus sign, an integer part without a leading
    zero, an optional fraction and an optional exponent. *)
Definition parse_number (s : string) : option (float * string) :=
  let '(neg, s1) :=
    match s with
    | String c rest => if Ascii.eqb c "-"%char then (true, rest) else (false, s)
    | EmptyString => (false, s)
    end in
  let '(int, n_int, s2) := digits 0 0 s1 in
  let leading_zero :=
    match s1 with String c _ => Ascii.eqb c "0"%char | EmptyString => false end in
  if (n_int =? 0)%nat || (leading_zero && (1 <? n_int)%nat) then None
  else
    let frac :=
      match s2 with
      | String c rest =>
          if Ascii.eqb c "."%char then
            let '(m, n_frac, s3) := digits int 0 rest in
            if (n_frac =? 0)%nat then None else Some (m, n_frac, s3)
          else Some (int, O, s2)
      | EmptyString => Some (int, O, s2)
      end in
    match frac with
    | None => None
    | Some (m, n_frac, s3) =>
        let finish e rest := Some (decimal neg m (e - Z.of_nat n_frac), rest) in
        match s3 with
        | String c rest =>
            if Ascii.eqb c "e"%char || Ascii.eqb c "E"%char then
              let '(eneg, s4) :=
                match rest with
                | String sg rest' =>
                    if Ascii.eqb sg "-"%char then (true, rest')
                    else if Ascii.eqb sg "+"%char then (false, rest')
                    else (false, rest)
                | EmptyString => (false, rest)
                end in
              let '(e, n_exp, s5) := digits 0 0 s4 in
              if (n_exp =? 0)%nat then None
              else finish (if eneg then (- e)%Z else e) s5
            else finish 0%Z s3
        | EmptyString => finish 0%Z s3
        end
    end.

(** [s] begins with the literal [lit]: the text after it. *)
Fixpoint after_literal (lit s : string) : option string :=
  match lit, s with
  | EmptyString, _ => Some s
  | String a lit', String b s' => if Ascii.eqb a b then after_literal lit' s' else None
  | String _ _, EmptyString => None
  end.

(** Defining a property: a name already present keeps its place and takes
    the new value; a new name goes last. *)
Fixpoint define_prop (k : string) (v : value) (props : list (string * value))
  : list (string * value) :=
  match props with
  | [] => [(k, v)]
  | (k', v') :: rest =>
      if String.eqb k k' then (k, v) :: rest else (k', v') :: define_prop k v rest
  end.

(** The grammar of values.  [fuel] bounds the number of nested calls; every
    call consumes a character, so the length of the text is enough. *)
Fixpoint parse_value (fuel : nat) (s : string) : option (value * string) :=
  match fuel with
  | O => None
  | S fuel' =>
      match s with
      | EmptyString => None
      | String c rest =>
          if Ascii.eqb c "{"%char then
            match skip_ws rest with
            | String "}"%char after => Some (VObject [], after)
            | inner => parse_members fuel' [] inner
            end
          else if Ascii.eqb c "["%char then
            match skip_ws rest with
            | String "]"%char after => Some (VArray [], after)
            | inner => parse_elements fuel' [] inner
            end
          else if Ascii.eqb c dquote then
            match parse_chars rest with
            | Some (t, after) => Some (VString t, after)
            | None => None
            end
          else if Ascii.eqb c "t"%char then
            option_map (pair (VBool true)) (after_literal "rue" rest)
          else if Ascii.eqb c "f"%char then
            option_map (pair (VBool false)) (after_literal "alse" rest)
          else if Ascii.eqb c "n"%char then
            option_map (pair VNull) (after_literal "ull" rest)
          else
            match parse_number s with
            | Some (x, after) => Some (VNumber x, after)
            | None => None
            end
      end
  end

(** [element (, element)* ]] with the elements read so far in [acc]
    (last first); [s] starts at an element. *)
with parse_elements (fuel : nat) (acc : list value) (s : string)
  : option (value * string) :=
  match fuel with
  | O => None
  | S fuel' =>
      match parse_value fuel' s with
      | Some (v, after) =>
          match skip_ws after with
          | String c rest =>
              if Ascii.eqb c "]"%char then Some (VArray (rev (v :: acc)), rest)
              else if Ascii.eqb c ","%char then parse_elements fuel' (v :: acc) (skip_ws rest)
              else None
          | EmptyString => None
          end
      | None => None
      end
  end

(** [member (, member)* }] with the properties defined so far in [acc];
    [s] starts at a member's name. *)
with parse_members (fuel : nat) (acc : list (string * value)) (s : string)
  : option (value * string) :=
  match fuel with
  | O => None
  | S fuel' =>
      match s with
      | String q rest =>
          if Ascii.eqb q dquote then
            match parse_chars rest with
            | Some (k, after) =>
                match skip_ws after with
                | String ":"%char rest' =>
                    match parse_value fuel' (skip_ws rest') with
                    | Some (v, after') =>
                        match skip_ws after' with
                        | String c rest'' =>
                            if Ascii.eqb c "}"%char
                            then Some (VObject (define_prop k v acc), rest'')
                            else if Ascii.eqb c ","%char
                            then parse_members fuel' (define_prop k v acc) (skip_ws rest'')
                            else None
                        | EmptyString => None
                        end
                    | None => None
                    end
                | _ => None
                end
            | None => None
            end
          else None
      | EmptyString => None
      end
  end.

(** [JSON.parse(text)] *)
Definition JSON_parse (text : string) : completion value :=
  match parse_value (S (String.length text)) (skip_ws text) with
  | Some (v, after) =>
      match skip_ws after with
      | EmptyString => Return v
      | _ => Throw (SyntaxError "Unexpected non-whitespace character after JSON")
      end
  | None => Throw (SyntaxError "Unexpected token in JSON")
  end.

(** *** [/\{[\s\S]*\}/] *)

(** [[\s\S]*\}] matched at the start of [s], the star taking as much as it
    can: the longest prefix of [s] that ends with a closing brace. *)
Fixpoint greedyToClose (s : string) : option string :=
  match s with
  | EmptyString => None
  | String c rest =>
      match greedyToClose rest with
      | Some m => Some (String c m)
      | None => if Ascii.eqb c "}"%char then Some (String c EmptyString) else None
      end
  end.

(** [s.match(/\{[\s\S]*\}/)]: the expression is tried at each index from the
    left; [None] is [null], [Some m] is a match whose element 0 is [m]. *)
Fixpoint matchObject (s : string) : option string :=
  match s with
  | EmptyString => None
  | String c rest =>
      match (if Ascii.eqb c "{"%char then greedyToClose rest else None) with
      | Some m => Some (String c m)
      | None => matchObject rest
      end
  end.

(** The names of an object's properties. *)
Definition names (props : list (string * value)) : list string := map fst props.

(** What [JSON.parse] reads back of the text [JSON.stringify] writes of a
    value: a property whose value is [undefined] is left out, [undefined] in
    an array and a number that is not finite are written [null], and -0 is
    written 0. *)
Fixpoint throughJson (v : value) : value :=
  match v with
  | VNumber x =>
      if is_finite x then (if is_zero x then VNumber PrimFloat.zero else v) else VNull
  | VArray elems =>
      VArray (map (fun x => match x with VUndefined => VNull | _ => throughJson x end) elems)
  | VObject props =>
      VObject (flat_map (fun kv => match kv with
                                   | (_, VUndefined) => []
                                   | (k, x) => [(k, throughJson x)]
                                   end) props)
  | _ => v
  end.

(** The properties that are written: those whose value is not
    [undefined]. *)
Definition written (props : list (string * value)) : list (string * value) :=
  flat_map (fun kv => match snd kv with
                      | VUndefined => []
                      | x => [(fst kv, throughJson x)]
                      end) props.

End Json.

(** ** The pipeline: submission, queue, worker, result store *)

Module Pipeline.
Import JS Json.
#[local] Open Scope string_scope.

(** *** The shared Redis instance

    A stored string is the JSON text of a value, and every reader parses
    it: the store is modelled as holding what [JSON.parse] gives back of the
    text, [throughJson v] for the text [JSON.stringify v].

    Every [SET] of the source gives its key one hour to live.  The hour is
    not measured: a key that is stored may be gone at any later moment (the
    steps [step_expire_job] and [step_expire_result] below).  The list
    [analysis:queue] is never given a time to live. *)
Record redis : Type := {
  kv : gmap string value;      (* SET / GET *)
  queue : list value           (* the list [analysis:queue]: RPUSH at the tail, BLPOP at the head *)
}.

Definition jobKey (jobId : string) : string := "analysis:jobs:" +:+ jobId.
Definition resultKey (jobId : string) : string := "analysis:results:" +:+ jobId.

(** A command the store accepted; [v] is the value whose text is sent.
    [RedisSet] is the [SET] with one hour to live. *)
Inductive effect : Type :=
| RedisSet (key : string) (v : value)
| RedisRPush (v : value).

Definition perform (e : effect) (db : redis) : redis :=
  match e with
  | RedisSet key v => {| kv := <[key := throughJson v]> (kv db); queue := queue db |}
  | RedisRPush v => {| kv := kv db; queue := (queue db ++ [throughJson v])%list |}
  end.

(** [await redis.get(key)], then [JSON.parse] of it: a missing key answers
    [null], whose text parses to [null]. *)
Definition getParsed (key : string) (m : gmap string value) : value :=
  default VNull (m !! key).

(** [a || b] *)
Definition or_else (a b : value) : value := if truthy a then a else b.

(** [o.k = x] in module (strict) code, seen through [JSON.stringify]: an
    object gets the property, an array keeps only its elements, anything
    else throws. *)
Definition assign (o : value) (k : string) (x : value) : completion value :=
  match o with
  | VObject props => Return (VObject (define_prop k x props))
  | VArray l => Return (VArray l)
  | VUndefined | VNull =>
      Throw (TypeError ("Cannot set properties of null (setting '" +:+ k +:+ "')"))
  | _ => Throw (TypeError ("Cannot create property '" +:+ k +:+ "'"))
  end.

(** *** Submission: [POST /api/analyze-async] *)

Record file : Type := { buffer : string; mimetype : string }.

(** The request context of the hosting platform. *)
Record context : Type := { userId : value; subredditName : value; postId : value }.

(** What the outside answers while one image is handled:
    [crypto.randomUUID()], [reddit.uploadMedia], [Date.now()], and whether
    the store rejects [redis.set] or [redis.rPush] ([None]: the command is
    accepted; [Some err]: the awaited promise rejects with [err] and the
    store is left as it was). *)
Record answers : Type := {
  uuid : string;
  uploadMedia : completion value;
  now : float;
  setRejected : option error;
  rPushRejected : option error
}.

(** The [job] object literal of the handler. *)
Definition pendingJob (ctx : context) (f : file) (a : answers) (mediaUrl : value) : value :=
  VObject
    [ ("jobId", VString (uuid a));
      ("imageUrl", mediaUrl);
      ("mimeType", VString (mimetype f));
      ("submittedBy", or_else (userId ctx) (VString "anonymous"));
      ("subreddit", or_else (subredditName ctx) (VString "unknown"));
      ("postId", or_else (postId ctx) (VString ""));
      ("createdAt", VNumber (now a));
      ("status", VString "pending") ].

(** The [for ... of files.entries()] loop: the Redis commands the store
    accepted, in order, and either the [jobs] array or what was thrown. *)
Fixpoint forFiles (ctx : context) (files : list (file * answers)) (jobs : list string)
  : list effect * completion (list string) :=
  match files with
  | [] => ([], Return jobs)
  | (f, a) :: rest =>
      match uploadMedia a with
      | Throw e => ([], Throw e)
      | Return mediaUrl =>
          let job := pendingJob ctx f a mediaUrl in
          match setRejected a with
          | Some e => ([], Throw e)
          | None =>
              match rPushRejected a with
              | Some e => ([RedisSet (jobKey (uuid a)) job], Throw e)
              | None =>
                  let '(effects, outcome) := forFiles ctx rest (jobs ++ [uuid a])%list in
                  (RedisSet (jobKey (uuid a)) job :: RedisRPush job :: effects, outcome)
              end
          end
      end
  end.

Inductive response : Type := Json (status : nat) (body : value).

Definition statusCode (r : response) : nat := match r with Json s _ => s end.

(** The handler.  [files] is [req.files]; [None] is [undefined]. *)
Definition analyzeAsync (ctx : context) (req_files : option (list (file * answers)))
  : list effect * response :=
  let files := default [] req_files in
  let '(effects, outcome) := forFiles ctx files [] in
  (effects,
   match outcome with
   | Return jobs => Json 200 (VObject [("jobs", VArray (map VString jobs))])
   | Throw err => Json 500 (VObject [("error", VString (message err))])
   end).

(** *** The worker: [processJob] and [pollQueue] *)

(** What the two [fetch] calls answer for one job. *)
Record imageResponse : Type := {
  image_ok : bool;
  image_statusText : string;
  arrayBuffer : completion string
}.

Record apiResponse : Type := {
  api_ok : bool;
  api_status : string;             (* the status code as the template literal renders it *)
  api_text : completion string;
  api_json : completion value
}.

Record exchange : Type := {
  fetchImage : completion imageResponse;
  fetchApi : completion apiResponse
}.

(** [v?.k] *)
Definition optional (v : value) (k : string) : value :=
  match v with
  | VUndefined | VNull => VUndefined
  | _ => prop v k
  end.

(** [v?.[0]] *)
Definition optional0 (v : value) : value :=
  match v with
  | VArray (x :: _) => x
  | VObject props => lookup_prop "0" props
  | VString (String c _) => VString (String c EmptyString)
  | _ => VUndefined
  end.

(** Lines 97-107: from [content] to the parsed result. *)
Definition parseContent (content : value) : completion value :=
  if negb (truthy content) then Throw (Error "No content returned from X.AI API")
  else
    match content with
    | VString s =>
        match matchObject s with
        | None => Throw (Error "No JSON object found in response")
        | Some m => JSON_parse m
        end
    | _ => Throw (TypeError "content.match is not a function")
    end.

(** Lines 28-107: the [try] block up to [JSON.parse]. *)
Definition analyse (x : exchange) : completion value :=
  bind (fetchImage x) (fun imageResponse =>
  if negb (image_ok imageResponse)
  then Throw (Error ("Failed to fetch image: " +:+ image_statusText imageResponse))
  else
  bind (arrayBuffer imageResponse) (fun imageBuffer =>
  bind (fetchApi x) (fun apiResponse =>
  if negb (api_ok apiResponse)
  then bind (api_text apiResponse) (fun errorText =>
       Throw (Error ("X.AI API error: " +:+ api_status apiResponse +:+ " - " +:+ errorText)))
  else
  bind (api_json apiResponse) (fun data =>
  let content :=
    optional (optional (optional0 (optional data "choices")) "message") "content" in
  parseContent content)))).

(** *** Vocabulary of the parse step's properties *)

(** [c] occurs in [s]. *)
Fixpoint occurs (c : ascii) (s : string) : bool :=
  match s with
  | EmptyString => false
  | String c' rest => Ascii.eqb c c' || occurs c rest
  end.

(** [m] is the text of a JSON object. *)
Definition objectText (m : string) : Prop :=
  exists props, JSON_parse m = Return (VObject props).

(** Some substring of [text] is the text of a JSON object. *)
Definition hasObjectSubstring (text : string) : Prop :=
  exists before m after, text = before +:+ m +:+ after /\ objectText m.

(** The parse step's failure in the words it is stated in: the job fails
    exactly when the response holds no well-formed JSON object. *)
Definition failsIffNoObject (text : string) : Prop :=
  (exists err, parseContent (VString text) = Throw err) <-> ~ hasObjectSubstring text.

(** [m] runs from an opening brace to a closing brace. *)
Definition braced (m : string) : Prop :=
  exists inner, m = "{" +:+ inner +:+ "}".

Section Worker.

(** How a template literal renders a value that is not a string. *)
Variable render : value -> string.

Definition ToString (v : value) : string :=
  match v with VString s => s | _ => render v end.

(** The two object literals whose text the worker stores. *)
Definition completedRecord (jobId result : value) (processedAt : float) : value :=
  VObject [ ("jobId", jobId); ("status", VString "completed");
            ("result", result); ("processedAt", VNumber processedAt) ].

Definition failedRecord (jobId : value) (err : error) (processedAt : float) : value :=
  VObject [ ("jobId", jobId); ("status", VString "failed");
            ("error", VString (message err)); ("processedAt", VNumber processedAt) ].

(** Where the worker stands between two awaited Redis commands. *)
Inductive control : Type :=
| Idle                                               (* l.155  in [blPop] *)
| Trying (jobData : value)                           (* l.23   [processJob] entered *)
| SetCompleted (jobData result : value)              (* l.110  before the result is stored *)
| GetJob (jobData : value) (inTry : bool)            (* l.123, l.145  before the job is read *)
| SetJob (jobData job : value) (inTry : bool)        (* l.125, l.147  before the job is stored *)
| Caught (jobData : value) (err : error)             (* l.128  [catch] entered *)
| Backoff (err : error).                             (* l.162  [pollQueue] caught it *)

(** Where a throw leads: inside [try] into [catch]; inside [catch] out of
    [processJob], into the [catch] of [pollQueue]. *)
Definition thrown (jobData : value) (inTry : bool) (err : error) : control :=
  if inTry then Caught jobData err else Backoff err.

(** One awaited command of the worker.  [x] is what the outside answers
    during this job, [t] what [Date.now()] reads, and [rejected] what the
    store answers the Redis command awaited here: [None] when it accepts it,
    [Some err] when the promise rejects with [err], the store left as it
    was. *)
Definition workerStep (x : exchange) (t : float) (rejected : option error)
  (pc : control) (m : gmap string value) : control * gmap string value :=
  match pc with
  | Idle => (Idle, m)
  | Trying jobData =>
      match jobData with
      | VUndefined | VNull =>
          (* l.23: the destructuring throws before [try] is entered *)
          (Backoff (TypeError "Cannot destructure property 'jobId' of 'jobData'"), m)
      | _ =>
          match analyse x with
          | Return result => (SetCompleted jobData result, m)
          | Throw err => (Caught jobData err, m)
          end
      end
  | SetCompleted jobData result =>
      let jobId := prop jobData "jobId" in
      match rejected with
      | Some err => (Caught jobData err, m)
      | None =>
          (GetJob jobData true,
           <[resultKey (ToString jobId) := throughJson (completedRecord jobId result t)]> m)
      end
  | GetJob jobData inTry =>
      let jobId := prop jobData "jobId" in
      match rejected with
      | Some err => (thrown jobData inTry err, m)
      | None =>
          let job := getParsed (jobKey (ToString jobId)) m in
          match assign job "status" (VString (if inTry then "completed" else "failed")) with
          | Return job' => (SetJob jobData job' inTry, m)
          | Throw err => (thrown jobData inTry err, m)
          end
      end
  | SetJob jobData job inTry =>
      let jobId := prop jobData "jobId" in
      match rejected with
      | Some err => (thrown jobData inTry err, m)
      | None => (Idle, <[jobKey (ToString jobId) := throughJson job]> m)
      end
  | Caught jobData err =>
      let jobId := prop jobData "jobId" in
      match rejected with
      | Some err' => (Backoff err', m)
      | None =>
          (GetJob jobData false,
           <[resultKey (ToString jobId) := throughJson (failedRecord jobId err t)]> m)
      end
  | Backoff err => (Idle, m)
  end.

(** What the store answers the six Redis commands of [processJob]. *)
Record acceptance : Type := {
  setResult : option error;        (* l.110 *)
  getJob : option error;           (* l.123 *)
  setJob : option error;           (* l.125 *)
  setFailure : option error;       (* l.132 *)
  getJobAgain : option error;      (* l.145 *)
  setJobAgain : option error       (* l.147 *)
}.

Definition accepted : acceptance :=
  {| setResult := None; getJob := None; setJob := None;
     setFailure := None; getJobAgain := None; setJobAgain := None |}.

Definition rejectedAt (a : acceptance) (pc : control) : option error :=
  match pc with
  | SetCompleted _ _ => setResult a
  | GetJob _ true => getJob a
  | SetJob _ _ true => setJob a
  | Caught _ _ => setFailure a
  | GetJob _ false => getJobAgain a
  | SetJob _ _ false => setJobAgain a
  | Idle | Trying _ | Backoff _ => None
  end.

(** The worker's commands for one job, one after the other, until it is
    back in [blPop]. *)
Fixpoint runWorker (fuel : nat) (x : exchange) (t : float) (a : acceptance) (pc : control)
  (m : gmap string value) : control * gmap string value :=
  match pc, fuel with
  | Idle, _ => (pc, m)
  | _, O => (pc, m)
  | _, S fuel' =>
      let '(pc', m') := workerStep x t (rejectedAt a pc) pc m in runWorker fuel' x t a pc' m'
  end.

(** [processJob(jobData)] run to its end, and the wait of [pollQueue] after
    a throw: at most eight commands. *)
Definition processJob (x : exchange) (t : float) (a : acceptance) (jobData : value)
  (m : gmap string value) : control * gmap string value :=
  runWorker 8 x t a (Trying jobData) m.

(** One turn of the [while (true)] loop of [pollQueue]: [blPop] answers the
    head of the queue, or nothing when its wait runs out, and the job is
    processed to its end. *)
Definition pollQueue (x : exchange) (t : float) (a : acceptance) (db : redis) : redis :=
  match queue db with
  | [] => db
  | jobData :: rest => {| kv := snd (processJob x t a jobData (kv db)); queue := rest |}
  end.

(** *** The system: requests and workers, one Redis command at a time *)

(** The job a worker holds. *)
Definition inHand (pc : control) : list value :=
  match pc with
  | Idle | Backoff _ => []
  | Trying jobData | SetCompleted jobData _ | Caught jobData _
  | GetJob jobData _ | SetJob jobData _ _ => [jobData]
  end.

(** The identifier of the job a worker holds. *)
Definition heldIds (pc : control) : gset string :=
  match inHand pc with
  | [jobData] => match prop jobData "jobId" with VString jobId => {[jobId]} | _ => ∅ end
  | _ => ∅
  end.

(** [disturbed] is a record kept for the statements only, nothing reads it:
    the identifiers of the jobs one of whose keys has expired, or whose
    worker had a command rejected or stopped before it was done. *)
Record system : Type := {
  db : redis;
  workers : list control;      (* the worker processes on the queue *)
  recorded : list value;       (* jobs stored by a handler that has not pushed them *)
  issued : gset string;        (* the identifiers [crypto.randomUUID()] has given out *)
  disturbed : gset string
}.

Definition initial : system :=
  {| db := {| kv := ∅; queue := [] |}; workers := []; recorded := []; issued := ∅;
     disturbed := ∅ |}.

Inductive step : system -> system -> Prop :=
(* index.ts l.113-133: a fresh identifier, the upload, and the job is stored *)
| step_record s ctx f a mediaUrl :
    uuid a ∉ issued s ->
    uploadMedia a = Return mediaUrl ->
    let job := pendingJob ctx f a mediaUrl in
    step s {| db := perform (RedisSet (jobKey (uuid a)) job) (db s);
              workers := workers s;
              recorded := job :: recorded s;
              issued := {[uuid a]} ∪ issued s;
              disturbed := disturbed s |}
(* index.ts l.134: the job is pushed; a handler whose push is rejected, or
   that stops before it, leaves its job in [recorded] *)
| step_push s before job after :
    recorded s = (before ++ job :: after)%list ->
    step s {| db := perform (RedisRPush job) (db s);
              workers := workers s;
              recorded := (before ++ after)%list;
              issued := issued s;
              disturbed := disturbed s |}
(* worker.js l.169: one more worker process polls the queue *)
| step_start s :
    step s {| db := db s;
              workers := (workers s ++ [Idle])%list;
              recorded := recorded s;
              issued := issued s;
              disturbed := disturbed s |}
(* worker.js l.155-159: blPop answers the head of the queue *)
| step_pop s i jobData rest :
    workers s !! i = Some Idle ->
    queue (db s) = jobData :: rest ->
    step s {| db := {| kv := kv (db s); queue := rest |};
              workers := <[i := Trying jobData]> (workers s);
              recorded := recorded s;
              issued := issued s;
              disturbed := disturbed s |}
(* worker.js l.155, l.161: blPop is rejected *)
| step_pop_rejected s i err :
    workers s !! i = Some Idle ->
    step s {| db := db s;
              workers := <[i := Backoff err]> (workers s);
              recorded := recorded s;
              issued := issued s;
              disturbed := disturbed s |}
(* worker.js l.27-149, l.161-164: the next command of a worker *)
| step_worker s i pc x t rejected pc' m' :
    workers s !! i = Some pc ->
    pc <> Idle ->
    workerStep x t rejected pc (kv (db s)) = (pc', m') ->
    step s {| db := {| kv := m'; queue := queue (db s) |};
              workers := <[i := pc']> (workers s);
              recorded := recorded s;
              issued := issued s;
              disturbed := match rejected with
                           | Some _ => heldIds pc ∪ disturbed s
                           | None => disturbed s
                           end |}
(* a worker process stops where it stands and is started again *)
| step_restart s i pc :
    workers s !! i = Some pc ->
    step s {| db := db s;
              workers := <[i := Idle]> (workers s);
              recorded := recorded s;
              issued := issued s;
              disturbed := heldIds pc ∪ disturbed s |}
(* the hour of a job's key is over *)
| step_expire_job s jobId :
    is_Some (kv (db s) !! jobKey jobId) ->
    step s {| db := {| kv := delete (jobKey jobId) (kv (db s)); queue := queue (db s) |};
              workers := workers s;
              recorded := recorded s;
              issued := issued s;
              disturbed := {[jobId]} ∪ disturbed s |}
(* the hour of a result's key is over *)
| step_expire_result s jobId :
    is_Some (kv (db s) !! resultKey jobId) ->
    step s {| db := {| kv := delete (resultKey jobId) (kv (db s)); queue := queue (db s) |};
              workers := workers s;
              recorded := recorded s;
              issued := issued s;
              disturbed := {[jobId]} ∪ disturbed s |}.

Inductive reachable : system -> Prop :=
| reachable_initial : reachable initial
| reachable_step s s' : reachable s -> step s s' -> reachable s'.

(** *** Vocabulary of the pipeline's properties *)

(** The value of [job.status] as a reader of [analysis:jobs:{jobId}] sees
    it; a missing job reads as [undefined]. *)
Definition storedStatus (m : gmap string value) (jobId : string) : value :=
  prop (getParsed (jobKey jobId) m) "status".

Definition terminal (st : value) : Prop :=
  st = VString "completed" \/ st = VString "failed".

(** The invariant in the words it is stated in: a Result exists exactly for
    the jobs that have left [pending]. *)
Definition resultIffLeftPending (s : system) : Prop :=
  forall jobId,
    is_Some (kv (db s) !! resultKey jobId) <-> terminal (storedStatus (kv (db s)) jobId).

(** The worker has stored the result of [jobId] and not yet its status. *)
Definition betweenWrites (pc : control) (jobId : string) : Prop :=
  match pc with
  | GetJob jobData _ | SetJob jobData _ _ => prop jobData "jobId" = VString jobId
  | _ => False
  end.

(** Some worker stands between the two writes for [jobId]. *)
Definition beingCompleted (s : system) (jobId : string) : Prop :=
  exists i pc, workers s !! i = Some pc /\ betweenWrites pc jobId.

(** A result as the claim describes the two ends of a job. *)
Definition failedWith (r : value) (err : error) : Prop :=
  prop r "status" = VString "failed" /\ prop r "error" = VString (message err).

Definition completedWith (r result : value) : Prop :=
  prop r "status" = VString "completed" /\ prop r "result" = throughJson result.

(** [data?.choices?.[0]?.message?.content] *)
Definition contentOf (data : value) : value :=
  optional (optional (optional0 (optional data "choices")) "message") "content".

(** The end of a processed job in the words it is stated in: a result is
    stored for the job, completed when the analysis succeeded and failed
    with the error's message when it did not, and the job's stored status
    is that of the result. *)
Definition endsWithTerminalResult (x : exchange) (t : float) (a : acceptance)
  (jobData : value) (m : gmap string value) : Prop :=
  let m' := snd (processJob x t a jobData m) in
  exists jobId r,
    prop jobData "jobId" = VString jobId
    /\ m' !! resultKey jobId = Some r
    /\ match analyse x with
       | Return _ => prop r "status" = VString "completed"
       | Throw err =>
           prop r "status" = VString "failed" /\ prop r "error" = VString (message err)
       end
    /\ storedStatus m' jobId = prop r "status".

End Worker.

(** The commands the handler issues for one image that it handles to the
    end. *)
Definition uploaded (a : answers) : value :=
  match uploadMedia a with Return mediaUrl => mediaUrl | Throw _ => VUndefined end.

(** The job the handler builds for an image whose upload succeeded. *)
Definition jobFor (ctx : context) (fa : file * answers) : value :=
  pendingJob ctx (fst fa) (snd fa) (uploaded (snd fa)).

Definition commandsFor (ctx : context) (fa : file * answers) : list effect :=
  [RedisSet (jobKey (uuid (snd fa))) (jobFor ctx fa); RedisRPush (jobFor ctx fa)].

(** The upload succeeds and the store accepts the write and the push. *)
Definition handled (a : answers) : Prop :=
  (exists mediaUrl, uploadMedia a = Return mediaUrl)
  /\ setRejected a = None /\ rPushRejected a = None.

(** One write and one push per image and the identifiers in the answer, in
    the words it is stated in. *)
Definition recordsThenPushesEach (ctx : context) (files : list (file * answers)) : Prop :=
  exists jobs : list value,
    length jobs = length files
    /\ fst (analyzeAsync ctx (Some files))
       = flat_map (fun idjob => [RedisSet (jobKey (fst idjob)) (snd idjob);
                                 RedisRPush (snd idjob)])
                  (zip (map (fun fa => uuid (snd fa)) files) jobs)
    /\ snd (analyzeAsync ctx (Some files))
       = Json 200 (VObject [("jobs", VArray (map (fun fa => VString (uuid (snd fa))) files))]).

(** No push without the write of the same job right before it. *)
Definition recordedBeforeQueued (effects : list effect) : Prop :=
  forall before job after,
    effects = (before ++ RedisRPush job :: after)%list ->
    exists jobId before',
      prop job "jobId" = VString jobId
      /\ before = (before' ++ [RedisSet (jobKey jobId) job])%list.

(** Rejection of an empty request, in the words it is stated in: an error
    status, and no command issued. *)
Definition rejectsWithoutImages (ctx : context) (req_files : option (list (file * answers)))
  : Prop :=
  default [] req_files = [] ->
  (400 <= statusCode (snd (analyzeAsync ctx req_files)))%nat
  /\ fst (analyzeAsync ctx req_files) = [].

(** The store after a handler's commands, in the order they were issued. *)
Definition performAll (effects : list effect) (db : redis) : redis :=
  fold_left (fun db e => perform e db) effects db.

(** What [JSON.parse(await redis.get(jobKey))] throws on when the key is
    gone: the assignment [job.status = ...] to [null]. *)
Definition lostRecordError : error :=
  TypeError "Cannot set properties of null (setting 'status')".

(** *** The invariant of the reachable states *)

Definition statusWritten (inTry : bool) : string :=
  if inTry then "completed" else "failed".

(** [v] is a job object of identifier [jobId] and status [st]. *)
Definition jobRecord (jobId st : string) (v : value) : Prop :=
  exists props,
    v = VObject props /\ NoDup (names props)
    /\ lookup_prop "jobId" props = VString jobId
    /\ lookup_prop "status" props = VString st.

(** [jobData] is a job as the handler sent it. *)
Definition handlerJob (jobData : value) (jobId : string) : Prop :=
  exists ctx f a mediaUrl,
    uuid a = jobId /\ jobData = throughJson (pendingJob ctx f a mediaUrl).

(** The record of [jobId] is stored and pending. *)
Definition storedPending (m : gmap string value) (jobId : string) : Prop :=
  exists v, m !! jobKey jobId = Some v /\ jobRecord jobId "pending" v.

(** The result of [jobId] is stored with status [st]. *)
Definition storedResult (m : gmap string value) (jobId st : string) : Prop :=
  exists r, m !! resultKey jobId = Some r /\ prop r "status" = VString st.

(** What a worker holds, and for an undisturbed job what the store holds
    meanwhile. *)
Definition workerInvariant (m : gmap string value) (known troubled : gset string)
  (pc : control) : Prop :=
  match pc with
  | Idle | Backoff _ => True
  | Trying jobData | SetCompleted jobData _ | Caught jobData _ =>
      exists jobId,
        handlerJob jobData jobId /\ jobId ∈ known
        /\ (jobId ∉ troubled -> storedPending m jobId /\ m !! resultKey jobId = None)
  | GetJob jobData inTry =>
      exists jobId,
        handlerJob jobData jobId /\ jobId ∈ known
        /\ (jobId ∉ troubled ->
            storedPending m jobId /\ storedResult m jobId (statusWritten inTry))
  | SetJob jobData job inTry =>
      exists jobId,
        handlerJob jobData jobId /\ jobId ∈ known
        /\ jobRecord jobId (statusWritten inTry) job
        /\ (jobId ∉ troubled ->
            storedPending m jobId /\ storedResult m jobId (statusWritten inTry))
  end.

(** The identifier a job carries. *)
Definition identifier (jobData : value) : value := prop jobData "jobId".

(** The jobs on their way: stored and not pushed, queued, or held by a
    worker. *)
Definition onTheWay (s : system) : list value :=
  ((throughJson <$> recorded s) ++ queue (db s) ++ (workers s ≫= inHand))%list.

Record invariant (s : system) : Prop := {
  (* every stored job carries its identifier and one of the three statuses;
     past [pending], the result of an undisturbed job is stored with the
     same status *)
  inv_jobs : forall jobId v,
    kv (db s) !! jobKey jobId = Some v ->
    jobId ∈ issued s
    /\ exists st,
         jobRecord jobId st v
         /\ (st = "pending" \/ st = "completed" \/ st = "failed")
         /\ (jobId ∉ disturbed s -> st <> "pending" -> storedResult (kv (db s)) jobId st);
  (* every stored result is terminal and carries its identifier; the record
     of an undisturbed job is stored and has the same status or is being
     given it *)
  inv_results : forall jobId r,
    kv (db s) !! resultKey jobId = Some r ->
    jobId ∈ issued s
    /\ exists st,
         prop r "status" = VString st /\ (st = "completed" \/ st = "failed")
         /\ prop r "jobId" = VString jobId
         /\ (jobId ∉ disturbed s ->
             exists v, kv (db s) !! jobKey jobId = Some v
               /\ (prop v "status" = VString st
                   \/ (prop v "status" = VString "pending" /\ beingCompleted s jobId)));
  (* the jobs not yet popped: when undisturbed, stored, pending, without a
     result *)
  inv_waiting : forall jobData,
    jobData ∈ ((throughJson <$> recorded s) ++ queue (db s))%list ->
    exists jobId,
      handlerJob jobData jobId /\ jobId ∈ issued s
      /\ (jobId ∉ disturbed s ->
          storedPending (kv (db s)) jobId /\ kv (db s) !! resultKey jobId = None);
  (* no identifier is on its way twice *)
  inv_distinct : NoDup (identifier <$> onTheWay s);
  inv_workers : forall i pc,
    workers s !! i = Some pc ->
    workerInvariant (kv (db s)) (issued s) (disturbed s) pc
}.

(** *** Sample data *)

Definition sampleContext : context :=
  {| userId := VString "t2_user"; subredditName := VString "chiveit_dev";
     postId := VString "t3_post" |}.

Definition sampleFile : file := {| buffer := "PNG"; mimetype := "image/png" |}.

Definition sampleAnswers (id : string) : answers :=
  {| uuid := id;
     uploadMedia := Return (VString "https://i.redd.it/chives.png");
     now := 1700000000000%float;
     setRejected := None; rPushRejected := None |}.

Definition failingAnswers (id : string) : answers :=
  {| uuid := id;
     uploadMedia := Throw (Error "media upload failed");
     now := 1700000000000%float;
     setRejected := None; rPushRejected := None |}.

(** The store accepts the write and rejects the push. *)
Definition unpushedAnswers (id : string) : answers :=
  {| uuid := id;
     uploadMedia := Return (VString "https://i.redd.it/chives.png");
     now := 1700000000000%float;
     setRejected := None; rPushRejected := Some (Error "Connection is closed.") |}.

Definition sampleJob : value :=
  pendingJob sampleContext sampleFile (sampleAnswers "job-1")
             (VString "https://i.redd.it/chives.png").

Definition sampleImage : imageResponse :=
  {| image_ok := true; image_statusText := "OK"; arrayBuffer := Return "PNG" |}.

(** A reply of the analysis service whose content is [content]. *)
Definition sampleReply (content : string) : apiResponse :=
  {| api_ok := true; api_status := "200"; api_text := Return "";
     api_json :=
       Return (VObject [("choices",
                 VArray [VObject [("message",
                   VObject [("content", VString content)])]])]) |}.

Definition sampleExchange (content : string) : exchange :=
  {| fetchImage := Return sampleImage; fetchApi := Return (sampleReply content) |}.

(** Sample responses: [{"bunch": 1} and {"bunch": 2}], and a payload after
    a few words. *)
Definition quoted (s : string) : string :=
  String dquote (s +:+ String dquote EmptyString).

Definition oneObject (n : string) : string :=
  "{" +:+ quoted "bunch" +:+ ": " +:+ n +:+ "}".

Definition twoObjects : string := oneObject "1" +:+ " and " +:+ oneObject "2".

Definition proseThenObject : string :=
  "Here you go: {" +:+ quoted "averageThicknessMm" +:+ ": 2}".

(** A rendering of values that are not strings; no sample needs one. *)
Definition noRender : value -> string := fun _ => "".

(** The states of one job's way through the system. *)
Definition stateStarted : system :=
  {| db := db initial; workers := [Idle]; recorded := []; issued := ∅; disturbed := ∅ |}.

Definition stateRecorded : system :=
  {| db := perform (RedisSet (jobKey "job-1") sampleJob) (db stateStarted);
     workers := [Idle]; recorded := [sampleJob]; issued := {["job-1"]} ∪ ∅;
     disturbed := ∅ |}.

Definition statePushed : system :=
  {| db := perform (RedisRPush sampleJob) (db stateRecorded);
     workers := [Idle]; recorded := []; issued := issued stateRecorded; disturbed := ∅ |}.

Definition statePopped : system :=
  {| db := {| kv := kv (db statePushed); queue := [] |};
     workers := [Trying (throughJson sampleJob)]; recorded := [];
     issued := issued stateRecorded; disturbed := ∅ |}.

Definition sampleResult : value := VObject [("averageThicknessMm", VNumber 2)].

Definition stateAnalysed : system :=
  {| db := db statePopped;
     workers := [SetCompleted (throughJson sampleJob) sampleResult];
     recorded := []; issued := issued stateRecorded; disturbed := ∅ |}.

(** The result is stored, the status is not yet. *)
Definition stateBetweenWrites : system :=
  {| db := {| kv := <[resultKey "job-1" :=
                       throughJson (completedRecord (VString "job-1") sampleResult
                                      1700000000500%float)]>
                    (kv (db statePopped));
              queue := [] |};
     workers := [GetJob (throughJson sampleJob) true]; recorded := [];
     issued := issued stateRecorded; disturbed := ∅ |}.

(** The worker has read the job and set its status. *)
Definition sampleStatusRead : control :=
  fst (workerStep noRender (sampleExchange "") 1700000000500%float None
         (GetJob (throughJson sampleJob) true) (kv (db stateBetweenWrites))).

Definition stateStatusRead : system :=
  {| db := db stateBetweenWrites; workers := [sampleStatusRead];
     recorded := []; issued := issued stateRecorded; disturbed := ∅ |}.

(** The job is done. *)
Definition stateCompleted : system :=
  {| db := {| kv := snd (workerStep noRender (sampleExchange "") 1700000000500%float None
                           sampleStatusRead (kv (db stateBetweenWrites)));
              queue := [] |};
     workers := [Idle]; recorded := []; issued := issued stateRecorded; disturbed := ∅ |}.

(** The store rejects both writes of the result. *)
Definition resultsRejected : acceptance :=
  {| setResult := Some (Error "Connection is closed."); getJob := None; setJob := None;
     setFailure := Some (Error "Connection is closed."); getJobAgain := None;
     setJobAgain := None |}.

(** The job's key has expired while the job was queued. *)
Definition stateLostRecord : system :=
  {| db := {| kv := delete (jobKey "job-1") (kv (db statePushed));
              queue := queue (db statePushed) |};
     workers := [Idle]; recorded := []; issued := issued stateRecorded;
     disturbed := {["job-1"]} ∪ ∅ |}.

End Pipeline.

(** ** Reading a result: [GET /api/result/:jobId] *)

Module ResultApi.
Import JS Scoring Json Pipeline.
#[local] Open Scope string_scope.

(** [v.k]: reading a property of [undefined] or [null] throws. *)
Definition get (v : value) (k : string) : completion value :=
  match v with
  | VUndefined =>
      Throw (TypeError ("Cannot read properties of undefined (reading '" +:+ k +:+ "')"))
  | VNull =>
      Throw (TypeError ("Cannot read properties of null (reading '" +:+ k +:+ "')"))
  | _ => Return (prop v k)
  end.

(** A score as a value: [null] or a number. *)
Definition nullable (x : option float) : value :=
  match x with Some x => VNumber x | None => VNull end.

(** The object [scoreChiveAnalysis] returns. *)
Definition scoredObject (r : ScoredChiveMetrics) : list (string * value) :=
  [ ("thicknessConsistencyScore", nullable (thicknessConsistencyScore r));
    ("cutQualityScore", nullable (cutQualityScore r));
    ("overallScore", nullable (overallScore r));
    ("notes", VString (notes r)) ].

(** The own enumerable properties a spread copies: those of an object, the
    indices of an array, the indices of a string. *)
Definition ownProperties (v : value) : list (string * value) :=
  match v with
  | VObject props => props
  | VArray l => imap (fun i x => (pretty i, x)) l
  | VString s =>
      imap (fun i c => (pretty i, VString (String c EmptyString))) (list_ascii_of_string s)
  | _ => []
  end.

(** [{ ...target, ...source }] continued from the properties copied so far. *)
Definition spread (target source : list (string * value)) : list (string * value) :=
  fold_left (fun acc kv => define_prop (fst kv) (snd kv) acc) source target.

(** [{ ...result.result, ...scored }] *)
Definition withScores (result : value) (scored : ScoredChiveMetrics) : value :=
  VObject (spread (spread [] (ownProperties result)) (scoredObject scored)).

(** The handler (index.ts l.149-188) on the store [m]. *)
Definition getResult (m : gmap string value) (jobId : string) : response :=
  let outcome : completion response :=
    match m !! resultKey jobId with
    | None =>
        (* l.154-165: no result yet *)
        match m !! jobKey jobId with
        | None => Return (Json 404 (VObject [("error", VString "Job not found")]))
        | Some job =>
            bind (get job "status") (fun status =>
            Return (Json 200 (VObject [("status", status)])))
        end
    | Some result =>
        bind (get result "status") (fun status =>
        if strict_eq_string status "failed" then
          Return (Json 200 (VObject [("status", VString "failed");
                                     ("error", prop result "error")]))
        else
          bind (scoreChiveAnalysis (prop result "result")) (fun scored =>
          Return (Json 200 (VObject [("status", VString "completed");
                                     ("result", withScores (prop result "result") scored)]))))
    end in
  match outcome with
  | Return r => r
  | Throw err => Json 500 (VObject [("error", VString (message err))])
  end.

(** *** Vocabulary of the handler's properties *)

Definition body (r : response) : value := match r with Json _ b => b end.

(** The names [scoreChiveAnalysis] gives its results. *)
Definition scoreNames : list string :=
  ["thicknessConsistencyScore"; "cutQualityScore"; "overallScore"; "notes"].

End ResultApi.

(** ** The synchronous path: [getXaiApiKey], [analyzeChiveImageWithGrok] and
       [POST /api/analyze] *)

Module Grok.
Import JS Scoring Json Pipeline ResultApi.
#[local] Open Scope string_scope.

(** [process.env]: a variable is a string, or is not set. *)
Record environment : Type := {
  env_XAI_API_KEY : option string;
  env_XAIAPIKEY : option string
}.

(** [a ?? b] on values that are a string or [undefined]. *)
Definition coalesce (a b : option string) : option string :=
  match a with Some _ => a | None => b end.

(** [k && k.length > 0] as a condition: the string, when it is one and is
    not empty. *)
Definition usable (k : option string) : option string :=
  match k with
  | Some (String c rest) => Some (String c rest)
  | _ => None
  end.

(** [getXaiApiKey()].  [settings name] is what [await settings.get(name)]
    answers, a string or [undefined] as the cast declares, or what it
    rejects with.  The names looked up are listed beside the outcome. *)
Definition getXaiApiKey (env : environment) (settings : string -> completion (option string))
  : list string * completion string :=
  match usable (coalesce (env_XAI_API_KEY env) (env_XAIAPIKEY env)) with
  | Some fromEnv => ([], Return fromEnv)
  | None =>
      match settings "XAIAPIKEY" with
      | Throw e => (["XAIAPIKEY"], Throw e)
      | Return fromSettingsPrimary =>
          match usable fromSettingsPrimary with
          | Some k => (["XAIAPIKEY"], Return k)
          | None =>
              match settings "XAI_API_KEY" with
              | Throw e => (["XAIAPIKEY"; "XAI_API_KEY"], Throw e)
              | Return fromSettingsAlt =>
                  match usable fromSettingsAlt with
                  | Some k => (["XAIAPIKEY"; "XAI_API_KEY"], Return k)
                  | None =>
                      (["XAIAPIKEY"; "XAI_API_KEY"],
                       Throw (Error "XAI API key is not configured"))
                  end
              end
          end
      end
  end.

(** [a ?? b] on values. *)
Definition orDefault (a b : value) : value :=
  match a with VUndefined | VNull => b | _ => a end.

(** l.164-170: the [base] object literal. *)
Definition baseOf (parsed : value) : value :=
  VObject
    [ ("averageThicknessMm", orDefault (prop parsed "averageThicknessMm") VNull);
      ("thicknessStdDevMm", orDefault (prop parsed "thicknessStdDevMm") VNull);
      ("cutQualityLabel", orDefault (prop parsed "cutQualityLabel") (VString "unknown"));
      ("rawNotes", or_else (prop parsed "rawNotes") (VString ""));
      ("regions", if Array_isArray (prop parsed "regions")
                  then prop parsed "regions" else VArray []) ].

Section Content.

(** How [join] and a template literal render a value that is not a string,
    and what [JSON.stringify] makes of an object. *)
Variable render : value -> string.
Variable stringify : value -> string.

(** The callback of [content.map]. *)
Definition partText (part : value) : value :=
  match part with
  | VString _ => part
  | VObject _ | VArray _ =>
      or_else (prop part "text") (or_else (prop part "content") (VString ""))
  | _ => VString ""
  end.

Definition newline : string := String (ascii_of_nat 10) EmptyString.

(** l.127-149: from [content] to [jsonText]. *)
Definition jsonTextOf (content : value) : completion value :=
  if negb (truthy content) then Throw (Error "No content returned from Grok")
  else
    match content with
    | VString _ => Return content
    | VArray parts =>
        Return (VString (String.concat newline
                           (map (fun part => ToString render (partText part)) parts)))
    | VObject _ =>
        Return (or_else (prop content "text")
                  (or_else (prop content "content") (VString (stringify content))))
    | _ => Throw (Error "Unsupported Grok content format")
    end.

(** l.151-162: the match and [JSON.parse]. *)
Definition parseJsonText (jsonText : value) : completion value :=
  match jsonText with
  | VString s =>
      match matchObject s with
      | None => Throw (Error "No JSON object found in Grok response")
      | Some m => JSON_parse m
      end
  | _ => Throw (TypeError "jsonText.match is not a function")
  end.

(** [analyzeChiveImageWithGrok(buffer, mimeType, XAI_API_KEY)], given what
    [axios.post] answers or rejects with. *)
Definition analyzeChiveImageWithGrok (response : completion value) : completion value :=
  bind response (fun response =>
  let content :=
    optional (optional (optional0 (optional (optional response "data") "choices"))
                "message") "content" in
  bind (jsonTextOf content) (fun jsonText =>
  bind (parseJsonText jsonText) (fun parsed =>
  Return (baseOf parsed)))).

(** *** [POST /api/analyze] (index.ts l.421-494) *)

Record upload : Type := {
  originalname : string;
  upload_buffer : string;
  upload_mimetype : string
}.

(** The integer [n] as a number. *)
Definition of_nat (n : nat) : float := of_Z (Z.of_nat n).

(** l.453-465: the entry of an analysed image. *)
Definition scoredItem (f : upload) (index : nat) (baseMetrics : value)
  (scored : ScoredChiveMetrics) : value :=
  VObject
    [ ("filename", VString (originalname f));
      ("bunchIndex", VNumber (of_nat index));
      ("averageThicknessMm", prop baseMetrics "averageThicknessMm");
      ("thicknessStdDevMm", prop baseMetrics "thicknessStdDevMm");
      ("cutQualityLabel", prop baseMetrics "cutQualityLabel");
      ("rawNotes", prop baseMetrics "rawNotes");
      ("regions", prop baseMetrics "regions");
      ("thicknessConsistencyScore", nullable (thicknessConsistencyScore scored));
      ("cutQualityScore", nullable (cutQualityScore scored));
      ("overallScore", nullable (overallScore scored));
      ("notes", VString (notes scored)) ].

(** l.468-480: the entry of an image whose analysis threw. *)
Definition failedItem (filename : string) (index : nat) (note : string) : value :=
  VObject
    [ ("filename", VString filename);
      ("bunchIndex", VNumber (of_nat index));
      ("averageThicknessMm", VNull);
      ("thicknessStdDevMm", VNull);
      ("cutQualityLabel", VString "unknown");
      ("overallScore", VNull);
      ("thicknessConsistencyScore", VNull);
      ("cutQualityScore", VNull);
      ("notes", VString note);
      ("rawNotes", VString "");
      ("regions", VArray []) ].

(** One turn of the loop: the entry pushed for the image at [index]. *)
Definition analyzeOne (index : nat) (f : upload) (response : completion value) : value :=
  match
    bind (analyzeChiveImageWithGrok response) (fun baseMetrics =>
    bind (scoreChiveAnalysis baseMetrics) (fun scored =>
    Return (scoredItem f index baseMetrics scored)))
  with
  | Return item => item
  | Throw err => failedItem (originalname f) index ("Analysis failed: " +:+ message err)
  end.

Fixpoint analyzeEach (index : nat) (files : list (upload * completion value)) : list value :=
  match files with
  | [] => []
  | (f, response) :: rest => analyzeOne index f response :: analyzeEach (S index) rest
  end.

(** The final handler, given [req.xaiApiKey] and [req.files]. *)
Definition analyzeHandler (xaiApiKey : option string)
  (req_files : option (list (upload * completion value))) : response :=
  let files := default [] req_files in
  match usable xaiApiKey with
  | None =>
      Json 500 (VObject [("error", VString "Analysis failed");
                         ("details", VString "XAI API key missing from request context")])
  | Some _ =>
      Json 200 (VObject [("analyzedCount", VNumber (of_nat (length files)));
                         ("results", VArray (analyzeEach 0 files))])
  end.

(** The route: the first middleware resolves the key and hands over, or
    answers 500 itself. *)
Definition analyzeRoute (env : environment) (settings : string -> completion (option string))
  (req_files : option (list (upload * completion value))) : response :=
  match snd (getXaiApiKey env settings) with
  | Return key => analyzeHandler (Some key) req_files
  | Throw err =>
      Json 500 (VObject [("error", VString "Analysis failed");
                         ("details", VString (message err))])
  end.

End Content.

(** *** Sample data *)

(** What [axios.post] answers when the reply's content is [content]. *)
Definition sampleAxios (content : value) : value :=
  VObject [("data",
    VObject [("choices",
      VArray [VObject [("message", VObject [("content", content)])]])])].

Definition sampleUpload (name : string) : upload :=
  {| originalname := name; upload_buffer := "PNG"; upload_mimetype := "image/png" |}.

Definition sampleEnvironment : environment :=
  {| env_XAI_API_KEY := Some "xai-key"; env_XAIAPIKEY := None |}.

Definition noSettings : string -> completion (option string) := fun _ => Return None.

End Grok.

(** ** The client: [pollResults] and [scoreTag] (client/App.tsx) *)

Module Client.
Import JS Scoring Json Pipeline ResultApi Grok.
#[local] Open Scope string_scope.

Section Polling.

(** How a template literal renders a value that is not a string. *)
Variable render : value -> string.

Definition maxAttempts : nat := 60.

(** [`Job ${jobId.slice(0, 8)}`] *)
Definition jobName (jobId : string) : string := "Job " +:+ substring 0 8 jobId.

(** l.51-64: the entry of a completed job; reading [result.averageThicknessMm]
    throws when [data.result] is [undefined] or [null]. *)
Definition completedItem (jobId : string) (index : nat) (result : value) : completion value :=
  bind (get result "averageThicknessMm") (fun averageThicknessMm =>
  Return (VObject
    [ ("filename", VString (jobName jobId));
      ("bunchIndex", VNumber (of_nat index));
      ("averageThicknessMm", averageThicknessMm);
      ("thicknessStdDevMm", prop result "thicknessStdDevMm");
      ("cutQualityLabel", prop result "cutQualityLabel");
      ("rawNotes", prop result "rawNotes");
      ("regions", prop result "regions");
      ("thicknessConsistencyScore", prop result "thicknessConsistencyScore");
      ("cutQualityScore", prop result "cutQualityScore");
      ("overallScore", prop result "overallScore");
      ("notes", prop result "notes") ])).

(** The [while] loop for one job.  [answers n] is the [data] of the request
    number [n] for this job, or what [fetch] or [response.json()] rejects
    with; [attempts] requests were made, [remaining] may still be made.  The
    outcome comes with the number of requests made. *)
Fixpoint pollJob (jobId : string) (index : nat) (answers : nat -> completion value)
  (attempts remaining : nat) : nat * completion value :=
  match remaining with
  | O => (attempts, Return (failedItem (jobName jobId) index "Analysis timed out"))
  | S remaining' =>
      match bind (answers attempts) (fun data =>
            bind (get data "status") (fun status => Return (data, status))) with
      | Throw err => (S attempts, Throw err)
      | Return (data, status) =>
          if strict_eq_string status "completed" then
            (S attempts, completedItem jobId index (prop data "result"))
          else if strict_eq_string status "failed" then
            (S attempts,
             Return (failedItem (jobName jobId) index
                       ("Analysis failed: " +:+ ToString render (prop data "error"))))
          else pollJob jobId index answers (S attempts) remaining'
      end
  end.

(** [pollResults(jobIds)]: the entries pushed so far are [results]; the
    outcome comes with the number of requests made for each job. *)
Fixpoint pollResults (jobs : list (string * (nat -> completion value))) (results : list value)
  : list nat * completion (list value) :=
  match jobs with
  | [] => ([], Return results)
  | (jobId, answers) :: rest =>
      match pollJob jobId (length results) answers 0 maxAttempts with
      | (requests, Throw err) => ([requests], Throw err)
      | (requests, Return item) =>
          let '(counts, outcome) := pollResults rest (results ++ [item])%list in
          (requests :: counts, outcome)
      end
  end.

End Polling.

(** An answer that keeps the loop waiting: data, not [null], whose status
    is neither [completed] nor [failed]. *)
Definition stillWaiting (answer : completion value) : Prop :=
  exists data,
    answer = Return data /\ data <> VNull /\ data <> VUndefined
    /\ strict_eq_string (prop data "status") "completed" = false
    /\ strict_eq_string (prop data "status") "failed" = false.

(** [scoreTag(score)]: the text of the tag; [None] is no tag. *)
Definition scoreTag (score : option float) : option string :=
  match score with
  | None => None
  | Some score =>
      let s := Math_round score in
      Some (if (95 <=? s)%float then "Perfect!"
            else if (90 <=? s)%float then "Great!"
            else if (85 <=? s)%float then "Very good"
            else if (80 <=? s)%float then "Good"
            else if (75 <=? s)%float then "Fair"
            else "Poor")
  end.

(** The tag of an integer score, by the thresholds. *)
Definition tagFor (k : Z) : string :=
  if (95 <=? k)%Z then "Perfect!"
  else if (90 <=? k)%Z then "Great!"
  else if (85 <=? k)%Z then "Very good"
  else if (80 <=? k)%Z then "Good"
  else if (75 <=? k)%Z then "Fair"
  else "Poor".

(** *** Sample data *)

Definition pendingAnswer : completion value :=
  Return (VObject [("status", VString "pending")]).

Definition failedAnswer : completion value :=
  Return (VObject [("status", VString "failed"); ("error", VString "no image")]).

(** Two requests are answered with [pending], the third with the failure. *)
Definition thirdTimeFailed (n : nat) : completion value :=
  if (n <? 2)%nat then pendingAnswer else failedAnswer.

End Client.

(** * Properties *)

Import JS Binary64 Scoring Json Pipeline ResultApi Grok Client.

(** ** Rounding: what a correctly rounded operation cannot exceed *)

Section Rounding.

Lemma digits2_size p : digits2_pos p = Pos.size p.
Proof. induction p; simpl; congruence. Qed.

(* 2^(digits-1) <= p *)
Lemma digits2_lower p : 2 ^ (Zpos (digits2_pos p) - 1) <= Zpos p.
Proof.
  rewrite digits2_size.
  pose proof (Pos.size_le p) as H.
  assert (2 ^ Zpos (Pos.size p) <= 2 * Zpos p).
  { rewrite <- Pos2Z.inj_pow. change (2 * Zpos p) with (Zpos p~0). now apply Pos2Z.pos_le_pos. }
  replace (Zpos (Pos.size p)) with (1 + (Zpos (Pos.size p) - 1)) in H0 by lia.
  rewrite Z.pow_add_r in H0 by lia. lia.
Qed.

Lemma digits2_le_of_bound p k : 0 <= k -> Zpos p <= 2 ^ k -> Zpos (digits2_pos p) <= k + 1.
Proof.
  intros Hk Hp. pose proof (digits2_lower p) as Hl.
  destruct (Z_lt_le_dec k (Zpos (digits2_pos p) - 1)) as [Hlt|]; [|lia].
  exfalso.
  assert (2 ^ k < 2 ^ (Zpos (digits2_pos p) - 1)) by (apply Z.pow_lt_mono_r; lia).
  lia.
Qed.

Lemma shr_1_m r : 0 <= shr_m r -> shr_m (shr_1 r) = shr_m r / 2.
Proof.
  destruct r as [m rb sb]. cbn [shr_m]. intros Hm.
  destruct m as [|[p|p|]|p]; cbn [shr_1 shr_m]; try lia.
  - reflexivity.
  - apply Z.div_unique with (r := 1); lia.
  - apply Z.div_unique with (r := 0); lia.
  - reflexivity.
Qed.

Lemma iter_shr_1_m p : forall r, 0 <= shr_m r ->
  shr_m (SpecFloat.iter_pos shr_1 p r) = shr_m r / 2 ^ Zpos p.
Proof.
  induction p as [p IH|p IH|]; intros r Hr; cbn [SpecFloat.iter_pos].
  - assert (H1 : 0 <= shr_m (shr_1 r)) by (rewrite shr_1_m by lia; apply Z.div_pos; lia).
    assert (H2 : 0 <= shr_m (SpecFloat.iter_pos shr_1 p (shr_1 r))).
    { rewrite IH by lia. apply Z.div_pos; lia. }
    rewrite IH by lia. rewrite IH by lia. rewrite shr_1_m by lia.
    rewrite !Z.div_div by lia. f_equal.
    rewrite Pos2Z.inj_xI. rewrite <- !Z.pow_add_r by lia.
    replace (2 * Zpos p + 1) with (1 + Zpos p + Zpos p) by lia.
    rewrite !Z.pow_add_r by lia. rewrite Z.pow_1_r. lia.
  - assert (H2 : 0 <= shr_m (SpecFloat.iter_pos shr_1 p r)).
    { rewrite IH by lia. apply Z.div_pos; lia. }
    rewrite IH by lia. rewrite IH by lia.
    rewrite !Z.div_div by lia. f_equal.
    rewrite Pos2Z.inj_xO. rewrite <- !Z.pow_add_r by lia. f_equal. lia.
  - rewrite shr_1_m by lia. now rewrite Z.pow_1_r.
Qed.


Lemma shr_record_of_loc_m m l : shr_m (shr_record_of_loc m l) = m.
Proof. destruct l as [|[]]; reflexivity. Qed.

Lemma round_nearest_even_cases m l :
  round_nearest_even m l = m \/ round_nearest_even m l = m + 1.
Proof. destruct l as [|[]]; cbn; auto. destruct (Z.even m); auto. Qed.

Lemma fexp_le_of_bound m e D :
  0 <= m -> emin <= D -> e <= D -> m <= 2 ^ (D - e) ->
  fexp prec emax (Zdigits2 m + e) <= D.
Proof.
  intros Hm HD He Hb. unfold fexp. apply Z.max_lub; [|assumption].
  destruct m as [|p|p]; cbn [Zdigits2]; [unfold prec; lia| |lia].
  pose proof (digits2_le_of_bound p (D - e)). unfold prec. lia.
Qed.

Lemma shr_fexp_bound m e l D :
  0 <= m -> emin <= D -> e <= D -> m <= 2 ^ (D - e) ->
  0 <= shr_m (fst (shr_fexp prec emax m e l))
  /\ e <= snd (shr_fexp prec emax m e l) <= D
  /\ shr_m (fst (shr_fexp prec emax m e l)) <= 2 ^ (D - snd (shr_fexp prec emax m e l))
  /\ (m < 2 ^ (D - e) ->
      shr_m (fst (shr_fexp prec emax m e l)) < 2 ^ (D - snd (shr_fexp prec emax m e l))).
Proof.
  intros Hm HD He Hb. unfold shr_fexp, shr.
  pose proof (fexp_le_of_bound m e D Hm HD He Hb) as Hf.
  destruct (fexp prec emax (Zdigits2 m + e) - e) as [|p|p] eqn:Hn;
    cbn [fst snd]; rewrite ?shr_record_of_loc_m; try (repeat split; lia).
  rewrite iter_shr_1_m by (rewrite shr_record_of_loc_m; lia).
  rewrite shr_record_of_loc_m.
  assert (Hpow : 2 ^ (D - e) = 2 ^ Zpos p * 2 ^ (D - (e + Zpos p))).
  { rewrite <- Z.pow_add_r by lia. f_equal. lia. }
  assert (0 < 2 ^ Zpos p) by (apply Z.pow_pos_nonneg; lia).
  repeat split; try lia.
  - apply Z.div_pos; lia.
  - apply Z.div_le_upper_bound; lia.
  - intros Hlt. apply Z.div_lt_upper_bound; lia.
Qed.

Lemma binary_round_aux_shape sx mx ex lx :
  0 <= mx ->
  binary_round_aux prec emax sx mx ex lx = S754_zero sx
  \/ binary_round_aux prec emax sx mx ex lx = S754_infinity sx
  \/ exists m e, binary_round_aux prec emax sx mx ex lx = S754_finite sx m e.
Proof.
  intros Hm. unfold binary_round_aux.
  destruct (shr_fexp prec emax mx ex lx) as [mrs1 e1] eqn:H1.
  assert (Hm1 : 0 <= shr_m mrs1).
  { replace mrs1 with (fst (shr_fexp prec emax mx ex lx)) by now rewrite H1.
    unfold shr_fexp, shr.
    destruct (fexp prec emax (Zdigits2 mx + ex) - ex); cbn [fst];
      rewrite ?iter_shr_1_m; rewrite ?shr_record_of_loc_m; try lia.
    apply Z.div_pos; lia. }
  set (m2 := round_nearest_even (shr_m mrs1) (loc_of_shr_record mrs1)).
  assert (Hm2 : 0 <= m2).
  { subst m2. destruct (round_nearest_even_cases (shr_m mrs1) (loc_of_shr_record mrs1)) as [->| ->]; lia. }
  destruct (shr_fexp prec emax m2 e1 loc_Exact) as [mrs2 e2] eqn:H2.
  assert (Hm3 : 0 <= shr_m mrs2).
  { replace mrs2 with (fst (shr_fexp prec emax m2 e1 loc_Exact)) by now rewrite H2.
    unfold shr_fexp, shr.
    destruct (fexp prec emax (Zdigits2 m2 + e1) - e1); cbn [fst];
      rewrite ?iter_shr_1_m; rewrite ?shr_record_of_loc_m; try lia.
    apply Z.div_pos; lia. }
  destruct (shr_m mrs2) as [|p|p]; [auto| |lia].
  destruct (e2 <=? emax - prec); eauto.
Qed.

Lemma binary_round_aux_bound sx mx ex lx D :
  0 <= mx -> emin <= D <= emax - prec -> ex <= D -> mx < 2 ^ (D - ex) ->
  binary_round_aux prec emax sx mx ex lx = S754_zero sx
  \/ exists m e, binary_round_aux prec emax sx mx ex lx = S754_finite sx m e
                 /\ e <= D /\ Zpos m <= 2 ^ (D - e).
Proof.
  intros Hm HD He Hb. unfold binary_round_aux.
  pose proof (shr_fexp_bound mx ex lx D Hm (proj1 HD) He (Z.lt_le_incl _ _ Hb)) as (Hm1 & He1 & _ & Hs1).
  specialize (Hs1 Hb).
  destruct (shr_fexp prec emax mx ex lx) as [mrs1 e1]. cbn [fst snd] in *.
  set (m2 := round_nearest_even (shr_m mrs1) (loc_of_shr_record mrs1)).
  assert (Hm2 : 0 <= m2 <= 2 ^ (D - e1)).
  { subst m2. destruct (round_nearest_even_cases (shr_m mrs1) (loc_of_shr_record mrs1)) as [->| ->]; lia. }
  pose proof (shr_fexp_bound m2 e1 loc_Exact D (proj1 Hm2) (proj1 HD) (proj2 He1) (proj2 Hm2))
    as (Hm3 & He3 & Hb3 & _).
  destruct (shr_fexp prec emax m2 e1 loc_Exact) as [mrs2 e2]. cbn [fst snd] in *.
  destruct (shr_m mrs2) as [|p|p]; [auto| |lia].
  right. replace (e2 <=? emax - prec) with true by (symmetry; apply Z.leb_le; lia).
  exists p, e2. repeat split; lia.
Qed.


Lemma iter_xO_val d : forall m, Zpos (Pos.iter xO m d) = Zpos m * 2 ^ Zpos d.
Proof.
  induction d as [|d IH] using Pos.peano_ind; intros m.
  - cbn [Pos.iter]. rewrite Z.pow_1_r. lia.
  - rewrite Pos.iter_succ, Pos2Z.inj_xO, IH, Pos2Z.inj_succ, Z.pow_succ_r by lia. lia.
Qed.

Lemma shl_align_val mx ex ex' :
  ex' <= ex ->
  Zpos (fst (shl_align mx ex ex')) = Zpos mx * 2 ^ (ex - ex')
  /\ snd (shl_align mx ex ex') = ex'.
Proof.
  intros Hle. unfold shl_align.
  destruct (ex' - ex) as [|d|d] eqn:Hd; cbn [fst snd]; try lia.
  - replace (ex - ex') with 0 by lia. rewrite Z.pow_0_r. lia.
  - rewrite iter_xO_val. replace (ex - ex') with (Zpos d) by lia. lia.
Qed.

Lemma shl_align_keep mx ex ex' :
  ex <= ex' -> shl_align mx ex ex' = (mx, ex).
Proof.
  intros Hle. unfold shl_align.
  destruct (ex' - ex) as [|d|d] eqn:Hd; try reflexivity. lia.
Qed.

Lemma binary_round_shape sx mx ex :
  binary_round prec emax sx mx ex = S754_zero sx
  \/ binary_round prec emax sx mx ex = S754_infinity sx
  \/ exists m e, binary_round prec emax sx mx ex = S754_finite sx m e.
Proof.
  unfold binary_round. destruct (shl_align _ _ _) as [mz ez].
  apply binary_round_aux_shape. lia.
Qed.

Lemma binary_round_bound sx mx ex D :
  emin <= D <= emax - prec -> ex <= D -> Zpos mx < 2 ^ (D - ex) ->
  binary_round prec emax sx mx ex = S754_zero sx
  \/ exists m e, binary_round prec emax sx mx ex = S754_finite sx m e
                 /\ e <= D /\ Zpos m <= 2 ^ (D - e).
Proof.
  intros HD He Hb. unfold binary_round.
  set (ex' := fexp prec emax (Zpos (digits2_pos mx) + ex)).
  destruct (Z_le_gt_dec ex ex') as [Hle|Hgt].
  - rewrite shl_align_keep by assumption.
    apply binary_round_aux_bound; auto; lia.
  - destruct (shl_align_val mx ex ex') as [Hv He']; [lia|].
    destruct (shl_align mx ex ex') as [mz ez]. cbn [fst snd] in *. subst ez.
    apply binary_round_aux_bound; auto; try lia.
    rewrite Hv. replace (D - ex') with ((D - ex) + (ex - ex')) by lia.
    rewrite Z.pow_add_r by lia.
    apply Z.mul_lt_mono_pos_r; [apply Z.pow_pos_nonneg; lia | assumption].
Qed.

Lemma SFsub_one_nonneg d :
  SF_nonneg d -> SF_at_most_one (SF64sub SF_one d).
Proof.
  destruct d as [s|s| |s m e]; cbn [SF_nonneg]; intros Hs; try contradiction; try subst s.
  - cbn. right. split; [lia|]. vm_compute. discriminate.
  - cbn. reflexivity.
  - unfold SF64sub, SFsub, SF_one. cbn [cond_Zopp].
    set (ez := Z.min (-52) e).
    destruct (shl_align_val 4503599627370496 (-52) ez) as [HA _]; [lia|].
    destruct (shl_align_val m e ez) as [HB _]; [lia|].
    rewrite HA, HB.
    assert (HA' : 4503599627370496 * 2 ^ (-52 - ez) = 2 ^ (- ez)).
    { change 4503599627370496 with (2 ^ 52). rewrite <- Z.pow_add_r by lia. f_equal. lia. }
    rewrite HA'.
    assert (HB' : 0 < Zpos m * 2 ^ (e - ez)).
    { apply Z.mul_pos_pos; [lia | apply Z.pow_pos_nonneg; lia]. }
    set (M := 2 ^ (- ez) - Zpos m * 2 ^ (e - ez)) in *.
    assert (HM : M < 2 ^ (0 - ez)) by (rewrite Z.sub_0_l; subst M; lia).
    destruct M as [|p|p] eqn:EM; cbn [binary_normalize].
    + exact I.
    + assert (HD : emin <= 0 <= emax - prec) by (vm_compute; split; discriminate).
      assert (Hez : ez <= 0) by lia.
      destruct (binary_round_bound false p ez 0 HD Hez HM) as [->|(m' & e' & -> & He' & Hm')].
      * exact I.
      * right. split; [lia|]. now rewrite Z.sub_0_l in Hm'.
    + destruct (binary_round_shape true p ez) as [->|[->|(m' & e' & ->)]]; cbn; auto.
Qed.


Lemma SFdiv_core_nonneg m1 e1 m2 e2 :
  0 <= fst (fst (SFdiv_core_binary prec emax (Zpos m1) e1 (Zpos m2) e2)).
Proof.
  unfold SFdiv_core_binary.
  set (s := _ - _ - _).
  set (m' := match s with Z0 => Zpos m1 | Zpos _ => Z.shiftl (Zpos m1) s | Zneg _ => 0 end).
  assert (Hm' : 0 <= m').
  { subst m'. destruct s; try lia. apply Z.shiftl_nonneg. lia. }
  pose proof (Z_div_mod m' (Zpos m2) eq_refl) as Hdm.
  destruct (Z.div_eucl m' (Zpos m2)) as [q r]. cbn [fst].
  destruct Hdm as [Hq Hr]. nia.
Qed.

Lemma SFdiv_nonneg x :
  SF_nonneg x -> SF_nonneg (SF64div x SF_three_halves).
Proof.
  destruct x as [s|s| |s m e]; cbn [SF_nonneg]; intros Hs; try contradiction; try subst s.
  - cbn. exact I.
  - cbn. reflexivity.
  - unfold SF64div, SFdiv, SF_three_halves.
    pose proof (SFdiv_core_nonneg m e 6755399441055744 (-52)) as Hq.
    destruct (SFdiv_core_binary _ _ _ _ _ _) as [[mz ez] lz]. cbn [fst] in Hq.
    cbn [xorb].
    destruct (binary_round_aux_shape false mz ez lz Hq) as [->|[->|(m' & e' & ->)]];
      cbn; auto.
Qed.

Lemma round_half_up_100_bound m e :
  e <= 0 -> Zpos m <= 2 ^ (- e) -> 0 <= round_half_up 100 (Zpos m) e <= 100.
Proof.
  intros He Hm. unfold round_half_up.
  destruct (Z.leb_spec 0 e) as [H0|H0].
  - replace e with 0 in * by lia. rewrite Z.pow_0_r in *. lia.
  - assert (HP : 0 < 2 ^ (- e)) by (apply Z.pow_pos_nonneg; lia).
    assert (HQ : 2 ^ (1 - e) = 2 * 2 ^ (- e)).
    { replace (1 - e) with (1 + - e) by lia. rewrite Z.pow_add_r by lia. now rewrite Z.pow_1_r. }
    rewrite HQ. split.
    + apply Z.div_pos; lia.
    + apply Z.lt_succ_r. apply Z.div_lt_upper_bound; lia.
Qed.

(** *** From the processor's operations to their specification *)

#[local] Open Scope float_scope.

Lemma Prim2SF_one : Prim2SF 1 = SF_one.
Proof. vm_compute. reflexivity. Qed.

Lemma Prim2SF_three_halves : Prim2SF 1.5 = SF_three_halves.
Proof. vm_compute. reflexivity. Qed.

Lemma SFcompare_refl x : x <> S754_nan -> SFcompare x x = Some Eq.
Proof.
  destruct x as [s|s| |s m e]; intros Hx; try congruence; cbn.
  - reflexivity.
  - destruct s; reflexivity.
  - rewrite Z.compare_refl, Pos.compare_cont_refl. destruct s; reflexivity.
Qed.

Lemma is_nan_spec x : is_nan x = match Prim2SF x with S754_nan => true | _ => false end.
Proof.
  unfold is_nan. rewrite FloatAxioms.eqb_spec. unfold SFeqb.
  destruct (Prim2SF x) eqn:E; try (rewrite SFcompare_refl by discriminate; reflexivity).
  reflexivity.
Qed.

Lemma is_finite_spec x :
  is_finite x = match Prim2SF x with S754_nan | S754_infinity _ => false | _ => true end.
Proof.
  unfold is_finite, is_infinity. rewrite is_nan_spec, FloatAxioms.eqb_spec, abs_spec.
  destruct (Prim2SF x) as [s|s| |s m e]; try reflexivity.
Qed.

Lemma nonneg_finite_spec sd :
  Number_isFinite sd = true -> (0 <=? sd) = true ->
  SF_nonneg (Prim2SF sd) /\ Prim2SF sd <> S754_infinity false.
Proof.
  unfold Number_isFinite. rewrite is_finite_spec, leb_spec.
  destruct (Prim2SF sd) as [s|s| |s m e]; try discriminate; cbn [SF_nonneg].
  - intros _ _. split; [exact I | discriminate].
  - intros _. destruct s; [discriminate | intros _; split; [reflexivity | discriminate]].
Qed.

Lemma Math_max_zero_spec y :
  SF_at_most_one (Prim2SF y) ->
  Math_max 0 y = 0
  \/ (Math_max 0 y = y /\ exists m e, Prim2SF y = S754_finite false m e
                                      /\ (e <= 0)%Z /\ (Zpos m <= 2 ^ (- e))%Z).
Proof.
  intros Hy. unfold Math_max.
  rewrite (is_nan_spec y), !ltb_spec.
  replace (is_nan 0) with false by reflexivity.
  replace (Prim2SF 0) with (S754_zero false) by reflexivity.
  replace (get_sign 0) with false by reflexivity.
  destruct (Prim2SF y) as [s|s| |s m e] eqn:E; cbn [SF_at_most_one] in Hy; try contradiction.
  - left. reflexivity.
  - subst s. left. reflexivity.
  - destruct s.
    + left. reflexivity.
    + destruct Hy as [Hy|Hy]; [discriminate|].
      right. split; [reflexivity|]. exists m, e. tauto.
Qed.

Lemma toFixed2_unit_range y m e :
  Prim2SF y = S754_finite false m e -> (e <= 0)%Z -> (Zpos m <= 2 ^ (- e))%Z ->
  exists n, (0 <= n <= 100)%Z /\ toFixed2 y = FixedDigits false n.
Proof.
  intros E He Hm. unfold toFixed2. rewrite leb_spec, abs_spec, E.
  replace (Prim2SF 1e21) with (S754_finite false 7629394531250000 17) by reflexivity.
  cbn [SFabs]. unfold SFleb, SFcompare.
  replace (17 ?= e)%Z with Gt by (symmetry; apply Z.compare_gt_iff; lia).
  exists (round_half_up 100 (Zpos m) e). split; [|reflexivity].
  now apply round_half_up_100_bound.
Qed.

(** [normalized.toFixed(2)] for a finite, non-negative standard deviation
    spells one of 0.00, 0.01, ..., 1.00. *)
Lemma normalized_toFixed2 sd :
  Number_isFinite sd = true -> (0 <=? sd) = true ->
  exists n, (0 <= n <= 100)%Z
            /\ toFixed2 (Math_max 0 (1 - sd / 1.5)) = FixedDigits false n.
Proof.
  intros Hfin Hpos.
  destruct (nonneg_finite_spec sd Hfin Hpos) as [Hnn _].
  pose proof (SFdiv_nonneg _ Hnn) as Hd.
  rewrite <- Prim2SF_three_halves, <- div_spec in Hd.
  pose proof (SFsub_one_nonneg _ Hd) as Hy.
  rewrite <- Prim2SF_one, <- sub_spec in Hy.
  destruct (Math_max_zero_spec _ Hy) as [-> | [-> (m & e & E & He & Hm)]].
  - exists 0%Z. split; [lia | reflexivity].
  - exact (toFixed2_unit_range _ m e E He Hm).
Qed.

End Rounding.

(** ** The scoring rubric *)

Section ScoringFacts.
#[local] Open Scope string_scope.
#[local] Open Scope float_scope.

Lemma SFcompare_antisym x y :
  SFcompare y x = option_map CompOpp (SFcompare x y).
Proof.
  destruct x as [sx|sx| |sx mx ex], y as [sy|sy| |sy my ey]; cbn;
    try reflexivity; try (destruct sx; reflexivity); try (destruct sy; reflexivity);
    try (destruct sx, sy; reflexivity).
  destruct sx, sy; try reflexivity;
    rewrite (Z.compare_antisym ex ey); destruct (ex ?= ey)%Z; cbn; try reflexivity;
    rewrite (Pos.compare_cont_antisym _ _ Eq); cbn;
    destruct (Pos.compare_cont Eq mx my); reflexivity.
Qed.

Lemma ltb_leb_false x y : (x <? y) = true -> (y <=? x) = false.
Proof.
  rewrite ltb_spec, leb_spec. unfold SFltb, SFleb.
  rewrite (SFcompare_antisym (Prim2SF x) (Prim2SF y)).
  destruct (SFcompare (Prim2SF x) (Prim2SF y)) as [[]|]; cbn; congruence.
Qed.

Lemma leb_ltb_false x y : (x <=? y) = true -> (y <? x) = false.
Proof.
  rewrite ltb_spec, leb_spec. unfold SFltb, SFleb.
  rewrite (SFcompare_antisym (Prim2SF x) (Prim2SF y)).
  destruct (SFcompare (Prim2SF x) (Prim2SF y)) as [[]|]; cbn; congruence.
Qed.

Lemma in_hundredths n : (0 <= n <= 100)%Z <-> In n hundredths.
Proof.
  unfold hundredths. rewrite in_map_iff. split.
  - intros H. exists (Z.to_nat n). split; [lia|]. apply in_seq. lia.
  - intros (k & <- & Hk). apply in_seq in Hk. lia.
Qed.

Lemma unitScore_range n :
  (0 <= n <= 100)%Z -> (0 <=? unitScore n) = true /\ (unitScore n <=? 1) = true.
Proof.
  intros Hn. apply in_hundredths in Hn.
  assert (H : forallb (fun n => (0 <=? unitScore n) && (unitScore n <=? 1)) hundredths = true)
    by (vm_compute; reflexivity).
  rewrite forallb_forall in H. specialize (H n Hn).
  now apply andb_true_iff in H.
Qed.

Lemma overallOf_range n q :
  (0 <= n <= 100)%Z -> In q qualities ->
  exists k, (0 <= k <= 100)%Z /\ overallOf (Some (unitScore n)) (Some q) = of_Z k.
Proof.
  intros Hn Hq. apply in_hundredths in Hn.
  assert (H : (let integers := map of_Z hundredths in
               forallb (fun n => forallb (fun q =>
                 existsb (PrimFloat.Leibniz.eqb (overallOf (Some (unitScore n)) (Some q)))
                         integers) qualities) hundredths) = true)
    by (vm_compute; reflexivity).
  cbv zeta in H.
  rewrite forallb_forall in H. specialize (H n Hn).
  rewrite forallb_forall in H. specialize (H q Hq).
  apply existsb_exists in H. destruct H as (x & Hx & E).
  apply in_map_iff in Hx as (k & <- & Hk).
  exists k. split; [now apply in_hundredths|]. now apply FloatAxioms.Leibniz.eqb_spec.
Qed.


(** *** Reading a well-typed input *)

Lemma hasNotes_optional_string v :
  optional_string v = true ->
  hasNotes v = Return (match v with
                       | VString s => negb (Nat.eqb (String.length (trim s)) 0)
                       | _ => false
                       end).
Proof.
  destruct v; try discriminate; intros _; unfold hasNotes; cbn [truthy]; try reflexivity.
  destruct (String.eqb_spec s "") as [->|_]; reflexivity.
Qed.

Lemma typed_is_object base :
  isBaseChiveMetrics base = true -> exists props, base = VObject props.
Proof. destruct base; try discriminate. eauto. Qed.

Lemma typed_rawNotes base :
  isBaseChiveMetrics base = true -> optional_string (prop base "rawNotes") = true.
Proof.
  destruct base; try discriminate. unfold isBaseChiveMetrics.
  rewrite !andb_true_iff. tauto.
Qed.

Lemma typed_label base :
  isBaseChiveMetrics base = true -> exists l, prop base "cutQualityLabel" = VString l.
Proof.
  destruct base; try discriminate. unfold isBaseChiveMetrics.
  rewrite !andb_true_iff. intros [[[[_ _] H] _] _].
  destruct (prop _ "cutQualityLabel"); try discriminate. eauto.
Qed.

(** The three guards, on any input whose [rawNotes] is a string or missing. *)
Lemma score_guards avg sd label rawNotes regions :
  optional_string rawNotes = true ->
  (length (regionsWithChives regions) <= 1)%nat
  \/ (exists a, avg = VNumber a /\ outsidePlausible a) ->
  exists r, score avg sd label rawNotes regions = Return r /\ allScoresNull r.
Proof.
  intros Hnotes H. unfold score.
  destruct (length (regionsWithChives regions)) as [|[|n]] eqn:Hlen; cbn [Nat.eqb].
  - rewrite (hasNotes_optional_string _ Hnotes). cbn [bind].
    eexists; split; [reflexivity|]. repeat split.
  - eexists; split; [reflexivity|]. repeat split.
  - destruct H as [H|(a & -> & Ha)]; [lia|].
    replace ((a <=? 0) || (5 <? a)) with true
      by (destruct Ha as [-> | ->]; [reflexivity | now rewrite orb_true_r]).
    eexists; split; [reflexivity|]. repeat split.
Qed.


(** An active region as the code counts it is a region whose label is not
    [no_chives]. *)
Lemma hasChives_label r :
  hasChives r = true ->
  exists s, prop r "regionCutQualityLabel" = VString s /\ s <> "no_chives".
Proof.
  unfold hasChives. rewrite !andb_true_iff, negb_true_iff.
  intros [[_ Ht] Hn].
  destruct (prop r "regionCutQualityLabel") as [| | | |s| |]; try discriminate.
  exists s. split; [reflexivity|]. cbn in Hn. now apply String.eqb_neq.
Qed.

Lemma hasChives_of_label props s :
  lookup_prop "regionCutQualityLabel" props = VString s -> s <> "no_chives" ->
  hasChives (VObject props) = true.
Proof.
  intros Hl Hs. unfold hasChives. cbn [truthy prop andb]. rewrite Hl. cbn.
  apply negb_true_iff. now apply String.eqb_neq.
Qed.

(** The code counts no more active regions than the labels alone would. *)
Lemma regionsWithChives_le_activeByLabel regions :
  (length (regionsWithChives regions) <= length (activeByLabel regions))%nat.
Proof.
  unfold regionsWithChives, activeByLabel.
  induction (regionList regions) as [|r l IH]; cbn [List.filter]; [reflexivity|].
  destruct (hasChives r) eqn:Hr.
  - destruct (hasChives_label r Hr) as (s & Hs & Hne).
    unfold labelledOtherThan at 1. rewrite Hs. cbn [strict_eq_string].
    apply String.eqb_neq in Hne. rewrite Hne. cbn [negb]. simpl length. lia.
  - destruct (labelledOtherThan "no_chives" r); simpl length; lia.
Qed.

(** On regions that all carry a label, the two counts are the same. *)
Lemma regionsWithChives_labelled regions :
  (forall r, In r (regionList regions) ->
             exists props s, r = VObject props /\ prop r "regionCutQualityLabel" = VString s) ->
  regionsWithChives regions = activeByLabel regions.
Proof.
  unfold regionsWithChives, activeByLabel.
  induction (regionList regions) as [|r l IH]; intros Hl; [reflexivity|].
  cbn [List.filter]. rewrite IH by (intros r' Hr'; apply Hl; now right).
  destruct (Hl r (or_introl eq_refl)) as (props & s & -> & Hs).
  unfold hasChives, labelledOtherThan. rewrite Hs. reflexivity.
Qed.

(** C1. Guards A, B and C: with no or one active region (counted as the
    code counts them, or by the labels alone), or with an average thickness
    that is a number at most 0 or above 5, every score is null. *)
Theorem guards_return_null base :
  isBaseChiveMetrics base = true ->
  (length (regionsWithChives (prop base "regions")) <= 1)%nat
  \/ (length (activeByLabel (prop base "regions")) <= 1)%nat
  \/ (exists a, prop base "averageThicknessMm" = VNumber a /\ outsidePlausible a) ->
  exists r, scoreChiveAnalysis base = Return r /\ allScoresNull r.
Proof.
  intros Ht H. pose proof (typed_rawNotes base Ht) as Hn.
  destruct (typed_is_object base Ht) as [props ->].
  unfold scoreChiveAnalysis. apply score_guards; [assumption|].
  destruct H as [H|[H|H]]; [now left | left | now right].
  pose proof (regionsWithChives_le_activeByLabel (prop (VObject props) "regions")). lia.
Qed.

(** A NaN average compares with nothing: it is neither at most 0 nor above
    5, and the third guard lets it pass. *)
Remark nan_average_is_scored :
  ~ outsidePlausible nan
  /\ exists r, scoreChiveAnalysis (sampleBase nan 0.75 (sampleRegions "clean" "mixed")) = Return r
               /\ overallScore r = Some 70.
Proof.
  split; [intros [H|H]; discriminate|]. eexists. split; reflexivity.
Qed.

(** What the code computes once the guards are passed. *)
Lemma score_passed avg sd label rawNotes regions :
  optional_string rawNotes = true ->
  (2 <= length (regionsWithChives regions))%nat ->
  plausibleAverage avg ->
  score avg sd label rawNotes regions =
  Return
    {| thicknessConsistencyScore := consistencyOf sd;
       cutQualityScore := qualityOf label;
       overallScore := Some (overallOf (consistencyOf sd) (qualityOf label));
       notes := scoredNote rawNotes |}.
Proof.
  intros Hnotes Hlen Havg. unfold score.
  destruct (length (regionsWithChives regions)) as [|[|n]] eqn:E; try lia. cbn [Nat.eqb].
  replace (match avg with VNumber a => (a <=? 0) || (5 <? a) | _ => false end) with false.
  2:{ destruct Havg as [-> | (a & -> & Hlo & Hhi)]; [reflexivity|].
      now rewrite (ltb_leb_false _ _ Hlo), (leb_ltb_false _ _ Hhi). }
  rewrite (hasNotes_optional_string _ Hnotes). cbn [bind].
  destruct rawNotes; try discriminate; try reflexivity.
  cbn [scoredNote text]. now destruct (String.length (trim s) =? 0)%nat.
Qed.

Lemma qualityOf_string label :
  exists q, qualityOf (VString label) = Some q /\ In q qualities.
Proof.
  unfold qualityOf, qualities.
  destruct (String.eqb _ "clean"); [eexists; split; [reflexivity|now left]|].
  destruct (String.eqb _ "mixed"); [eexists; split; [reflexivity|now (right; left)]|].
  destruct (String.eqb _ "ragged"); [eexists; split; [reflexivity|now (right; right; left)]|].
  eexists; split; [reflexivity|now (right; right; right; left)].
Qed.

(** C2. Past the guards, with a finite non-negative standard deviation and
    a string label: the consistency score is in [0, 1], the quality score
    is one of 1.0, 0.7, 0.35 and 0.5, and the overall score is an integer
    between 0 and 100. *)
Theorem scores_in_range base sd :
  isBaseChiveMetrics base = true ->
  (2 <= length (regionsWithChives (prop base "regions")))%nat ->
  plausibleAverage (prop base "averageThicknessMm") ->
  prop base "thicknessStdDevMm" = VNumber sd ->
  Number_isFinite sd = true -> (0 <=? sd) = true ->
  exists r c q k,
    scoreChiveAnalysis base = Return r
    /\ thicknessConsistencyScore r = Some c /\ (0 <=? c) = true /\ (c <=? 1) = true
    /\ cutQualityScore r = Some q /\ (q = 1.0 \/ q = 0.7 \/ q = 0.35 \/ q = 0.5)
    /\ overallScore r = Some (of_Z k) /\ (0 <= k <= 100)%Z.
Proof.
  intros Ht Hlen Havg Hsd Hfin Hpos.
  pose proof (typed_rawNotes base Ht) as Hn.
  destruct (typed_label base Ht) as [label Hl].
  destruct (typed_is_object base Ht) as [props ->].
  unfold scoreChiveAnalysis.
  rewrite (score_passed _ _ _ _ _ Hn Hlen Havg), Hsd, Hl.
  unfold consistencyOf. rewrite Hfin.
  destruct (normalized_toFixed2 sd Hfin Hpos) as (n & Hn100 & ->).
  fold (unitScore n).
  destruct (unitScore_range n Hn100) as [Hlo Hhi].
  destruct (qualityOf_string label) as (q & -> & Hq).
  destruct (overallOf_range n q Hn100 Hq) as (k & Hk & Ek).
  eexists _, (unitScore n), q, k. cbn [thicknessConsistencyScore cutQualityScore overallScore].
  rewrite Ek. repeat split; try assumption; try lia.
  unfold qualities in Hq. cbn in Hq. intuition.
Qed.

(** C3. The three worked examples. *)
Theorem score_examples base :
  isBaseChiveMetrics base = true ->
  (2 <= length (regionsWithChives (prop base "regions")))%nat ->
  plausibleAverage (prop base "averageThicknessMm") ->
  exists r,
    scoreChiveAnalysis base = Return r
    /\ (prop base "thicknessStdDevMm" = VNumber 0 ->
        thicknessConsistencyScore r = Some 1.0)
    /\ (prop base "thicknessStdDevMm" = VNumber 1.5 ->
        thicknessConsistencyScore r = Some 0)
    /\ (prop base "thicknessStdDevMm" = VNumber 0.75 ->
        prop base "cutQualityLabel" = VString "clean" ->
        thicknessConsistencyScore r = Some 0.5
        /\ cutQualityScore r = Some 1.0
        /\ overallScore r = Some 70).
Proof.
  intros Ht Hlen Havg.
  pose proof (typed_rawNotes base Ht) as Hn.
  destruct (typed_is_object base Ht) as [props ->].
  unfold scoreChiveAnalysis.
  rewrite (score_passed _ _ _ _ _ Hn Hlen Havg).
  eexists. split; [reflexivity|].
  cbn [thicknessConsistencyScore cutQualityScore overallScore].
  split; [|split].
  - intros ->. reflexivity.
  - intros ->. reflexivity.
  - intros -> ->. repeat split; reflexivity.
Qed.


Lemma guards_return_null_witness :
  exists r, scoreChiveAnalysis (sampleBase 2 0.75 (sampleRegions "clean" "no_chives")) = Return r
            /\ allScoresNull r.
Proof.
  apply (guards_return_null (sampleBase 2 0.75 (sampleRegions "clean" "no_chives")));
    [reflexivity | right; left; cbn; lia].
Defined.

Lemma scores_in_range_witness :
  exists r c q k,
    scoreChiveAnalysis (sampleBase 2 0.75 (sampleRegions "clean" "mixed")) = Return r
    /\ thicknessConsistencyScore r = Some c /\ (0 <=? c) = true /\ (c <=? 1) = true
    /\ cutQualityScore r = Some q /\ (q = 1.0 \/ q = 0.7 \/ q = 0.35 \/ q = 0.5)
    /\ overallScore r = Some (of_Z k) /\ (0 <= k <= 100)%Z.
Proof.
  apply (scores_in_range (sampleBase 2 0.75 (sampleRegions "clean" "mixed")) 0.75);
    [ reflexivity
    | cbn; lia
    | right; exists 2; repeat split; reflexivity
    | reflexivity | reflexivity | reflexivity ].
Defined.

Lemma score_examples_witness :
  exists r,
    scoreChiveAnalysis (sampleBase 2 0.75 (sampleRegions "clean" "mixed")) = Return r
    /\ thicknessConsistencyScore r = Some 0.5
    /\ cutQualityScore r = Some 1.0
    /\ overallScore r = Some 70.
Proof.
  destruct (score_examples (sampleBase 2 0.75 (sampleRegions "clean" "mixed")))
    as (r & Hr & _ & _ & H);
    [ reflexivity | cbn; lia | right; exists 2; repeat split; reflexivity | ].
  exists r. split; [exact Hr | exact (H eq_refl eq_refl)].
Defined.

Lemma scoreChiveAnalysis_destructured base :
  destructurable base ->
  scoreChiveAnalysis base =
  score (prop base "averageThicknessMm") (prop base "thicknessStdDevMm")
        (prop base "cutQualityLabel") (prop base "rawNotes") (prop base "regions").
Proof. intros [Hu Hn]. destruct base; try reflexivity; congruence. Qed.

(** C4. The score is a function of its input and of nothing else: two calls
    on the same input end the same way, and when they return, with the same
    four fields; and the outcome is settled by the five properties read, so
    that any other input carrying the same five gives the same outcome. *)
Theorem score_deterministic base :
  (forall o1 o2,
     scoreChiveAnalysis base = o1 -> scoreChiveAnalysis base = o2 ->
     o1 = o2
     /\ forall r1 r2, o1 = Return r1 -> o2 = Return r2 ->
          thicknessConsistencyScore r1 = thicknessConsistencyScore r2
          /\ cutQualityScore r1 = cutQualityScore r2
          /\ overallScore r1 = overallScore r2
          /\ notes r1 = notes r2)
  /\ (forall other,
        destructurable base -> destructurable other -> agreeOnFieldsRead base other ->
        scoreChiveAnalysis other = scoreChiveAnalysis base).
Proof.
  split.
  - intros o1 o2 <- <-. split; [reflexivity|].
    intros r1 r2 -> [= ->]. repeat split.
  - intros other Hb Ho Hagree.
    rewrite (scoreChiveAnalysis_destructured base Hb),
            (scoreChiveAnalysis_destructured other Ho).
    unfold agreeOnFieldsRead, fieldsRead in Hagree.
    repeat (apply Forall_cons in Hagree; destruct Hagree as [-> Hagree]).
    reflexivity.
Qed.

Lemma score_deterministic_witness :
  scoreChiveAnalysis (sampleBase 2 0.75 (sampleRegions "clean" "mixed"))
  = scoreChiveAnalysis (sampleBase 2 0.75 (sampleRegions "clean" "mixed")).
Proof.
  exact (proj1 (proj1 (score_deterministic
                  (sampleBase 2 0.75 (sampleRegions "clean" "mixed"))) _ _ eq_refl eq_refl)).
Defined.

(** *** Malformed input *)

Lemma regionsWithChives_nil regions :
  Array_isArray regions = false \/ noLabelledChives regions ->
  regionsWithChives regions = [].
Proof.
  unfold regionsWithChives, regionList.
  intros [Hna | Hno]; [now rewrite Hna|].
  destruct (Array_isArray regions); [|reflexivity].
  unfold noLabelledChives in Hno.
  induction (elements regions) as [|r l IH]; [reflexivity|].
  cbn [List.filter].
  destruct (hasChives r) eqn:Hr.
  - destruct (hasChives_label r Hr) as (s & Hs & Hne).
    exfalso. apply Hne. apply (Hno r s); [now left | assumption].
  - apply IH. intros r' s' Hin. apply Hno. now right.
Qed.

Lemma hasNotes_falsy v : truthy v = false -> hasNotes v = Return false.
Proof. intros H. unfold hasNotes. now rewrite H. Qed.

(** C10, as amended. Any input other than [undefined] and [null] whose
    [rawNotes] is falsy or a string is scored without an exception; when
    [regions] is not an array, or none of its elements has a string label
    other than [no_chives], the first guard answers: all scores are null and
    the note says that no regions with chives were detected, after [rawNotes]
    when [rawNotes] has a character that is not white space. *)
Theorem malformed_takes_first_guard base :
  base <> VUndefined -> base <> VNull ->
  truthy (prop base "rawNotes") = false \/ (exists s, prop base "rawNotes" = VString s) ->
  Array_isArray (prop base "regions") = false \/ noLabelledChives (prop base "regions") ->
  scoreChiveAnalysis base = Return (allNull (noChivesNote (prop base "rawNotes")))
  /\ allScoresNull (allNull (noChivesNote (prop base "rawNotes"))).
Proof.
  intros Hu Hn Hnotes Hregions. split; [|repeat split].
  rewrite (scoreChiveAnalysis_destructured base (conj Hu Hn)). unfold score. rewrite (regionsWithChives_nil _ Hregions). cbn [length Nat.eqb].
  destruct Hnotes as [Hf | [s Hs]].
  - rewrite (hasNotes_falsy _ Hf). cbn [bind].
    destruct (prop base "rawNotes") as [| | | |s| |]; try reflexivity.
    cbn in Hf. apply negb_false_iff in Hf. apply String.eqb_eq in Hf. subst s. reflexivity.
  - rewrite Hs. rewrite hasNotes_optional_string by reflexivity. cbn [bind noChivesNote text].
    now destruct (String.length (trim s) =? 0)%nat.
Qed.

Lemma malformed_takes_first_guard_witness :
  scoreChiveAnalysis (VObject [("rawNotes", VString "blurry"); ("regions", VArray [VNull])])
  = Return (allNull "blurry (No regions with chives detected; score not computed.)").
Proof.
  apply (malformed_takes_first_guard
           (VObject [("rawNotes", VString "blurry"); ("regions", VArray [VNull])]));
    [ discriminate | discriminate | right; exists "blurry"; reflexivity | ].
  right. intros r s [<- | []]. discriminate.
Defined.

(** C10 as stated fails: a number for [rawNotes] makes the call throw, and a
    blank [rawNotes] is not put in front of the note. *)
Lemma totalOnMalformed_fails :
  ~ totalOnMalformed (VObject [("rawNotes", VNumber 5)])
  /\ ~ totalOnMalformed (VObject [("rawNotes", VString " ")]).
Proof.
  split; intros H.
  - destruct H as (r & Hr & _); [left; reflexivity|]. discriminate.
  - destruct H as (r & Hr & _ & Hnote); [left; reflexivity|].
    injection Hr as <-. discriminate.
Qed.

End ScoringFacts.

(** ** The parse step *)

Section ParseStep.
#[local] Open Scope string_scope.
#[local] Arguments String.append !s1 s2.

Lemma append_assoc (a b c : string) : (a +:+ b) +:+ c = a +:+ (b +:+ c).
Proof. induction a as [|x a IH]; cbn; [reflexivity | now rewrite IH]. Qed.

Lemma append_nil_r (a : string) : a +:+ "" = a.
Proof. induction a as [|x a IH]; cbn; [reflexivity | now rewrite IH]. Qed.

Lemma occurs_append c a b : occurs c (a +:+ b) = occurs c a || occurs c b.
Proof.
  induction a as [|x a IH]; cbn; [reflexivity|]. now rewrite IH, orb_assoc.
Qed.

(** The star gives back only what it must: nothing is matched exactly when
    no closing brace occurs. *)
Lemma greedyToClose_none s : greedyToClose s = None <-> occurs "}" s = false.
Proof.
  induction s as [|c s IH]; cbn [greedyToClose occurs]; [tauto|].
  destruct (greedyToClose s) as [m|].
  - split; [discriminate|]. intros H. apply orb_false_iff in H as [_ H].
    apply IH in H. discriminate.
  - rewrite (proj1 IH eq_refl), orb_false_r. rewrite (Ascii.eqb_sym "}" c).
    destruct (Ascii.eqb c "}"); split; congruence.
Qed.

Lemma greedyToClose_some s m :
  greedyToClose s = Some m <->
  exists inner after, m = inner +:+ "}" /\ s = m +:+ after /\ occurs "}" after = false.
Proof.
  revert m. induction s as [|c s IH]; intros m; cbn [greedyToClose matchObject occurs].
  - split; [discriminate|]. intros (inner & after & -> & E & _).
    destruct inner; discriminate.
  - destruct (greedyToClose s) as [m'|] eqn:G.
    + split.
      * intros [= <-]. destruct (proj1 (IH m') eq_refl) as (inner & after & -> & -> & Hno).
        exists (String c inner), after. repeat split; assumption.
      * intros (inner & after & -> & E & Hno).
        destruct inner as [|x inner]; cbn [String.append] in E; injection E as <- E.
        -- subst s. apply greedyToClose_none in Hno. congruence.
        -- assert (H : Some m' = Some (inner +:+ "}")) by (apply IH; eauto).
           injection H as ->. reflexivity.
    + apply greedyToClose_none in G.
      assert (Hlong : forall inner after,
                 s = (inner +:+ "}") +:+ after -> occurs "}" s = false -> False).
      { intros inner after -> H. rewrite !occurs_append in H. cbn [occurs] in H.
        rewrite Ascii.eqb_refl in H. cbn in H. rewrite orb_true_r in H. discriminate. }
      destruct (Ascii.eqb_spec c "}") as [->|Hc].
      * split.
        -- intros [= <-]. exists "", s. repeat split; assumption.
        -- intros (inner & after & -> & E & Hno).
           destruct inner as [|x inner]; cbn [String.append] in E; [reflexivity|].
           inversion E; subst. exfalso. eapply Hlong; eauto.
      * split; [discriminate|].
        intros (inner & after & -> & E & Hno).
        destruct inner as [|x inner]; cbn [String.append] in E; inversion E; subst.
        -- congruence.
        -- exfalso. eapply Hlong; eauto.
Qed.

Lemma matchObject_none_of_no_close s : occurs "}" s = false -> matchObject s = None.
Proof.
  induction s as [|c s IH]; cbn [matchObject occurs]; [reflexivity|].
  intros H. apply orb_false_iff in H as [_ H].
  rewrite (proj2 (greedyToClose_none s) H), (IH H). now destruct (Ascii.eqb c "{").
Qed.

(** What the expression matches: from the first opening brace to the last
    closing brace. *)
Lemma matchObject_some s m :
  matchObject s = Some m <->
  exists before after,
    s = before +:+ m +:+ after /\ braced m
    /\ occurs "{" before = false /\ occurs "}" after = false.
Proof.
  revert m. induction s as [|c s IH]; intros m; cbn [greedyToClose matchObject occurs].
  - split; [discriminate|]. intros (before & after & E & (inner & ->) & _).
    destruct before; discriminate.
  - destruct (Ascii.eqb_spec c "{") as [->|Hc].
    + destruct (greedyToClose s) as [m'|] eqn:G.
      * split.
        -- intros [= <-]. apply greedyToClose_some in G as (inner & after & -> & -> & Hno).
           exists "", after. repeat split; try assumption. now exists inner.
        -- intros (before & after & E & (inner & ->) & Hb & Ha).
           destruct before as [|x before]; cbn [String.append occurs] in E, Hb.
           ++ injection E as E.
              assert (H : greedyToClose s = Some (inner +:+ "}"))
                by (apply greedyToClose_some; eauto).
              rewrite G in H. injection H as ->. reflexivity.
           ++ injection E as <- E. cbn [occurs] in Hb. rewrite Ascii.eqb_refl in Hb. discriminate.
      * split.
        -- intros H. apply greedyToClose_none in G.
           rewrite (matchObject_none_of_no_close s G) in H. discriminate.
        -- intros (before & after & E & (inner & ->) & Hb & Ha).
           apply greedyToClose_none in G.
           destruct before as [|x before]; cbn [String.append occurs] in E, Hb.
           ++ injection E as E. subst s. rewrite !occurs_append in G. cbn [occurs] in G.
              rewrite orb_true_r in G. cbn [occurs] in G. discriminate.
           ++ injection E as <- E. cbn [occurs] in Hb. rewrite Ascii.eqb_refl in Hb. discriminate.
    + rewrite IH. split.
      * intros (before & after & -> & Hm & Hb & Ha).
        exists (String c before), after. repeat split; try assumption.
        cbn [occurs]. rewrite Hb, orb_false_r. apply Ascii.eqb_neq. congruence.
      * intros (before & after & E & Hm & Hb & Ha).
        destruct before as [|x before]; cbn [String.append occurs] in E, Hb.
        -- destruct Hm as (inner & ->). cbn in E. congruence.
        -- injection E as <- E. apply orb_false_iff in Hb as [_ Hb].
           exists before, after. repeat split; assumption.
Qed.


(** C6, as amended. The parse step takes the text from the first opening
    brace to the last closing brace and parses that: it yields [v] exactly
    when the response is some text without an opening brace, then a span
    from a brace to a brace that is the JSON text of [v], then some text
    without a closing brace; in every other case the job fails. *)
Theorem parse_step_spans_braces text :
  (forall v,
     parseContent (VString text) = Return v <->
     exists before m after,
       text = before +:+ m +:+ after /\ braced m
       /\ occurs "{" before = false /\ occurs "}" after = false
       /\ JSON_parse m = Return v)
  /\ ((exists err, parseContent (VString text) = Throw err) <->
      ~ exists before m after v,
          text = before +:+ m +:+ after /\ braced m
          /\ occurs "{" before = false /\ occurs "}" after = false
          /\ JSON_parse m = Return v).
Proof.
  assert (H : forall v,
     parseContent (VString text) = Return v <->
     exists before m after,
       text = before +:+ m +:+ after /\ braced m
       /\ occurs "{" before = false /\ occurs "}" after = false
       /\ JSON_parse m = Return v).
  { intros v. unfold parseContent. cbn [truthy]. split.
    - destruct (negb (negb (String.eqb text ""))); [discriminate|].
      destruct (matchObject text) as [m|] eqn:Hm; [|discriminate].
      intros Hv. apply matchObject_some in Hm as (before & after & E & Hb & Ho & Hc).
      exists before, m, after. auto.
    - intros (before & m & after & E & Hb & Ho & Hc & Hv).
      assert (Hm : matchObject text = Some m)
        by (apply matchObject_some; exists before, after; auto).
      destruct (String.eqb_spec text "") as [Hempty|_].
      + rewrite Hempty in Hm. discriminate.
      + cbn [negb]. now rewrite Hm. }
  split; [exact H|]. split.
  - intros [err Herr] (before & m & after & v & Hv).
    assert (Hr : parseContent (VString text) = Return v)
      by (apply H; exists before, m, after; exact Hv).
    congruence.
  - intros Hno. destruct (parseContent (VString text)) as [v|err] eqn:E; [|eauto].
    exfalso. apply Hno. destruct (proj1 (H v) eq_refl) as (before & m & after & Hv).
    exists before, m, after, v. exact Hv.
Qed.

(** C6 as stated fails: two objects in one response make the job fail,
    though each of them is a well-formed JSON object. *)
Lemma failsIffNoObject_fails :
  ~ failsIffNoObject twoObjects.
Proof.
  intros [H _].
  apply H.
  - eexists. vm_compute. reflexivity.
  - exists "", (oneObject "1"), (" and " +:+ oneObject "2"). split; [reflexivity|].
    eexists. vm_compute. reflexivity.
Qed.

End ParseStep.

(** ** Values read back from their JSON text *)

Section JsonFacts.
#[local] Open Scope string_scope.

Lemma names_define_prop k v props :
  names (define_prop k v props) = if decide (k ∈ names props) then names props
                                  else (names props ++ [k])%list.
Proof.
  unfold names. induction props as [|[k' v'] props IH]; cbn [define_prop map fst].
  - rewrite decide_False by apply not_elem_of_nil. reflexivity.
  - destruct (String.eqb_spec k k') as [<-|Hne].
    + rewrite decide_True by (apply elem_of_cons; auto). reflexivity.
    + cbn [map fst]. rewrite IH. destruct (decide (k ∈ map fst props)) as [Hin|Hnin].
      * rewrite decide_True by (apply elem_of_cons; auto). reflexivity.
      * rewrite decide_False; [reflexivity|]. rewrite elem_of_cons. tauto.
Qed.

(** Defining a property never repeats a name. *)
Lemma define_prop_NoDup k v props : NoDup (names props) -> NoDup (names (define_prop k v props)).
Proof.
  intros H. rewrite names_define_prop. destruct (decide (k ∈ names props)); [assumption|].
  apply NoDup_app. split; [assumption|]. split.
  - intros x Hx Hk. apply list_elem_of_singleton in Hk. now subst.
  - apply NoDup_singleton.
Qed.

Lemma lookup_define_prop k v props k' :
  lookup_prop k' (define_prop k v props) = if String.eqb k' k then v else lookup_prop k' props.
Proof.
  induction props as [|[k0 v0] props IH]; cbn [define_prop lookup_prop].
  - reflexivity.
  - destruct (String.eqb_spec k k0) as [<-|Hne]; cbn [lookup_prop].
    + now destruct (String.eqb k' k).
    + rewrite IH. destruct (String.eqb_spec k' k0) as [->|_]; [|reflexivity].
      destruct (String.eqb_spec k0 k); congruence.
Qed.

Lemma throughJson_undefined v : throughJson v = VUndefined -> v = VUndefined.
Proof.
  destruct v; cbn [throughJson]; try discriminate; [reflexivity|].
  destruct (is_finite x); [destruct (is_zero x)|]; discriminate.
Qed.

Lemma lookup_prop_absent k props : k ∉ names props -> lookup_prop k props = VUndefined.
Proof.
  unfold names. induction props as [|[k' v'] props IH]; cbn [lookup_prop map fst]; [reflexivity|].
  intros Hk. apply not_elem_of_cons in Hk as [Hne Hk].
  destruct (String.eqb_spec k k'); [congruence | auto].
Qed.

Lemma throughJson_object props : throughJson (VObject props) = VObject (written props).
Proof.
  cbn [throughJson]. f_equal. unfold written.
  induction props as [|[k v] props IH]; [reflexivity|].
  cbn [flat_map fst snd]. rewrite <- IH. now destruct v.
Qed.

Lemma names_written k props : k ∉ names props -> k ∉ names (written props).
Proof.
  unfold names, written.
  induction props as [|[k' v'] props IH]; cbn [flat_map map fst snd]; [auto|].
  intros Hk. apply not_elem_of_cons in Hk as [Hne Hk].
  rewrite map_app. apply not_elem_of_app. split; [|auto].
  destruct v'; cbn [map fst]; rewrite ?not_elem_of_cons; try (split; [assumption|]);
    apply not_elem_of_nil.
Qed.

Lemma written_NoDup props : NoDup (names props) -> NoDup (names (written props)).
Proof.
  induction props as [|[k v] props IH]; intros Hnd; [apply NoDup_nil_2|].
  change (names ((k, v) :: props)) with (k :: names props) in Hnd.
  apply NoDup_cons in Hnd as [Hk Hnd]. specialize (IH Hnd).
  pose proof (names_written k props Hk) as Hk'.
  unfold written in *. cbn [flat_map fst snd].
  destruct v; cbn [app]; try exact IH;
    (change (NoDup (k :: names (flat_map
       (fun kv => match snd kv with
                  | VUndefined => []
                  | x => [(fst kv, throughJson x)]
                  end) props))); apply NoDup_cons; split; assumption).
Qed.

(** Reading a property of what was read back is reading back the
    property. *)
Lemma lookup_written props k :
  NoDup (names props) -> lookup_prop k (written props) = throughJson (lookup_prop k props).
Proof.
  unfold names.
  induction props as [|[k' v'] props IH]; intros Hnd; [reflexivity|].
  cbn [map fst] in Hnd. apply NoDup_cons in Hnd as [Hk' Hnd]. specialize (IH Hnd).
  pose proof (names_written k' props Hk') as Hw.
  unfold written in *. cbn [flat_map fst snd lookup_prop].
  destruct (String.eqb_spec k k') as [->|Hne].
  - destruct v'; cbn [app lookup_prop]; rewrite ?String.eqb_refl; try reflexivity.
    now apply lookup_prop_absent.
  - destruct v'; cbn [app lookup_prop]; try exact IH;
      (destruct (String.eqb_spec k k'); [congruence | exact IH]).
Qed.

Lemma prop_throughJson props k :
  NoDup (names props) ->
  prop (throughJson (VObject props)) k = throughJson (lookup_prop k props).
Proof. intros Hnd. rewrite throughJson_object. cbn [prop]. now apply lookup_written. Qed.

End JsonFacts.

(** ** Submission *)

Section Submission.
#[local] Open Scope string_scope.
#[local] Arguments String.append !s1 s2.

Lemma forFiles_handled ctx done : forall rest jobs,
  Forall (fun fa => handled (snd fa)) done ->
  forFiles ctx (done ++ rest) jobs =
  ((flat_map (commandsFor ctx) done
    ++ fst (forFiles ctx rest (jobs ++ map (fun fa => uuid (snd fa)) done)))%list,
   snd (forFiles ctx rest (jobs ++ map (fun fa => uuid (snd fa)) done)%list)).
Proof.
  induction done as [|[f a] done IH]; intros rest jobs Hok; cbn [app flat_map map].
  - rewrite app_nil_r. now destruct (forFiles ctx rest jobs).
  - inversion Hok as [|? ? ([mediaUrl Hm] & Hset & Hpush) Hrest]; subst. cbn [snd] in *.
    cbn [forFiles]. rewrite Hm, Hset, Hpush, (IH rest _ Hrest).
    unfold commandsFor, jobFor, uploaded. cbn [fst snd]. rewrite Hm.
    rewrite <- app_assoc. reflexivity.
Qed.

Lemma forFiles_recordedBeforeQueued ctx files : forall jobs,
  recordedBeforeQueued (fst (forFiles ctx files jobs)).
Proof.
  induction files as [|[f a] files IH]; intros jobs before job after; cbn [forFiles fst].
  - intros E. destruct before; discriminate.
  - destruct (uploadMedia a) as [mediaUrl|err].
    2:{ intros E. destruct before; discriminate. }
    destruct (setRejected a).
    1:{ intros E. destruct before; discriminate. }
    destruct (rPushRejected a).
    1:{ intros E. destruct before as [|? [|? ?]]; discriminate. }
    specialize (IH (jobs ++ [uuid a])%list).
    destruct (forFiles ctx files (jobs ++ [uuid a])%list) as [effects outcome].
    cbn [fst] in *. intros E.
    destruct before as [|e1 [|e2 before]]; cbn [app] in E.
    + discriminate.
    + injection E as <- <- _. exists (uuid a), []. split; reflexivity.
    + injection E as <- <- E. destruct (IH _ _ _ E) as (jobId & before' & Hid & ->).
      exists jobId. eexists (_ :: _ :: before'). split; [exact Hid | reflexivity].
Qed.

(** C7, as amended. The handler works through the images in order.  While
    every upload succeeds and the store accepts every command, it issues
    per image the write of the pending job followed by the push of that
    same job, and answers the identifiers in the order of the images.  It
    stops at the first image whose upload, write or push fails: the answer
    is 500 with the message of what was thrown and no identifier, the
    images before it have their two commands, the image itself has none, or
    its write alone when it is the push that was rejected.  No job is ever
    pushed without the write of that job right before it. *)
Theorem submission_records_then_pushes ctx files :
  (Forall (fun fa => handled (snd fa)) files ->
   analyzeAsync ctx (Some files) =
     (flat_map (commandsFor ctx) files,
      Json 200 (VObject [("jobs", VArray (map (fun fa => VString (uuid (snd fa))) files))])))
  /\ (forall done f a rest,
      files = (done ++ (f, a) :: rest)%list ->
      Forall (fun fa => handled (snd fa)) done ->
      (forall err,
         uploadMedia a = Throw err ->
         analyzeAsync ctx (Some files) =
           (flat_map (commandsFor ctx) done,
            Json 500 (VObject [("error", VString (message err))])))
      /\ (forall mediaUrl err,
         uploadMedia a = Return mediaUrl -> setRejected a = Some err ->
         analyzeAsync ctx (Some files) =
           (flat_map (commandsFor ctx) done,
            Json 500 (VObject [("error", VString (message err))])))
      /\ (forall mediaUrl err,
         uploadMedia a = Return mediaUrl -> setRejected a = None ->
         rPushRejected a = Some err ->
         analyzeAsync ctx (Some files) =
           ((flat_map (commandsFor ctx) done
             ++ [RedisSet (jobKey (uuid a)) (pendingJob ctx f a mediaUrl)])%list,
            Json 500 (VObject [("error", VString (message err))]))))
  /\ recordedBeforeQueued (fst (analyzeAsync ctx (Some files)))
  /\ (forall fa,
      exists job,
        commandsFor ctx fa = [RedisSet (jobKey (uuid (snd fa))) job; RedisRPush job]
        /\ prop job "jobId" = VString (uuid (snd fa))
        /\ prop job "status" = VString "pending").
Proof.
  split; [|split; [|split]].
  - intros Hok. unfold analyzeAsync. cbn [default from_option id].
    rewrite <- (app_nil_r files) at 1. rewrite (forFiles_handled ctx files [] [] Hok).
    cbn [forFiles fst snd app]. rewrite app_nil_r, map_map. reflexivity.
  - intros done f a rest -> Hok. unfold analyzeAsync. cbn [default from_option id].
    rewrite (forFiles_handled ctx done _ [] Hok). cbn [forFiles app].
    split; [|split].
    + intros err ->. cbn [fst snd]. now rewrite app_nil_r.
    + intros mediaUrl err -> ->. cbn [fst snd]. now rewrite app_nil_r.
    + intros mediaUrl err -> -> ->. reflexivity.
  - unfold analyzeAsync. cbn [default from_option id].
    pose proof (forFiles_recordedBeforeQueued ctx files []) as H.
    now destruct (forFiles ctx files []).
  - intros fa. eexists. split; [reflexivity|]. split; reflexivity.
Qed.

(** C9, as amended. A request without images is answered with status 200
    and an empty list of jobs; no command is issued. *)
Theorem no_images_no_jobs ctx req_files :
  default [] req_files = [] ->
  analyzeAsync ctx req_files = ([], Json 200 (VObject [("jobs", VArray [])])).
Proof.
  intros H. unfold analyzeAsync. rewrite H. reflexivity.
Qed.

Lemma no_images_no_jobs_witness :
  analyzeAsync sampleContext None = ([], Json 200 (VObject [("jobs", VArray [])])).
Proof. apply (no_images_no_jobs sampleContext None). reflexivity. Defined.

(** C9 as stated fails: the empty request is not rejected. *)
Lemma rejectsWithoutImages_fails : ~ rejectsWithoutImages sampleContext (Some []).
Proof.
  intros H. destruct H as [H _]; [reflexivity|]. cbn in H. lia.
Qed.

(** C7 as stated fails: of three images whose second upload throws, the
    first is written and pushed and the other two are not, and the answer
    carries no identifier. *)
Lemma recordsThenPushesEach_fails :
  analyzeAsync sampleContext
    (Some [(sampleFile, sampleAnswers "job-1"); (sampleFile, failingAnswers "job-2");
           (sampleFile, sampleAnswers "job-3")])
  = ([RedisSet (jobKey "job-1") sampleJob; RedisRPush sampleJob],
     Json 500 (VObject [("error", VString "media upload failed")]))
  /\ ~ recordsThenPushesEach sampleContext
         [(sampleFile, sampleAnswers "job-1"); (sampleFile, failingAnswers "job-2");
          (sampleFile, sampleAnswers "job-3")].
Proof.
  split; [reflexivity|].
  intros (jobs & _ & _ & H). discriminate H.
Qed.

Lemma submission_records_then_pushes_witness :
  analyzeAsync sampleContext (Some [(sampleFile, sampleAnswers "job-1");
                                    (sampleFile, unpushedAnswers "job-2");
                                    (sampleFile, sampleAnswers "job-3")])
  = ([RedisSet (jobKey "job-1") sampleJob; RedisRPush sampleJob;
      RedisSet (jobKey "job-2")
        (pendingJob sampleContext sampleFile (unpushedAnswers "job-2")
           (VString "https://i.redd.it/chives.png"))],
     Json 500 (VObject [("error", VString "Connection is closed.")])).
Proof.
  refine (proj2 (proj2 (proj1 (proj2 (submission_records_then_pushes sampleContext
            [(sampleFile, sampleAnswers "job-1"); (sampleFile, unpushedAnswers "job-2");
             (sampleFile, sampleAnswers "job-3")]))
            [(sampleFile, sampleAnswers "job-1")] sampleFile (unpushedAnswers "job-2")
            [(sampleFile, sampleAnswers "job-3")] eq_refl _))
            (VString "https://i.redd.it/chives.png") (Error "Connection is closed.")
            eq_refl eq_refl eq_refl).
  repeat constructor. eexists; reflexivity.
Defined.

End Submission.

(** ** The worker and the store *)

Section Records.
#[local] Open Scope string_scope.
#[local] Arguments String.append !s1 s2.

Lemma jobKey_inj a b : jobKey a = jobKey b -> a = b.
Proof. unfold jobKey. cbn. now intros [= ->]. Qed.

Lemma resultKey_inj a b : resultKey a = resultKey b -> a = b.
Proof. unfold resultKey. cbn. now intros [= ->]. Qed.

Lemma jobKey_resultKey a b : jobKey a <> resultKey b.
Proof. unfold jobKey, resultKey. cbn. discriminate. Qed.

Lemma resultKey_jobKey a b : resultKey a <> jobKey b.
Proof. unfold jobKey, resultKey. cbn. discriminate. Qed.

Lemma jobRecord_throughJson jobId st v :
  jobRecord jobId st v -> jobRecord jobId st (throughJson v).
Proof.
  intros (props & -> & Hnd & Hid & Hst). exists (written props).
  rewrite throughJson_object. split; [reflexivity|].
  split; [now apply written_NoDup|].
  rewrite !lookup_written by assumption. rewrite Hid, Hst. split; reflexivity.
Qed.

Lemma pendingJob_record ctx f a mediaUrl :
  jobRecord (uuid a) "pending" (pendingJob ctx f a mediaUrl).
Proof.
  eexists. split; [reflexivity|]. split; [|split; reflexivity].
  cbn [names map fst]. apply (bool_decide_unpack _). vm_compute. reflexivity.
Qed.

Lemma handlerJob_record jobData jobId :
  handlerJob jobData jobId -> jobRecord jobId "pending" jobData.
Proof.
  intros (ctx & f & a & mediaUrl & <- & ->).
  apply jobRecord_throughJson, pendingJob_record.
Qed.

Lemma jobRecord_fields jobId st v :
  jobRecord jobId st v ->
  prop v "jobId" = VString jobId /\ prop v "status" = VString st.
Proof. intros (props & -> & _ & Hid & Hst). split; assumption. Qed.

Lemma jobRecord_assign jobId st v st' :
  jobRecord jobId st v ->
  exists v', assign v "status" (VString st') = Return v' /\ jobRecord jobId st' v'.
Proof.
  intros (props & -> & Hnd & Hid & Hst). eexists. split; [reflexivity|].
  eexists. split; [reflexivity|]. split; [now apply define_prop_NoDup|].
  rewrite !lookup_define_prop. split; [exact Hid | reflexivity].
Qed.

Lemma handlerJob_identifier jobData jobId :
  handlerJob jobData jobId -> identifier jobData = VString jobId.
Proof. intros H. apply handlerJob_record, jobRecord_fields in H. tauto. Qed.

Lemma storedPending_status m jobId v :
  storedPending m jobId -> m !! jobKey jobId = Some v ->
  prop v "status" = VString "pending".
Proof.
  intros (v' & Hv' & Hrec) Hv. assert (v' = v) as -> by congruence.
  apply jobRecord_fields in Hrec. tauto.
Qed.

Lemma jobRecord_status jobId st st' v :
  jobRecord jobId st v -> prop v "status" = VString st' -> st = st'.
Proof. intros H E. apply jobRecord_fields in H as [_ H]. congruence. Qed.

End Records.

Section WorkerRecords.
#[local] Open Scope string_scope.
#[local] Arguments String.append !s1 s2.

Variable render : value -> string.

Lemma completedRecord_fields jobId result t :
  prop (throughJson (completedRecord (VString jobId) result t)) "jobId" = VString jobId
  /\ prop (throughJson (completedRecord (VString jobId) result t)) "status"
     = VString "completed"
  /\ prop (throughJson (completedRecord (VString jobId) result t)) "result"
     = throughJson result.
Proof.
  assert (Hnd : NoDup (names [ ("jobId", VString jobId); ("status", VString "completed");
                               ("result", result); ("processedAt", VNumber t) ])).
  { cbn [names map fst]. apply (bool_decide_unpack _). vm_compute. reflexivity. }
  unfold completedRecord. rewrite !(prop_throughJson _ _ Hnd). repeat split; reflexivity.
Qed.

Lemma failedRecord_fields jobId err t :
  prop (throughJson (failedRecord (VString jobId) err t)) "jobId" = VString jobId
  /\ prop (throughJson (failedRecord (VString jobId) err t)) "status" = VString "failed"
  /\ prop (throughJson (failedRecord (VString jobId) err t)) "error"
     = VString (message err).
Proof.
  assert (Hnd : NoDup (names [ ("jobId", VString jobId); ("status", VString "failed");
                               ("error", VString (message err));
                               ("processedAt", VNumber t) ])).
  { cbn [names map fst]. apply (bool_decide_unpack _). vm_compute. reflexivity. }
  unfold failedRecord. rewrite !(prop_throughJson _ _ Hnd). repeat split; reflexivity.
Qed.

Lemma heldIds_of pc jobData jobId :
  inHand pc = [jobData] -> identifier jobData = VString jobId -> heldIds pc = {[jobId]}.
Proof. unfold heldIds, identifier. intros -> ->. reflexivity. Qed.

Lemma betweenWrites_held pc jobId : betweenWrites pc jobId -> heldIds pc = {[jobId]}.
Proof.
  destruct pc; cbn [betweenWrites]; try contradiction; intros H;
    now apply (heldIds_of _ jobData).
Qed.

Lemma betweenWrites_in_hand pc jobId :
  betweenWrites pc jobId -> exists jobData, inHand pc = [jobData] /\ identifier jobData = VString jobId.
Proof.
  destruct pc; cbn [betweenWrites]; try contradiction; intros H; exists jobData; auto.
Qed.

Lemma held_known m known troubled pc jobData :
  workerInvariant m known troubled pc -> jobData ∈ inHand pc ->
  exists jobId, handlerJob jobData jobId /\ jobId ∈ known.
Proof.
  destruct pc; cbn [workerInvariant inHand]; intros Hw Hin;
    try (now apply elem_of_nil in Hin);
    apply list_elem_of_singleton in Hin; subst;
    destruct Hw as (jobId & H1 & H2 & _); eauto.
Qed.

Lemma heldIds_elem pc jobId :
  jobId ∈ heldIds pc ->
  exists jobData, jobData ∈ inHand pc /\ identifier jobData = VString jobId.
Proof.
  unfold heldIds, identifier. destruct (inHand pc) as [|jobData [|? ?]];
    try (intros H; now apply not_elem_of_empty in H).
  destruct (prop jobData "jobId") eqn:E; try (intros H; now apply not_elem_of_empty in H).
  intros H. apply elem_of_singleton in H. subst. exists jobData.
  split; [now apply list_elem_of_singleton | assumption].
Qed.

(** What a worker's invariant says depends on the keys of its job only. *)
Lemma workerInvariant_agree m m' known known' troubled troubled' pc :
  known ⊆ known' ->
  (forall jobId, jobId ∈ heldIds pc -> jobId ∉ troubled' ->
     (jobId ∉ troubled)
     /\ m' !! jobKey jobId = m !! jobKey jobId
     /\ m' !! resultKey jobId = m !! resultKey jobId) ->
  workerInvariant m known troubled pc -> workerInvariant m' known' troubled' pc.
Proof.
  intros Hk Hagree.
  destruct pc; cbn [workerInvariant]; try tauto.
  - intros (jobId & Hj & Hin & H). exists jobId. split; [assumption|]. split; [auto|].
    intros Hn. destruct (Hagree jobId) as (Hn' & Ej & Er); [|assumption|].
    { rewrite (heldIds_of _ jobData jobId); [now apply elem_of_singleton | reflexivity
                                              | now apply handlerJob_identifier]. }
    unfold storedPending. rewrite Ej, Er. auto.
  - intros (jobId & Hj & Hin & H). exists jobId. split; [assumption|]. split; [auto|].
    intros Hn. destruct (Hagree jobId) as (Hn' & Ej & Er); [|assumption|].
    { rewrite (heldIds_of _ jobData jobId); [now apply elem_of_singleton | reflexivity
                                              | now apply handlerJob_identifier]. }
    unfold storedPending. rewrite Ej, Er. auto.
  - intros (jobId & Hj & Hin & H). exists jobId. split; [assumption|]. split; [auto|].
    intros Hn. destruct (Hagree jobId) as (Hn' & Ej & Er); [|assumption|].
    { rewrite (heldIds_of _ jobData jobId); [now apply elem_of_singleton | reflexivity
                                              | now apply handlerJob_identifier]. }
    unfold storedPending, storedResult. rewrite Ej, Er. auto.
  - intros (jobId & Hj & Hin & Hrec & H). exists jobId. split; [assumption|].
    split; [auto|]. split; [assumption|].
    intros Hn. destruct (Hagree jobId) as (Hn' & Ej & Er); [|assumption|].
    { rewrite (heldIds_of _ jobData jobId); [now apply elem_of_singleton | reflexivity
                                              | now apply handlerJob_identifier]. }
    unfold storedPending, storedResult. rewrite Ej, Er. auto.
  - intros (jobId & Hj & Hin & H). exists jobId. split; [assumption|]. split; [auto|].
    intros Hn. destruct (Hagree jobId) as (Hn' & Ej & Er); [|assumption|].
    { rewrite (heldIds_of _ jobData jobId); [now apply elem_of_singleton | reflexivity
                                              | now apply handlerJob_identifier]. }
    unfold storedPending. rewrite Ej, Er. auto.
Qed.

(** The jobs the workers hold, around the worker at [i]. *)
Lemma in_hand_around (ws : list control) i pc pc' :
  ws !! i = Some pc ->
  ws ≫= inHand
  = ((take i ws ≫= inHand) ++ inHand pc ++ (drop (S i) ws ≫= inHand))%list
  /\ (<[i := pc']> ws) ≫= inHand
     = ((take i ws ≫= inHand) ++ inHand pc' ++ (drop (S i) ws ≫= inHand))%list.
Proof.
  intros H. split.
  - rewrite <- (take_drop_middle ws i pc H) at 1. now rewrite bind_app, bind_cons.
  - rewrite insert_take_drop by (eapply lookup_lt_Some; eauto).
    now rewrite bind_app, bind_cons.
Qed.

Lemma in_hand_elem (ws : list control) i pc jobData :
  ws !! i = Some pc -> jobData ∈ inHand pc -> jobData ∈ ws ≫= inHand.
Proof.
  intros H Hin. apply list_elem_of_bind. exists pc. split; [assumption|].
  apply list_elem_of_lookup. eauto.
Qed.

Lemma in_hand_sublist (ws : list control) i pc pc' :
  ws !! i = Some pc -> inHand pc' = inHand pc \/ inHand pc' = [] ->
  ((<[i := pc']> ws) ≫= inHand) `sublist_of` (ws ≫= inHand).
Proof.
  intros H Hsub. destruct (in_hand_around ws i pc pc' H) as [-> ->].
  apply sublist_app; [reflexivity|]. apply sublist_app; [|reflexivity].
  destruct Hsub as [-> | ->]; [reflexivity | apply sublist_nil_l].
Qed.

(** Two workers never hold the same identifier. *)
Lemma held_elsewhere (ws : list control) : forall i i' pc pc' jobData jobData',
  NoDup (identifier <$> (ws ≫= inHand)) ->
  ws !! i = Some pc -> ws !! i' = Some pc' -> i <> i' ->
  jobData ∈ inHand pc -> jobData' ∈ inHand pc' ->
  identifier jobData' <> identifier jobData.
Proof.
  induction ws as [|pc0 ws IH]; intros i i' pc pc' j j' Hnd Hi Hi' Hne Hj Hj';
    [discriminate|].
  rewrite bind_cons, fmap_app in Hnd. apply NoDup_app in Hnd as (_ & Hd & Hnd).
  destruct i as [|i], i' as [|i']; cbn in Hi, Hi'; try congruence.
  - injection Hi as <-. intros E. apply (Hd (identifier j)).
    + now apply list_elem_of_fmap_2.
    + rewrite <- E. apply list_elem_of_fmap_2. now apply (in_hand_elem ws i' pc').
  - injection Hi' as <-. intros E. apply (Hd (identifier j')).
    + now apply list_elem_of_fmap_2.
    + rewrite E. apply list_elem_of_fmap_2. now apply (in_hand_elem ws i pc).
  - apply (IH i i' pc pc'); auto.
Qed.

End WorkerRecords.

(** ** The invariant of the reachable states *)

Section Invariant.
#[local] Open Scope string_scope.
#[local] Arguments String.append !s1 s2.

Variable render : value -> string.

Lemma invariant_initial : invariant initial.
Proof.
  split; cbn.
  - intros jobId v H. now rewrite lookup_empty in H.
  - intros jobId r H. now rewrite lookup_empty in H.
  - intros jobData H. now apply elem_of_nil in H.
  - apply NoDup_nil_2.
  - intros i pc H. discriminate.
Qed.

Lemma waiting_known s jobData :
  invariant s -> jobData ∈ ((throughJson <$> recorded s) ++ queue (db s))%list ->
  exists jobId, handlerJob jobData jobId /\ jobId ∈ issued s.
Proof.
  intros Hinv Hin. destruct (inv_waiting s Hinv _ Hin) as (jobId & H1 & H2 & _). eauto.
Qed.

Lemma on_the_way_known s jobData :
  invariant s -> jobData ∈ onTheWay s ->
  exists jobId, handlerJob jobData jobId /\ jobId ∈ issued s.
Proof.
  intros Hinv Hin. unfold onTheWay in Hin. rewrite app_assoc in Hin.
  apply elem_of_app in Hin as [Hin|Hin]; [now apply waiting_known|].
  apply list_elem_of_bind in Hin as (pc & Hin & Hpc).
  apply list_elem_of_lookup in Hpc as [i Hi].
  exact (held_known _ _ _ _ _ (inv_workers s Hinv i pc Hi) Hin).
Qed.

Lemma waiting_not_held s jobData' i pc jobData :
  invariant s -> jobData' ∈ ((throughJson <$> recorded s) ++ queue (db s))%list ->
  workers s !! i = Some pc -> jobData ∈ inHand pc ->
  identifier jobData' <> identifier jobData.
Proof.
  intros Hinv Hin Hi Hj E. pose proof (inv_distinct s Hinv) as Hd.
  unfold onTheWay in Hd. rewrite app_assoc, fmap_app in Hd.
  apply NoDup_app in Hd as (_ & Hd & _). apply (Hd (identifier jobData')).
  - now apply list_elem_of_fmap_2.
  - rewrite E. apply list_elem_of_fmap_2. now apply (in_hand_elem _ i pc).
Qed.

Lemma held_distinct s i i' pc pc' jobData jobData' :
  invariant s -> workers s !! i = Some pc -> workers s !! i' = Some pc' -> i <> i' ->
  jobData ∈ inHand pc -> jobData' ∈ inHand pc' ->
  identifier jobData' <> identifier jobData.
Proof.
  intros Hinv. apply held_elsewhere. pose proof (inv_distinct s Hinv) as Hd.
  unfold onTheWay in Hd. rewrite !fmap_app in Hd.
  apply NoDup_app in Hd as (_ & _ & Hd). now apply NoDup_app in Hd as (_ & _ & Hd).
Qed.

(** A change of the store that only undisturbed jobs could notice, and that
    leaves their keys as they were. *)
Lemma invariant_disturb s s' :
  invariant s ->
  (forall jobId v, kv (db s') !! jobKey jobId = Some v ->
                   kv (db s) !! jobKey jobId = Some v) ->
  (forall jobId r, kv (db s') !! resultKey jobId = Some r ->
                   kv (db s) !! resultKey jobId = Some r) ->
  (forall jobId, jobId ∉ disturbed s' ->
     (jobId ∉ disturbed s)
     /\ kv (db s') !! jobKey jobId = kv (db s) !! jobKey jobId
     /\ kv (db s') !! resultKey jobId = kv (db s) !! resultKey jobId) ->
  queue (db s') = queue (db s) -> workers s' = workers s ->
  recorded s' = recorded s -> issued s' = issued s ->
  invariant s'.
Proof.
  intros Hinv Hjobs Hres Hagree Eq Ew Er Ei.
  split; unfold onTheWay, beingCompleted; rewrite ?Eq, ?Ew, ?Er, ?Ei.
  - intros jobId v Hv.
    destruct (inv_jobs s Hinv _ _ (Hjobs _ _ Hv)) as (Hin & st & H1 & H2 & H3).
    split; [assumption|]. exists st. split; [assumption|]. split; [assumption|].
    intros Hn Hst. destruct (Hagree _ Hn) as (Hn' & _ & E).
    unfold storedResult. rewrite E. now apply H3.
  - intros jobId r Hr.
    destruct (inv_results s Hinv _ _ (Hres _ _ Hr)) as (Hin & st & H1 & H2 & H3 & H4).
    split; [assumption|]. exists st. repeat (split; [assumption|]).
    intros Hn. destruct (Hagree _ Hn) as (Hn' & E & _). rewrite E. now apply H4.
  - intros jobData Hin.
    destruct (inv_waiting s Hinv _ Hin) as (jobId & H1 & H2 & H3).
    exists jobId. repeat (split; [assumption|]).
    intros Hn. destruct (Hagree _ Hn) as (Hn' & E1 & E2).
    unfold storedPending. rewrite E1, E2. now apply H3.
  - apply (inv_distinct s Hinv).
  - intros i pc Hi. eapply workerInvariant_agree; [reflexivity| |exact (inv_workers s Hinv i pc Hi)].
    intros jobId _ Hn. exact (Hagree _ Hn).
Qed.

(** A command of the worker at [i] that leaves the store as it is and gives
    the worker no other job. *)
Lemma invariant_quiet s s' i pc pc' :
  invariant s -> workers s !! i = Some pc ->
  kv (db s') = kv (db s) -> queue (db s') = queue (db s) ->
  workers s' = <[i := pc']> (workers s) ->
  recorded s' = recorded s -> issued s' = issued s ->
  disturbed s ⊆ disturbed s' ->
  inHand pc' = inHand pc \/ inHand pc' = [] ->
  workerInvariant (kv (db s)) (issued s) (disturbed s') pc' ->
  (forall jobId, jobId ∉ disturbed s' -> betweenWrites pc jobId -> betweenWrites pc' jobId) ->
  invariant s'.
Proof.
  intros Hinv Hi Ekv Eq Ew Er Ei Hsub Hhand Hw Hb.
  assert (Hlt : (i < length (workers s))%nat) by (eapply lookup_lt_Some; eauto).
  split; unfold onTheWay, beingCompleted; rewrite ?Ekv, ?Eq, ?Ew, ?Er, ?Ei.
  - intros jobId v Hv.
    destruct (inv_jobs s Hinv _ _ Hv) as (Hin & st & H1 & H2 & H3).
    split; [assumption|]. exists st. repeat (split; [assumption|]).
    intros Hn. apply H3. intros Hd. apply Hn. now apply Hsub.
  - intros jobId r Hr.
    destruct (inv_results s Hinv _ _ Hr) as (Hin & st & H1 & H2 & H3 & H4).
    split; [assumption|]. exists st. repeat (split; [assumption|]).
    intros Hn. destruct H4 as (v & Hv & Hor); [intros Hd; apply Hn; now apply Hsub|].
    exists v. split; [assumption|]. destruct Hor as [Hor|[Hp (i0 & pc0 & Hl & Hbw)]];
      [now left|]. right. split; [assumption|].
    destruct (decide (i0 = i)) as [->|Hne].
    + assert (pc0 = pc) as -> by congruence. exists i, pc'.
      split; [now apply list_lookup_insert_eq | now apply Hb].
    + exists i0, pc0. split; [|assumption]. now rewrite list_lookup_insert_ne.
  - intros jobData Hin.
    destruct (inv_waiting s Hinv _ Hin) as (jobId & H1 & H2 & H3).
    exists jobId. repeat (split; [assumption|]).
    intros Hn. apply H3. intros Hd. apply Hn. now apply Hsub.
  - eapply sublist_NoDup; [apply (inv_distinct s Hinv)|]. apply fmap_sublist.
    unfold onTheWay. apply sublist_app; [reflexivity|]. apply sublist_app; [reflexivity|].
    now apply (in_hand_sublist _ i pc).
  - intros i' pc0. destruct (decide (i' = i)) as [->|Hne].
    + rewrite list_lookup_insert_eq by assumption. now intros [= <-].
    + rewrite list_lookup_insert_ne by congruence. intros Hl.
      eapply workerInvariant_agree; [reflexivity| |exact (inv_workers s Hinv i' pc0 Hl)].
      intros jobId _ Hn. split; [|split; reflexivity]. intros Hd. apply Hn. now apply Hsub.
Qed.

Lemma invariant_quiet_worker s i pc pc' troubled :
  invariant s -> workers s !! i = Some pc ->
  disturbed s ⊆ troubled ->
  inHand pc' = inHand pc \/ inHand pc' = [] ->
  workerInvariant (kv (db s)) (issued s) troubled pc' ->
  (forall jobId, jobId ∉ troubled -> betweenWrites pc jobId -> betweenWrites pc' jobId) ->
  invariant {| db := {| kv := kv (db s); queue := queue (db s) |};
               workers := <[i := pc']> (workers s);
               recorded := recorded s;
               issued := issued s;
               disturbed := troubled |}.
Proof.
  intros Hinv Hi Hsub Hhand Hw Hb.
  now apply (invariant_quiet s _ i pc pc' Hinv Hi).
Qed.

(** The worker at [i] stores the result of the job it holds. *)
Lemma invariant_store_result s s' i pc jobData jobId b r :
  invariant s -> workers s !! i = Some pc -> inHand pc = [jobData] ->
  (forall id, ~ betweenWrites pc id) ->
  handlerJob jobData jobId ->
  (jobId ∉ disturbed s -> storedPending (kv (db s)) jobId) ->
  prop r "status" = VString (statusWritten b) -> prop r "jobId" = VString jobId ->
  kv (db s') = <[resultKey jobId := r]> (kv (db s)) -> queue (db s') = queue (db s) ->
  workers s' = <[i := GetJob jobData b]> (workers s) ->
  recorded s' = recorded s -> issued s' = issued s -> disturbed s' = disturbed s ->
  invariant s'.
Proof.
  intros Hinv Hi Hhand Hnb Hj Hpend Hst Hid Ekv Eq Ew Er Ei Ed.
  assert (Hlt : (i < length (workers s))%nat) by (eapply lookup_lt_Some; eauto).
  assert (Hheld : jobData ∈ inHand pc) by (rewrite Hhand; now apply list_elem_of_singleton).
  assert (Hknown : jobId ∈ issued s).
  { destruct (held_known _ _ _ _ _ (inv_workers s Hinv i pc Hi) Hheld) as (id & Hj' & Hin).
    apply handlerJob_identifier in Hj'. rewrite (handlerJob_identifier _ _ Hj) in Hj'.
    now injection Hj' as ->. }
  assert (Hjk : forall k, kv (db s') !! jobKey k = kv (db s) !! jobKey k).
  { intros k. rewrite Ekv. apply lookup_insert_ne, resultKey_jobKey. }
  assert (Hrk : forall k, k <> jobId -> kv (db s') !! resultKey k = kv (db s) !! resultKey k).
  { intros k Hk. rewrite Ekv. apply lookup_insert_ne. intros E. apply resultKey_inj in E.
    congruence. }
  assert (Hterm : statusWritten b = "completed" \/ statusWritten b = "failed")
    by (destruct b; auto).
  split; unfold onTheWay, beingCompleted; rewrite ?Eq, ?Ew, ?Er, ?Ei, ?Ed.
  - intros k v Hv. rewrite Hjk in Hv.
    destruct (inv_jobs s Hinv _ _ Hv) as (Hin & st & H1 & H2 & H3).
    split; [assumption|]. exists st. repeat (split; [assumption|]).
    intros Hn Hne. destruct (decide (k = jobId)) as [->|Hk].
    + exfalso. apply Hne. pose proof (storedPending_status _ _ _ (Hpend Hn) Hv) as E.
      now apply (jobRecord_status _ _ _ _ H1).
    + unfold storedResult. rewrite (Hrk _ Hk). now apply H3.
  - intros k r' Hr'. destruct (decide (k = jobId)) as [->|Hk].
    + rewrite Ekv, lookup_insert_eq in Hr'. injection Hr' as <-.
      split; [assumption|]. exists (statusWritten b). repeat (split; [assumption|]).
      intros Hn. destruct (Hpend Hn) as (v & Hv & Hrec). exists v. rewrite Hjk.
      split; [assumption|]. right. split; [apply jobRecord_fields in Hrec; tauto|].
      exists i, (GetJob jobData b). split; [now apply list_lookup_insert_eq|].
      cbn [betweenWrites]. now apply handlerJob_identifier.
    + rewrite (Hrk _ Hk) in Hr'.
      destruct (inv_results s Hinv _ _ Hr') as (Hin & st & H1 & H2 & H3 & H4).
      split; [assumption|]. exists st. repeat (split; [assumption|]).
      intros Hn. destruct (H4 Hn) as (v & Hv & Hor). exists v. rewrite Hjk.
      split; [assumption|]. destruct Hor as [Hor|[Hp (i0 & pc0 & Hl & Hbw)]]; [now left|].
      right. split; [assumption|]. exists i0, pc0. split; [|assumption].
      rewrite list_lookup_insert_ne; [assumption|]. intros <-.
      assert (pc0 = pc) as -> by congruence. now apply (Hnb k).
  - intros job Hin.
    destruct (inv_waiting s Hinv _ Hin) as (k & H1 & H2 & H3).
    exists k. repeat (split; [assumption|]). intros Hn.
    assert (Hk : k <> jobId).
    { intros ->. apply (waiting_not_held s job i pc jobData Hinv Hin Hi Hheld).
      now rewrite (handlerJob_identifier _ _ H1), (handlerJob_identifier _ _ Hj). }
    unfold storedPending. rewrite Hjk, (Hrk _ Hk). now apply H3.
  - destruct (in_hand_around (workers s) i pc (GetJob jobData b) Hi) as [E1 E2].
    pose proof (inv_distinct s Hinv) as Hd. unfold onTheWay in Hd.
    rewrite E2. cbn [inHand]. rewrite <- Hhand, <- E1. exact Hd.
  - intros i' pc0. destruct (decide (i' = i)) as [->|Hne].
    + rewrite list_lookup_insert_eq by assumption. intros [= <-]. cbn [workerInvariant].
      exists jobId. repeat (split; [assumption|]). intros Hn.
      split; [destruct (Hpend Hn) as (v & Hv & Hrec); exists v; rewrite Hjk; now split|].
      exists r. split; [rewrite Ekv; apply lookup_insert_eq | assumption].
    + rewrite list_lookup_insert_ne by congruence. intros Hl.
      eapply workerInvariant_agree; [reflexivity| |exact (inv_workers s Hinv i' pc0 Hl)].
      intros k Hk Hn. split; [assumption|]. split; [apply Hjk|]. apply Hrk. intros ->.
      apply heldIds_elem in Hk as (job & Hjob & Eid).
      apply (held_distinct s i i' pc pc0 jobData job Hinv Hi Hl); [congruence|assumption..|].
      now rewrite Eid, (handlerJob_identifier _ _ Hj).
Qed.

(** The worker at [i] stores the status of the job it holds. *)
Lemma invariant_store_status s s' i jobData job jobId b :
  invariant s -> workers s !! i = Some (SetJob jobData job b) ->
  handlerJob jobData jobId ->
  kv (db s') = <[jobKey jobId := throughJson job]> (kv (db s)) ->
  queue (db s') = queue (db s) ->
  workers s' = <[i := Idle]> (workers s) ->
  recorded s' = recorded s -> issued s' = issued s -> disturbed s' = disturbed s ->
  invariant s'.
Proof.
  intros Hinv Hi Hj Ekv Eq Ew Er Ei Ed.
  assert (Hlt : (i < length (workers s))%nat) by (eapply lookup_lt_Some; eauto).
  assert (Hheld : jobData ∈ inHand (SetJob jobData job b)) by now apply list_elem_of_singleton.
  pose proof (inv_workers s Hinv i _ Hi) as Hw. cbn [workerInvariant] in Hw.
  destruct Hw as (id & Hj' & Hknown & Hrec & Hw).
  assert (id = jobId) as ->.
  { apply handlerJob_identifier in Hj'. rewrite (handlerJob_identifier _ _ Hj) in Hj'.
    now injection Hj'. }
  clear Hj'.
  assert (Hrk : forall k, kv (db s') !! resultKey k = kv (db s) !! resultKey k).
  { intros k. rewrite Ekv. apply lookup_insert_ne, jobKey_resultKey. }
  assert (Hjk : forall k, k <> jobId -> kv (db s') !! jobKey k = kv (db s) !! jobKey k).
  { intros k Hk. rewrite Ekv. apply lookup_insert_ne. intros E. apply jobKey_inj in E.
    congruence. }
  assert (Hterm : statusWritten b = "completed" \/ statusWritten b = "failed")
    by (destruct b; auto).
  split; unfold onTheWay, beingCompleted; rewrite ?Eq, ?Ew, ?Er, ?Ei, ?Ed.
  - intros k v Hv. destruct (decide (k = jobId)) as [->|Hk].
    + rewrite Ekv, lookup_insert_eq in Hv. injection Hv as <-.
      split; [assumption|]. exists (statusWritten b).
      split; [now apply jobRecord_throughJson|]. split; [tauto|].
      intros Hn _. unfold storedResult. rewrite Hrk. now apply Hw.
    + rewrite (Hjk _ Hk) in Hv.
      destruct (inv_jobs s Hinv _ _ Hv) as (Hin & st & H1 & H2 & H3).
      split; [assumption|]. exists st. repeat (split; [assumption|]).
      intros Hn Hne. unfold storedResult. rewrite Hrk. now apply H3.
  - intros k r Hr. rewrite Hrk in Hr.
    destruct (inv_results s Hinv _ _ Hr) as (Hin & st & H1 & H2 & H3 & H4).
    split; [assumption|]. exists st. repeat (split; [assumption|]).
    intros Hn. destruct (decide (k = jobId)) as [->|Hk].
    + exists (throughJson job). rewrite Ekv, lookup_insert_eq. split; [reflexivity|].
      left. destruct (Hw Hn) as (_ & r' & Hr' & Hst').
      assert (r' = r) as -> by congruence.
      apply jobRecord_throughJson, jobRecord_fields in Hrec. destruct Hrec as [_ ->].
      congruence.
    + destruct (H4 Hn) as (v & Hv & Hor). exists v. rewrite (Hjk _ Hk).
      split; [assumption|]. destruct Hor as [Hor|[Hp (i0 & pc0 & Hl & Hbw)]]; [now left|].
      right. split; [assumption|]. exists i0, pc0. split; [|assumption].
      rewrite list_lookup_insert_ne; [assumption|]. intros <-.
      assert (pc0 = SetJob jobData job b) as -> by congruence.
      cbn [betweenWrites] in Hbw. apply Hk.
      pose proof (handlerJob_identifier _ _ Hj) as E. unfold identifier in E. congruence.
  - intros job' Hin.
    destruct (inv_waiting s Hinv _ Hin) as (k & H1 & H2 & H3).
    exists k. repeat (split; [assumption|]). intros Hn.
    assert (Hk : k <> jobId).
    { intros ->. apply (waiting_not_held s job' i _ jobData Hinv Hin Hi Hheld).
      now rewrite (handlerJob_identifier _ _ H1), (handlerJob_identifier _ _ Hj). }
    unfold storedPending. rewrite Hrk, (Hjk _ Hk). now apply H3.
  - eapply sublist_NoDup; [apply (inv_distinct s Hinv)|]. apply fmap_sublist.
    unfold onTheWay. apply sublist_app; [reflexivity|]. apply sublist_app; [reflexivity|].
    apply (in_hand_sublist _ i _ _ Hi). now right.
  - intros i' pc0. destruct (decide (i' = i)) as [->|Hne].
    + rewrite list_lookup_insert_eq by assumption. intros [= <-]. exact I.
    + rewrite list_lookup_insert_ne by congruence. intros Hl.
      eapply workerInvariant_agree; [reflexivity| |exact (inv_workers s Hinv i' pc0 Hl)].
      intros k Hk Hn. split; [assumption|]. split; [|apply Hrk]. apply Hjk. intros ->.
      apply heldIds_elem in Hk as (job' & Hjob & Eid).
      apply (held_distinct s i i' _ pc0 jobData job' Hinv Hi Hl); [congruence|assumption..|].
      now rewrite Eid, (handlerJob_identifier _ _ Hj).
Qed.

Lemma invariant_record s ctx f a mediaUrl :
  invariant s -> uuid a ∉ issued s ->
  invariant {| db := perform (RedisSet (jobKey (uuid a)) (pendingJob ctx f a mediaUrl)) (db s);
               workers := workers s;
               recorded := pendingJob ctx f a mediaUrl :: recorded s;
               issued := {[uuid a]} ∪ issued s;
               disturbed := disturbed s |}.
Proof.
  intros Hinv Hfresh.
  set (job := pendingJob ctx f a mediaUrl).
  assert (Hjob : handlerJob (throughJson job) (uuid a)) by (exists ctx, f, a, mediaUrl; auto).
  assert (Hnores : kv (db s) !! resultKey (uuid a) = None).
  { destruct (kv (db s) !! resultKey (uuid a)) as [r0|] eqn:E; [|reflexivity].
    destruct (inv_results s Hinv _ _ E) as (Hin & _). contradiction. }
  assert (Hrk : forall k, <[jobKey (uuid a) := throughJson job]> (kv (db s)) !! resultKey k
                          = kv (db s) !! resultKey k).
  { intros k. apply lookup_insert_ne, jobKey_resultKey. }
  assert (Hjk : forall k, k ∈ issued s ->
                <[jobKey (uuid a) := throughJson job]> (kv (db s)) !! jobKey k
                = kv (db s) !! jobKey k).
  { intros k Hk. apply lookup_insert_ne. intros E. apply jobKey_inj in E. congruence. }
  split; unfold onTheWay, beingCompleted; cbn [db kv queue workers recorded issued disturbed perform].
  - intros k v Hv. destruct (decide (k = uuid a)) as [->|Hne].
    + rewrite lookup_insert_eq in Hv. injection Hv as <-.
      split; [apply elem_of_union_l, elem_of_singleton_2; reflexivity|].
      exists "pending". split; [now apply handlerJob_record|]. split; [auto|].
      intros _ Hne. congruence.
    + rewrite lookup_insert_ne in Hv by (intros E; apply jobKey_inj in E; congruence).
      destruct (inv_jobs s Hinv _ _ Hv) as (Hin & st & H1 & H2 & H3).
      split; [now apply elem_of_union_r|]. exists st. repeat (split; [assumption|]).
      unfold storedResult. rewrite Hrk. exact H3.
  - intros k r Hr. rewrite Hrk in Hr.
    destruct (inv_results s Hinv _ _ Hr) as (Hin & st & H1 & H2 & H3 & H4).
    split; [now apply elem_of_union_r|]. exists st. repeat (split; [assumption|]).
    intros Hn. rewrite (Hjk _ Hin). now apply H4.
  - intros jobData Hin. rewrite fmap_cons in Hin. cbn [app] in Hin.
    apply elem_of_cons in Hin as [->|Hin].
    + exists (uuid a). split; [assumption|].
      split; [apply elem_of_union_l, elem_of_singleton_2; reflexivity|]. intros _.
      rewrite Hrk. split; [|assumption]. exists (throughJson job).
      split; [apply lookup_insert_eq | now apply handlerJob_record].
    + destruct (inv_waiting s Hinv _ Hin) as (k & H1 & H2 & H3).
      exists k. split; [assumption|]. split; [now apply elem_of_union_r|].
      intros Hn. unfold storedPending. rewrite Hrk, (Hjk _ H2). now apply H3.
  - rewrite fmap_cons. cbn [app]. rewrite fmap_cons. apply NoDup_cons.
    split; [|apply (inv_distinct s Hinv)].
    intros Hin. apply list_elem_of_fmap in Hin as (jobData & E & Hin).
    destruct (on_the_way_known s _ Hinv Hin) as (k & Hk & Hissued).
    rewrite (handlerJob_identifier _ _ Hjob), (handlerJob_identifier _ _ Hk) in E.
    injection E as E. rewrite E in Hfresh. contradiction.
  - intros i pc Hi.
    eapply workerInvariant_agree; [apply union_subseteq_r| |exact (inv_workers s Hinv i pc Hi)].
    intros k Hk Hn. split; [assumption|]. split; [|apply Hrk]. apply Hjk.
    apply heldIds_elem in Hk as (jobData & Hheld & Eid).
    destruct (held_known _ _ _ _ _ (inv_workers s Hinv i pc Hi) Hheld) as (k' & Hk' & Hin).
    rewrite (handlerJob_identifier _ _ Hk') in Eid. now injection Eid as <-.
Qed.

Lemma push_permutation (before after q h : list value) job :
  ((before ++ job :: after) ++ q ++ h ≡ₚ (before ++ after) ++ (q ++ [job]) ++ h)%list.
Proof.
  rewrite <- (Permutation_middle before after job).
  rewrite (Permutation_app_comm q [job]). cbn [app].
  now rewrite <- (Permutation_middle (before ++ after) (q ++ h) job).
Qed.

Lemma pop_permutation (r q a b : list value) job :
  (r ++ (job :: q) ++ a ++ b ≡ₚ r ++ q ++ a ++ job :: b)%list.
Proof.
  cbn [app]. rewrite <- (Permutation_middle a b job).
  rewrite <- (Permutation_middle q (a ++ b) job). reflexivity.
Qed.

Lemma invariant_push s before job after :
  invariant s -> recorded s = (before ++ job :: after)%list ->
  invariant {| db := perform (RedisRPush job) (db s);
               workers := workers s;
               recorded := (before ++ after)%list;
               issued := issued s;
               disturbed := disturbed s |}.
Proof.
  intros Hinv Hrec.
  pose proof (inv_waiting s Hinv) as Hw. pose proof (inv_distinct s Hinv) as Hd.
  unfold onTheWay in Hd. rewrite Hrec in Hw, Hd.
  split; unfold onTheWay; cbn [db kv queue workers recorded issued disturbed perform].
  - apply (inv_jobs s Hinv).
  - apply (inv_results s Hinv).
  - intros jobData Hin. apply Hw. revert Hin.
    rewrite !fmap_app, fmap_cons, !elem_of_app, !elem_of_cons, elem_of_nil. tauto.
  - assert (Hperm :
      ((throughJson <$> (before ++ after)) ++ (queue (db s) ++ [throughJson job])
         ++ (workers s ≫= inHand)
       ≡ₚ (throughJson <$> (before ++ job :: after)) ++ queue (db s)
            ++ (workers s ≫= inHand))%list).
    { rewrite !fmap_app, fmap_cons. symmetry. apply push_permutation. }
    rewrite Hperm. exact Hd.
  - apply (inv_workers s Hinv).
Qed.

Lemma invariant_start s :
  invariant s ->
  invariant {| db := db s;
               workers := (workers s ++ [Idle])%list;
               recorded := recorded s;
               issued := issued s;
               disturbed := disturbed s |}.
Proof.
  intros Hinv.
  split; unfold onTheWay, beingCompleted; cbn [db kv queue workers recorded issued disturbed].
  - apply (inv_jobs s Hinv).
  - intros jobId r Hr.
    destruct (inv_results s Hinv _ _ Hr) as (Hin & st & H1 & H2 & H3 & H4).
    split; [assumption|]. exists st. repeat (split; [assumption|]).
    intros Hn. destruct (H4 Hn) as (v & Hv & Hor). exists v. split; [assumption|].
    destruct Hor as [Hor|[Hp (i0 & pc0 & Hl & Hbw)]]; [now left|]. right.
    split; [assumption|]. exists i0, pc0. split; [|assumption].
    now apply lookup_app_l_Some.
  - apply (inv_waiting s Hinv).
  - rewrite bind_app. cbn. rewrite app_nil_r. apply (inv_distinct s Hinv).
  - intros i pc Hi. apply lookup_app_Some in Hi as [Hi|[_ Hi]].
    + exact (inv_workers s Hinv i pc Hi).
    + destruct (i - length (workers s))%nat as [|[|n]]; cbn in Hi; try discriminate.
      injection Hi as <-. exact I.
Qed.

Lemma invariant_pop s i jobData rest :
  invariant s -> workers s !! i = Some Idle -> queue (db s) = jobData :: rest ->
  invariant {| db := {| kv := kv (db s); queue := rest |};
               workers := <[i := Trying jobData]> (workers s);
               recorded := recorded s;
               issued := issued s;
               disturbed := disturbed s |}.
Proof.
  intros Hinv Hi Hq.
  assert (Hlt : (i < length (workers s))%nat) by (eapply lookup_lt_Some; eauto).
  pose proof (inv_waiting s Hinv) as Hw. pose proof (inv_distinct s Hinv) as Hd.
  unfold onTheWay in Hd. rewrite Hq in Hw, Hd.
  destruct (in_hand_around (workers s) i Idle (Trying jobData) Hi) as [E1 E2].
  split; unfold onTheWay, beingCompleted; cbn [db kv queue workers recorded issued disturbed].
  - apply (inv_jobs s Hinv).
  - intros jobId r Hr.
    destruct (inv_results s Hinv _ _ Hr) as (Hin & st & H1 & H2 & H3 & H4).
    split; [assumption|]. exists st. repeat (split; [assumption|]).
    intros Hn. destruct (H4 Hn) as (v & Hv & Hor). exists v. split; [assumption|].
    destruct Hor as [Hor|[Hp (i0 & pc0 & Hl & Hbw)]]; [now left|]. right.
    split; [assumption|]. exists i0, pc0. split; [|assumption].
    rewrite list_lookup_insert_ne; [assumption|]. intros <-.
    assert (pc0 = Idle) as -> by congruence. contradiction.
  - intros job Hin. apply Hw. revert Hin.
    rewrite !elem_of_app, !elem_of_cons. tauto.
  - rewrite E1 in Hd. rewrite E2. cbn [inHand] in *.
    assert (Hperm :
      ((throughJson <$> recorded s) ++ rest
         ++ (take i (workers s) ≫= inHand) ++ [jobData] ++ (drop (S i) (workers s) ≫= inHand)
       ≡ₚ (throughJson <$> recorded s) ++ (jobData :: rest)
            ++ (take i (workers s) ≫= inHand) ++ [] ++ (drop (S i) (workers s) ≫= inHand))%list).
    { symmetry. apply pop_permutation. }
    rewrite Hperm. exact Hd.
  - intros i' pc0. destruct (decide (i' = i)) as [->|Hne].
    + rewrite list_lookup_insert_eq by assumption. intros [= <-]. cbn [workerInvariant].
      apply Hw. rewrite elem_of_app, elem_of_cons. auto.
    + rewrite list_lookup_insert_ne by congruence. apply (inv_workers s Hinv).
Qed.

Lemma invariant_worker s i pc x t rejected pc' m' :
  invariant s -> workers s !! i = Some pc -> pc <> Idle ->
  workerStep render x t rejected pc (kv (db s)) = (pc', m') ->
  invariant {| db := {| kv := m'; queue := queue (db s) |};
               workers := <[i := pc']> (workers s);
               recorded := recorded s;
               issued := issued s;
               disturbed := match rejected with
                            | Some _ => heldIds pc ∪ disturbed s
                            | None => disturbed s
                            end |}.
Proof.
  intros Hinv Hi Hbusy Hstep. pose proof (inv_workers s Hinv i pc Hi) as Hw.
  assert (Hsub : disturbed s ⊆ match rejected with
                               | Some _ => heldIds pc ∪ disturbed s
                               | None => disturbed s
                               end).
  { destruct rejected; [apply union_subseteq_r | reflexivity]. }
  destruct pc as [|jobData|jobData result|jobData inTry|jobData job inTry
                  |jobData err|err]; cbn [workerInvariant] in Hw; [congruence|..].
  - (* the try block up to JSON.parse *)
    destruct Hw as (jobId & Hj & Hin & Hw).
    destruct (handlerJob_record _ _ Hj) as (props & -> & _).
    cbn [workerStep] in Hstep.
    assert (Hkeep : forall troubled, disturbed s ⊆ troubled ->
              jobId ∉ troubled ->
              storedPending (kv (db s)) jobId /\ kv (db s) !! resultKey jobId = None).
    { intros troubled Ht Hn. apply Hw. intros Hd. apply Hn. now apply Ht. }
    destruct (analyse x); injection Hstep as <- <-;
      (apply (invariant_quiet_worker s i _ _ _ Hinv Hi);
       [exact Hsub | now left | cbn [workerInvariant]; exists jobId; eauto
       | cbn [betweenWrites]; tauto ]).
  - (* the result is stored *)
    destruct Hw as (jobId & Hj & Hin & Hw).
    pose proof (handlerJob_identifier _ _ Hj) as Hid. unfold identifier in Hid.
    cbn [workerStep] in Hstep. rewrite Hid in Hstep. cbn [ToString] in Hstep.
    destruct rejected as [err|]; injection Hstep as <- <-.
    + apply (invariant_quiet_worker s i _ _ _ Hinv Hi);
        [exact Hsub | now left | | cbn [betweenWrites]; tauto].
      cbn [workerInvariant]. exists jobId. repeat (split; [assumption|]).
      intros Hn. exfalso. apply Hn. cbn [disturbed].
      rewrite (heldIds_of _ jobData jobId) by auto.
      apply elem_of_union_l, elem_of_singleton_2; reflexivity.
    + destruct (completedRecord_fields jobId result t) as (H1 & H2 & _).
      eapply (invariant_store_result s _ i _ jobData jobId true _ Hinv Hi);
        try reflexivity; try eassumption.
      * cbn [betweenWrites]. tauto.
      * intros Hn. now apply Hw.
  - (* the job is read and its status set *)
    destruct Hw as (jobId & Hj & Hin & Hw).
    pose proof (handlerJob_identifier _ _ Hj) as Hid. unfold identifier in Hid.
    cbn [workerStep] in Hstep. rewrite Hid in Hstep. cbn [ToString] in Hstep.
    assert (Hgone : forall err,
              invariant {| db := {| kv := kv (db s); queue := queue (db s) |};
                           workers := <[i := thrown jobData inTry err]> (workers s);
                           recorded := recorded s; issued := issued s;
                           disturbed := heldIds (GetJob jobData inTry) ∪ disturbed s |}).
    { intros err. apply (invariant_quiet_worker s i _ _ _ Hinv Hi).
      - apply union_subseteq_r.
      - destruct inTry; [now left | now right].
      - destruct inTry; cbn [thrown workerInvariant]; [|exact I].
        exists jobId. repeat (split; [assumption|]).
        intros Hn. exfalso. apply Hn. cbn [disturbed].
        rewrite (heldIds_of _ jobData jobId) by auto.
        apply elem_of_union_l, elem_of_singleton_2; reflexivity.
      - intros k Hn Hb. exfalso. apply Hn. cbn [disturbed].
        rewrite (betweenWrites_held _ _ Hb).
        apply elem_of_union_l, elem_of_singleton_2; reflexivity. }
    destruct rejected as [err|]; [injection Hstep as <- <-; apply Hgone|].
    unfold getParsed in Hstep.
    destruct (kv (db s) !! jobKey jobId) as [v|] eqn:Hv; cbn [default from_option id] in Hstep.
    + destruct (inv_jobs s Hinv _ _ Hv) as (_ & st & Hrec & _).
      destruct (jobRecord_assign _ _ _ (statusWritten inTry) Hrec) as (v' & Ha & Hrec').
      unfold statusWritten in Ha. rewrite Ha in Hstep. injection Hstep as <- <-.
      apply (invariant_quiet_worker s i _ _ _ Hinv Hi);
        [reflexivity | now left | | cbn [betweenWrites]; tauto].
      cbn [workerInvariant]. exists jobId. repeat (split; [assumption|]). exact Hw.
    + cbn [assign] in Hstep. injection Hstep as <- <-.
      assert (Hd : jobId ∈ disturbed s).
      { destruct (decide (jobId ∈ disturbed s)) as [Hd|Hn]; [assumption|].
        destruct (Hw Hn) as ((v & Hv' & _) & _). congruence. }
      apply (invariant_quiet_worker s i _ _ _ Hinv Hi).
      * reflexivity.
      * destruct inTry; [now left | now right].
      * destruct inTry; cbn [thrown workerInvariant]; [|exact I].
        exists jobId. repeat (split; [assumption|]). intros Hn. contradiction.
      * intros k Hn Hb. exfalso. apply Hn. cbn [betweenWrites] in Hb.
        assert (k = jobId) as -> by congruence. exact Hd.
  - (* the job is stored *)
    destruct Hw as (jobId & Hj & Hin & Hrec & Hw).
    pose proof (handlerJob_identifier _ _ Hj) as Hid. unfold identifier in Hid.
    cbn [workerStep] in Hstep. rewrite Hid in Hstep. cbn [ToString] in Hstep.
    destruct rejected as [err|]; injection Hstep as <- <-.
    + apply (invariant_quiet_worker s i _ _ _ Hinv Hi).
      * exact Hsub.
      * destruct inTry; [now left | now right].
      * destruct inTry; cbn [thrown workerInvariant]; [|exact I].
        exists jobId. repeat (split; [assumption|]).
        intros Hn. exfalso. apply Hn. cbn [disturbed].
        rewrite (heldIds_of _ jobData jobId) by auto.
        apply elem_of_union_l, elem_of_singleton_2; reflexivity.
      * intros k Hn Hb. exfalso. apply Hn. cbn [disturbed].
        rewrite (betweenWrites_held _ _ Hb).
        apply elem_of_union_l, elem_of_singleton_2; reflexivity.
    + eapply (invariant_store_status s _ i jobData job jobId inTry Hinv Hi Hj);
        reflexivity.
  - (* the failure is stored *)
    destruct Hw as (jobId & Hj & Hin & Hw).
    pose proof (handlerJob_identifier _ _ Hj) as Hid. unfold identifier in Hid.
    cbn [workerStep] in Hstep. rewrite Hid in Hstep. cbn [ToString] in Hstep.
    destruct rejected as [err'|]; injection Hstep as <- <-.
    + apply (invariant_quiet_worker s i _ _ _ Hinv Hi);
        [exact Hsub | now right | exact I | cbn [betweenWrites]; tauto].
    + destruct (failedRecord_fields jobId err t) as (H1 & H2 & _).
      eapply (invariant_store_result s _ i _ jobData jobId false _ Hinv Hi);
        try reflexivity; try eassumption.
      * cbn [betweenWrites]. tauto.
      * intros Hn. now apply Hw.
  - (* the wait after a throw is over *)
    cbn [workerStep] in Hstep. injection Hstep as <- <-.
    apply (invariant_quiet_worker s i _ _ _ Hinv Hi);
      [exact Hsub | now left | exact I | cbn [betweenWrites]; tauto].
Qed.

Lemma invariant_step s s' : invariant s -> step render s s' -> invariant s'.
Proof.
  intros Hinv Hstep. destruct Hstep.
  - now apply invariant_record.
  - now apply invariant_push.
  - now apply invariant_start.
  - now apply invariant_pop.
  - eapply (invariant_quiet s _ i _ _ Hinv H);
      [reflexivity | reflexivity | reflexivity | reflexivity | reflexivity
      | reflexivity | now left | exact I | cbn [betweenWrites]; tauto].
  - now apply (invariant_worker s i pc x t).
  - eapply (invariant_quiet s _ i _ _ Hinv H);
      [reflexivity | reflexivity | reflexivity | reflexivity | reflexivity | ..].
    + apply union_subseteq_r.
    + now right.
    + exact I.
    + intros k Hn Hb. exfalso. apply Hn. cbn [disturbed].
      rewrite (betweenWrites_held _ _ Hb).
      apply elem_of_union_l, elem_of_singleton_2; reflexivity.
  - eapply (invariant_disturb s _ Hinv); try reflexivity;
      cbn [db kv queue workers recorded issued disturbed].
    + intros k v Hv. apply lookup_delete_Some in Hv. tauto.
    + intros k r Hr. apply lookup_delete_Some in Hr. tauto.
    + intros k Hn. apply not_elem_of_union in Hn as [Hk Hn].
      apply not_elem_of_singleton in Hk. split; [assumption|]. split.
      * apply lookup_delete_ne. intros E. apply jobKey_inj in E. congruence.
      * apply lookup_delete_ne, jobKey_resultKey.
  - eapply (invariant_disturb s _ Hinv); try reflexivity;
      cbn [db kv queue workers recorded issued disturbed].
    + intros k v Hv. apply lookup_delete_Some in Hv. tauto.
    + intros k r Hr. apply lookup_delete_Some in Hr. tauto.
    + intros k Hn. apply not_elem_of_union in Hn as [Hk Hn].
      apply not_elem_of_singleton in Hk. split; [assumption|]. split.
      * apply lookup_delete_ne, resultKey_jobKey.
      * apply lookup_delete_ne. intros E. apply resultKey_inj in E. congruence.
Qed.

Lemma invariant_reachable s : reachable render s -> invariant s.
Proof.
  induction 1 as [|s s' _ IH Hstep]; [apply invariant_initial | exact (invariant_step s s' IH Hstep)].
Qed.

End Invariant.

(** ** What a processed job leaves in the store *)

Section WorkerFacts.
#[local] Open Scope string_scope.
#[local] Arguments String.append !s1 s2.

Variable render : value -> string.

Lemma runWorker_step fuel x t a pc m pc' m' :
  workerStep render x t (rejectedAt a pc) pc m = (pc', m') -> pc <> Idle ->
  runWorker render (S fuel) x t a pc m = runWorker render fuel x t a pc' m'.
Proof. intros H Hpc. cbn [runWorker]. rewrite H. now destruct pc. Qed.

Lemma runWorker_idle fuel x t a m : runWorker render fuel x t a Idle m = (Idle, m).
Proof. now destruct fuel. Qed.

Lemma rejectedAt_accepted pc : rejectedAt accepted pc = None.
Proof. destruct pc as [| | |? []|? ? []| |]; reflexivity. Qed.

Lemma runWorker_step_accepted fuel x t pc m pc' m' :
  workerStep render x t None pc m = (pc', m') -> pc <> Idle ->
  runWorker render (S fuel) x t accepted pc m = runWorker render fuel x t accepted pc' m'.
Proof. intros H Hpc. apply runWorker_step; [now rewrite rejectedAt_accepted | assumption]. Qed.

(** [processJob] on a job whose record is stored, the store accepting
    every command. *)
Lemma processJob_stored x t m jobData jobId props :
  (exists own, jobData = VObject own) ->
  prop jobData "jobId" = VString jobId ->
  m !! jobKey jobId = Some (VObject props) ->
  processJob render x t accepted jobData m =
  (Idle,
   match analyse x with
   | Return result =>
       <[jobKey jobId :=
           throughJson (VObject (define_prop "status" (VString "completed") props))]>
         (<[resultKey jobId := throughJson (completedRecord (VString jobId) result t)]> m)
   | Throw err =>
       <[jobKey jobId :=
           throughJson (VObject (define_prop "status" (VString "failed") props))]>
         (<[resultKey jobId := throughJson (failedRecord (VString jobId) err t)]> m)
   end).
Proof.
  intros [own ->] Hid Hm. unfold processJob.
  assert (Hget : forall r inTry,
    workerStep render x t None (GetJob (VObject own) inTry) (<[resultKey jobId := r]> m)
    = (SetJob (VObject own)
         (VObject (define_prop "status" (VString (statusWritten inTry)) props)) inTry,
       <[resultKey jobId := r]> m)).
  { intros r inTry. cbn [workerStep]. rewrite Hid. cbn [ToString]. unfold getParsed.
    rewrite lookup_insert_ne by apply resultKey_jobKey. rewrite Hm.
    cbn [default from_option id assign]. now destruct inTry. }
  assert (Hset : forall m0 job inTry,
    workerStep render x t None (SetJob (VObject own) job inTry) m0
    = (Idle, <[jobKey jobId := throughJson job]> m0)).
  { intros m0 job inTry. cbn [workerStep]. now rewrite Hid. }
  assert (Htry : workerStep render x t None (Trying (VObject own)) m
                 = (match analyse x with
                    | Return result => SetCompleted (VObject own) result
                    | Throw err => Caught (VObject own) err
                    end, m)).
  { cbn [workerStep]. now destruct (analyse x). }
  rewrite (runWorker_step_accepted _ _ _ _ _ _ _ Htry) by discriminate.
  destruct (analyse x) as [result|err].
  - assert (Hres : workerStep render x t None (SetCompleted (VObject own) result) m
                   = (GetJob (VObject own) true,
                      <[resultKey jobId :=
                          throughJson (completedRecord (VString jobId) result t)]> m)).
    { cbn [workerStep]. now rewrite Hid. }
    rewrite (runWorker_step_accepted _ _ _ _ _ _ _ Hres) by discriminate.
    rewrite (runWorker_step_accepted _ _ _ _ _ _ _ (Hget _ true)) by discriminate.
    rewrite (runWorker_step_accepted _ _ _ _ _ _ _ (Hset _ _ true)) by discriminate.
    apply runWorker_idle.
  - assert (Hres : workerStep render x t None (Caught (VObject own) err) m
                   = (GetJob (VObject own) false,
                      <[resultKey jobId :=
                          throughJson (failedRecord (VString jobId) err t)]> m)).
    { cbn [workerStep]. now rewrite Hid. }
    rewrite (runWorker_step_accepted _ _ _ _ _ _ _ Hres) by discriminate.
    rewrite (runWorker_step_accepted _ _ _ _ _ _ _ (Hget _ false)) by discriminate.
    rewrite (runWorker_step_accepted _ _ _ _ _ _ _ (Hset _ _ false)) by discriminate.
    apply runWorker_idle.
Qed.

(** The worker's commands for one job, all accepted, are steps of the
    system. *)
Lemma runWorker_reachable fuel x t : forall s i pc,
  reachable render s -> workers s !! i = Some pc ->
  reachable render
    {| db := {| kv := snd (runWorker render fuel x t accepted pc (kv (db s)));
                queue := queue (db s) |};
       workers := <[i := fst (runWorker render fuel x t accepted pc (kv (db s)))]> (workers s);
       recorded := recorded s;
       issued := issued s;
       disturbed := disturbed s |}.
Proof.
  induction fuel as [|fuel IH]; intros s i pc Hs Hi.
  - replace (runWorker render 0 x t accepted pc (kv (db s))) with (pc, kv (db s))
      by now destruct pc.
    cbn [fst snd]. rewrite (list_insert_id _ _ _ Hi).
    now destruct s as [[m q] ws rec iss dis].
  - assert (Hcase : pc = Idle \/ pc <> Idle) by (destruct pc; auto; right; discriminate).
    destruct Hcase as [->|Hbusy].
    + rewrite runWorker_idle. cbn [fst snd]. rewrite (list_insert_id _ _ _ Hi).
      now destruct s as [[m q] ws rec iss dis].
    + destruct (workerStep render x t None pc (kv (db s))) as [pc' m'] eqn:Hstep.
      pose proof (reachable_step render _ _ Hs
                    (step_worker render s i pc x t None pc' m' Hi Hbusy Hstep)) as Hs'.
      assert (Hi' : workers {| db := {| kv := m'; queue := queue (db s) |};
                              workers := <[i := pc']> (workers s);
                              recorded := recorded s; issued := issued s;
                              disturbed := disturbed s |} !! i = Some pc').
      { cbn [workers]. apply list_lookup_insert_eq. eapply lookup_lt_Some; eauto. }
      specialize (IH _ i pc' Hs' Hi'). cbn [db kv queue workers recorded issued disturbed] in IH.
      rewrite list_insert_insert_eq in IH.
      rewrite (runWorker_step fuel x t accepted pc (kv (db s)) pc' m');
        [exact IH | now rewrite rejectedAt_accepted | assumption].
Qed.

(** What the [try] block yields, call by call. *)
Lemma analyse_outcomes x (P : completion value -> Prop) :
  P (analyse x) ->
  (forall err, fetchImage x = Throw err -> P (Throw err))
  /\ (forall img, fetchImage x = Return img -> image_ok img = false ->
      P (Throw (Error ("Failed to fetch image: " +:+ image_statusText img))))
  /\ (forall img err, fetchImage x = Return img -> image_ok img = true ->
      arrayBuffer img = Throw err -> P (Throw err))
  /\ (forall img bytes, fetchImage x = Return img -> image_ok img = true ->
      arrayBuffer img = Return bytes ->
      (forall err, fetchApi x = Throw err -> P (Throw err))
      /\ (forall api, fetchApi x = Return api ->
          (api_ok api = false ->
             (forall body, api_text api = Return body ->
                P (Throw (Error ("X.AI API error: " +:+ api_status api +:+ " - " +:+ body))))
             /\ (forall err, api_text api = Throw err -> P (Throw err)))
          /\ (api_ok api = true ->
             (forall err, api_json api = Throw err -> P (Throw err))
             /\ (forall data, api_json api = Return data ->
                 (truthy (contentOf data) = false ->
                    P (Throw (Error "No content returned from X.AI API")))
                 /\ (truthy (contentOf data) = true ->
                     (forall text, contentOf data <> VString text) ->
                     P (Throw (TypeError "content.match is not a function")))
                 /\ (forall text, contentOf data = VString text -> text <> "" ->
                     (matchObject text = None ->
                        P (Throw (Error "No JSON object found in response")))
                     /\ (forall m err, matchObject text = Some m ->
                           JSON_parse m = Throw err -> P (Throw err))
                     /\ (forall m result, matchObject text = Some m ->
                           JSON_parse m = Return result -> P (Return result))))))).
Proof.
  unfold analyse, contentOf. intros HP. split; [|split; [|split; [|idtac]]].
  - intros err E. now rewrite E in HP.
  - intros img E Hok. rewrite E in HP. cbn [bind] in HP. now rewrite Hok in HP.
  - intros img err E Hok Hb. rewrite E in HP. cbn [bind] in HP.
    now rewrite Hok, Hb in HP.
  - intros img bytes E Hok Hb. rewrite E in HP. cbn [bind] in HP.
      rewrite Hok, Hb in HP. cbn [negb bind] in HP.
      assert (Hapi : forall api, fetchApi x = Return api ->
                P (if negb (api_ok api)
                   then bind (api_text api) (fun errorText =>
                          Throw (Error ("X.AI API error: " +:+ api_status api
                                        +:+ " - " +:+ errorText)))
                   else bind (api_json api) (fun data =>
                          parseContent
                            (optional (optional (optional0 (optional data "choices"))
                                         "message") "content")))).
      { intros api Ea. now rewrite Ea in HP. }
      split.
      * intros err Ea. now rewrite Ea in HP.
      * intros api Ea. specialize (Hapi api Ea). split.
        -- intros Hf. rewrite Hf in Hapi. cbn [negb] in Hapi. split.
           ++ intros body Eb. now rewrite Eb in Hapi.
           ++ intros err Eb. now rewrite Eb in Hapi.
        -- intros Ht. rewrite Ht in Hapi. cbn [negb] in Hapi. split.
           ++ intros err Ej. now rewrite Ej in Hapi.
           ++ intros data Ej. rewrite Ej in Hapi. cbn [bind] in Hapi.
              unfold parseContent in Hapi. split; [|split].
              ** intros Hc. now rewrite Hc in Hapi.
              ** intros Hc Hns. rewrite Hc in Hapi. cbn [negb] in Hapi.
                 destruct (optional _ "content") as [| | | |text| |] eqn:Ec;
                   try assumption. exfalso. now apply (Hns text).
              ** intros text Ec Hne. rewrite Ec in Hapi. cbn [truthy] in Hapi.
                 destruct (String.eqb_spec text "") as [E0|_]; [congruence|].
                 cbn [negb] in Hapi. split; [|split].
                 --- intros Em. now rewrite Em in Hapi.
                 --- intros m err Em Ep. now rewrite Em, Ep in Hapi.
                 --- intros m result Em Ep. now rewrite Em, Ep in Hapi.
Qed.

(** C5, as amended. A job the worker loop pops is processed to the end when
    the job's record is still stored and the store accepts the worker's
    commands: the worker is back at the queue and the store holds a result
    for the job.  That result is failed with the message of what went wrong
    when the image cannot be fetched, the analysis service cannot be reached
    or answers an error, or its reply holds no content or no text from a
    first opening brace to a last closing brace that parses; it is completed
    with the parsed value otherwise.  The job's stored status is that of the
    result, and the state the turn ends in is one the system reaches command
    by command. *)
Theorem popped_job_reaches_terminal_result s i jobData rest x t :
  reachable render s -> workers s !! i = Some Idle -> queue (db s) = jobData :: rest ->
  exists jobId,
    prop jobData "jobId" = VString jobId
    /\ (is_Some (kv (db s) !! jobKey jobId) ->
        fst (processJob render x t accepted jobData (kv (db s))) = Idle
        /\ queue (pollQueue render x t accepted (db s)) = rest
        /\ reachable render
             {| db := pollQueue render x t accepted (db s); workers := workers s;
                recorded := recorded s; issued := issued s; disturbed := disturbed s |}
        /\ exists r,
             kv (pollQueue render x t accepted (db s)) !! resultKey jobId = Some r
             /\ prop r "jobId" = VString jobId
             /\ terminal (prop r "status")
             /\ storedStatus (kv (pollQueue render x t accepted (db s))) jobId
                = prop r "status"
             /\ (forall err, fetchImage x = Throw err -> failedWith r err)
             /\ (forall img, fetchImage x = Return img -> image_ok img = false ->
                 failedWith r (Error ("Failed to fetch image: " +:+ image_statusText img)))
             /\ (forall img err, fetchImage x = Return img -> image_ok img = true ->
                 arrayBuffer img = Throw err -> failedWith r err)
             /\ (forall img bytes, fetchImage x = Return img -> image_ok img = true ->
                 arrayBuffer img = Return bytes ->
                 (forall err, fetchApi x = Throw err -> failedWith r err)
                 /\ (forall api, fetchApi x = Return api ->
                     (api_ok api = false ->
                        (forall body, api_text api = Return body ->
                           failedWith r (Error ("X.AI API error: " +:+ api_status api
                                                +:+ " - " +:+ body)))
                        /\ (forall err, api_text api = Throw err -> failedWith r err))
                     /\ (api_ok api = true ->
                        (forall err, api_json api = Throw err -> failedWith r err)
                        /\ (forall data, api_json api = Return data ->
                            (truthy (contentOf data) = false ->
                               failedWith r (Error "No content returned from X.AI API"))
                            /\ (truthy (contentOf data) = true ->
                                (forall text, contentOf data <> VString text) ->
                                failedWith r (TypeError "content.match is not a function"))
                            /\ (forall text, contentOf data = VString text -> text <> "" ->
                                (matchObject text = None ->
                                   failedWith r (Error "No JSON object found in response"))
                                /\ (forall m err, matchObject text = Some m ->
                                      JSON_parse m = Throw err -> failedWith r err)
                                /\ (forall m result, matchObject text = Some m ->
                                      JSON_parse m = Return result ->
                                      completedWith r result))))))).
Proof.
  intros Hs Hi Hq. pose proof (invariant_reachable render s Hs) as Hinv.
  destruct (inv_waiting s Hinv jobData) as (jobId & Hj & Hin & _).
  { rewrite Hq, elem_of_app, elem_of_cons. auto. }
  pose proof (handlerJob_identifier _ _ Hj) as Hid. unfold identifier in Hid.
  exists jobId. split; [exact Hid|]. intros [job Hjob].
  destruct (inv_jobs s Hinv _ _ Hjob) as (_ & st & (props & -> & Hnd & Hpid & Hpst) & _).
  destruct (handlerJob_record _ _ Hj) as (own & Eown & _).
  pose proof (processJob_stored x t (kv (db s)) jobData jobId props
                (ex_intro _ own Eown) Hid Hjob) as Hrun.
  assert (Hreach : reachable render
            {| db := pollQueue render x t accepted (db s); workers := workers s;
               recorded := recorded s; issued := issued s; disturbed := disturbed s |}).
  { pose proof (reachable_step render _ _ Hs (step_pop render s i jobData rest Hi Hq)) as Hpop.
    assert (Hlt : (i < length (workers s))%nat) by (eapply lookup_lt_Some; eauto).
    pose proof (runWorker_reachable 8 x t _ i (Trying jobData) Hpop
                  (list_lookup_insert_eq _ _ _ Hlt)) as Hend.
    cbn [db kv queue workers recorded issued disturbed] in Hend.
    change (runWorker render 8 x t accepted (Trying jobData) (kv (db s)))
      with (processJob render x t accepted jobData (kv (db s))) in Hend.
    rewrite list_insert_insert_eq in Hend. unfold pollQueue. rewrite Hq.
    rewrite Hrun in *. cbn [fst snd] in Hend. now rewrite (list_insert_id _ _ _ Hi) in Hend. }
  split; [now rewrite Hrun|]. split; [unfold pollQueue; now rewrite Hq|].
  split; [exact Hreach|].
  unfold pollQueue. rewrite Hq. cbn [kv]. rewrite Hrun. cbn [snd].
  assert (Hstatus : forall st',
            prop (throughJson (VObject (define_prop "status" (VString st') props))) "status"
            = VString st').
  { intros st'. rewrite prop_throughJson by now apply define_prop_NoDup.
    rewrite lookup_define_prop. reflexivity. }
  exists (match analyse x with
          | Return result => throughJson (completedRecord (VString jobId) result t)
          | Throw err => throughJson (failedRecord (VString jobId) err t)
          end).
  split; [|split; [|split; [|split]]].
  - destruct (analyse x); rewrite lookup_insert_ne by apply jobKey_resultKey;
      apply lookup_insert_eq.
  - destruct (analyse x) as [result|err];
      [apply (completedRecord_fields jobId result t)
      | apply (failedRecord_fields jobId err t)].
  - destruct (analyse x) as [result|err];
      [left; apply (completedRecord_fields jobId result t)
      | right; apply (failedRecord_fields jobId err t)].
  - unfold storedStatus, getParsed.
    destruct (analyse x) as [result|err]; rewrite lookup_insert_eq;
      cbn [default from_option id]; rewrite Hstatus; symmetry;
      [apply (completedRecord_fields jobId result t)
      | apply (failedRecord_fields jobId err t)].
  - refine (analyse_outcomes x
              (fun outcome =>
                 match outcome with
                 | Return result =>
                     completedWith
                       (match analyse x with
                        | Return result =>
                            throughJson (completedRecord (VString jobId) result t)
                        | Throw err => throughJson (failedRecord (VString jobId) err t)
                        end) result
                 | Throw err =>
                     failedWith
                       (match analyse x with
                        | Return result =>
                            throughJson (completedRecord (VString jobId) result t)
                        | Throw err => throughJson (failedRecord (VString jobId) err t)
                        end) err
                 end) _).
    destruct (analyse x) as [result|err]; split;
      first [apply (completedRecord_fields jobId result t)
            | apply (failedRecord_fields jobId err t)].
Qed.

(** C8, as amended. In every state the system reaches by submissions, the
    commands of any number of workers, rejected commands, restarts and the
    expiry of keys, and for every job: a stored result is completed or
    failed and carries the job's identifier, and a stored job is pending,
    completed or failed.  For a job none of whose keys has expired and whose
    worker was neither rejected a command nor stopped: a stored status of
    completed or failed comes with a stored result of that status; the
    stored status of a job with a stored result is that of the result, or
    is still pending while a worker stands between the two writes for that
    job; so whenever no worker stands between the two writes, a result
    exists exactly when the job has left pending. *)
Theorem result_matches_status s :
  reachable render s ->
  forall jobId,
    (forall r, kv (db s) !! resultKey jobId = Some r ->
       terminal (prop r "status") /\ prop r "jobId" = VString jobId)
    /\ (is_Some (kv (db s) !! jobKey jobId) ->
        storedStatus (kv (db s)) jobId = VString "pending"
        \/ terminal (storedStatus (kv (db s)) jobId))
    /\ (jobId ∉ disturbed s ->
        (terminal (storedStatus (kv (db s)) jobId) ->
         exists r, kv (db s) !! resultKey jobId = Some r
                   /\ prop r "status" = storedStatus (kv (db s)) jobId)
        /\ (forall r, kv (db s) !! resultKey jobId = Some r ->
            storedStatus (kv (db s)) jobId = prop r "status"
            \/ (storedStatus (kv (db s)) jobId = VString "pending"
                /\ beingCompleted s jobId))
        /\ (~ beingCompleted s jobId ->
            (is_Some (kv (db s) !! resultKey jobId)
             <-> terminal (storedStatus (kv (db s)) jobId)))).
Proof.
  intros Hs jobId. pose proof (invariant_reachable render s Hs) as Hinv.
  assert (Hres : forall r, kv (db s) !! resultKey jobId = Some r ->
            terminal (prop r "status") /\ prop r "jobId" = VString jobId).
  { intros r Hr. destruct (inv_results s Hinv _ _ Hr) as (_ & st & E & Hst & Hid & _).
    split; [|assumption]. rewrite E. destruct Hst as [-> | ->]; [left|right]; reflexivity. }
  split; [exact Hres|]. split.
  { intros [v Hv]. unfold storedStatus, getParsed. rewrite Hv. cbn [default from_option id].
    destruct (inv_jobs s Hinv _ _ Hv) as (_ & st & Hrec & Hst & _).
    apply jobRecord_fields in Hrec as [_ ->].
    destruct Hst as [-> | [-> | ->]]; [left | right; left | right; right]; reflexivity. }
  intros Hn.
  assert (H1 : terminal (storedStatus (kv (db s)) jobId) ->
               exists r, kv (db s) !! resultKey jobId = Some r
                         /\ prop r "status" = storedStatus (kv (db s)) jobId).
  { unfold storedStatus, getParsed.
    destruct (kv (db s) !! jobKey jobId) as [v|] eqn:Hv; cbn [default from_option id].
    - destruct (inv_jobs s Hinv _ _ Hv) as (_ & st & Hrec & _ & Hst).
      apply jobRecord_fields in Hrec as [_ ->].
      intros [[= E]|[= E]]; subst st;
        (destruct (Hst Hn) as (r & Hr & Hs'); [discriminate|]); exists r; auto.
    - intros [H|H]; discriminate. }
  assert (H2 : forall r, kv (db s) !! resultKey jobId = Some r ->
               storedStatus (kv (db s)) jobId = prop r "status"
               \/ (storedStatus (kv (db s)) jobId = VString "pending"
                   /\ beingCompleted s jobId)).
  { intros r Hr. destruct (inv_results s Hinv _ _ Hr) as (_ & st & E & _ & _ & Hjob).
    destruct (Hjob Hn) as (v & Hv & Hor).
    unfold storedStatus, getParsed. rewrite Hv, E. cbn [default from_option id]. exact Hor. }
  split; [exact H1 | split; [exact H2 |]]. intros Hnb. split.
  - intros [r Hr]. destruct (H2 r Hr) as [E|[_ Hb]]; [|contradiction].
    rewrite E. now apply Hres.
  - intros Ht. destruct (H1 Ht) as (r & Hr & _). now exists r.
Qed.

End WorkerFacts.

(** ** One job's way, step by step *)

Section SampleRun.
#[local] Open Scope string_scope.

Lemma stateStarted_reachable : reachable noRender stateStarted.
Proof.
  exact (reachable_step noRender _ _ (reachable_initial noRender) (step_start noRender initial)).
Qed.

Lemma stateRecorded_reachable : reachable noRender stateRecorded.
Proof.
  refine (reachable_step noRender _ _ stateStarted_reachable
            (step_record noRender stateStarted sampleContext sampleFile (sampleAnswers "job-1")
               (VString "https://i.redd.it/chives.png") _ eq_refl)).
  apply not_elem_of_empty.
Qed.

Lemma statePushed_reachable : reachable noRender statePushed.
Proof.
  exact (reachable_step noRender _ _ stateRecorded_reachable
           (step_push noRender stateRecorded [] sampleJob [] eq_refl)).
Qed.

Lemma statePopped_reachable : reachable noRender statePopped.
Proof.
  exact (reachable_step noRender _ _ statePushed_reachable
           (step_pop noRender statePushed 0 (throughJson sampleJob) [] eq_refl eq_refl)).
Qed.

Lemma stateAnalysed_reachable : reachable noRender stateAnalysed.
Proof.
  refine (reachable_step noRender _ _ statePopped_reachable
            (step_worker noRender statePopped 0 (Trying (throughJson sampleJob))
               (sampleExchange proseThenObject) 1700000000500%float None
               (SetCompleted (throughJson sampleJob) sampleResult)
               (kv (db statePopped)) eq_refl _ _)).
  - discriminate.
  - assert (E : analyse (sampleExchange proseThenObject) = Return sampleResult)
      by (vm_compute; reflexivity).
    cbn [workerStep throughJson sampleJob pendingJob flat_map app]. now rewrite E.
Qed.

Lemma stateBetweenWrites_reachable : reachable noRender stateBetweenWrites.
Proof.
  refine (reachable_step noRender _ _ stateAnalysed_reachable
            (step_worker noRender stateAnalysed 0 (SetCompleted (throughJson sampleJob) sampleResult)
               (sampleExchange "") 1700000000500%float None _ _ eq_refl _ _)).
  - discriminate.
  - reflexivity.
Qed.

Lemma stateStatusRead_reachable : reachable noRender stateStatusRead.
Proof.
  refine (reachable_step noRender _ _ stateBetweenWrites_reachable
            (step_worker noRender stateBetweenWrites 0 (GetJob (throughJson sampleJob) true)
               (sampleExchange "") 1700000000500%float None
               sampleStatusRead (kv (db stateBetweenWrites)) eq_refl _ _)).
  - discriminate.
  - unfold sampleStatusRead.
    destruct (workerStep noRender (sampleExchange "") 1700000000500 None
                (GetJob (throughJson sampleJob) true) (kv (db stateBetweenWrites)))
      as [pc m] eqn:E.
    cbn [fst]. f_equal.
    cbn [workerStep] in E. destruct (assign _ _ _); now injection E as _ <-.
Qed.

Lemma sampleStatusRead_holds :
  exists job, sampleStatusRead = SetJob (throughJson sampleJob) job true.
Proof. eexists. vm_compute. reflexivity. Qed.

Lemma stateCompleted_reachable : reachable noRender stateCompleted.
Proof.
  destruct sampleStatusRead_holds as [job Hjob].
  refine (reachable_step noRender _ _ stateStatusRead_reachable
            (step_worker noRender stateStatusRead 0 sampleStatusRead
               (sampleExchange "") 1700000000500%float None
               Idle _ eq_refl _ _)).
  - rewrite Hjob. discriminate.
  - rewrite Hjob. reflexivity.
Qed.

Lemma stateLostRecord_reachable : reachable noRender stateLostRecord.
Proof.
  refine (reachable_step noRender _ _ statePushed_reachable
            (step_expire_job noRender statePushed "job-1" _)).
  cbn [statePushed stateRecorded db kv perform]. rewrite lookup_insert_eq. eauto.
Qed.

(** C8 as stated fails: between the worker's two writes the result of a job
    is stored while its status still reads pending. *)
Lemma resultIffLeftPending_fails :
  reachable noRender stateBetweenWrites /\ ~ resultIffLeftPending stateBetweenWrites.
Proof.
  split; [exact stateBetweenWrites_reachable|].
  intros H. specialize (H "job-1"). destruct H as [H _].
  assert (Hres : is_Some (kv (db stateBetweenWrites) !! resultKey "job-1")).
  { cbn [stateBetweenWrites db kv]. rewrite lookup_insert_eq. eauto. }
  specialize (H Hres). revert H.
  unfold storedStatus, getParsed. cbn [stateBetweenWrites statePopped statePushed stateRecorded
                                        stateStarted db kv perform initial].
  rewrite lookup_insert_ne by (vm_compute; discriminate).
  rewrite lookup_insert_eq. cbn [default from_option id].
  intros [H|H]; vm_compute in H; discriminate.
Qed.

Lemma result_matches_status_witness :
  reachable noRender stateCompleted
  /\ is_Some (kv (db stateCompleted) !! resultKey "job-1")
  /\ terminal (storedStatus (kv (db stateCompleted)) "job-1").
Proof.
  assert (Hres : is_Some (kv (db stateCompleted) !! resultKey "job-1")).
  { eexists. vm_compute. reflexivity. }
  split; [exact stateCompleted_reachable|]. split; [exact Hres|].
  refine (proj1 (proj2 (proj2 (proj2 (proj2 (result_matches_status noRender stateCompleted
            stateCompleted_reachable "job-1")) _)) _) Hres).
  - apply not_elem_of_empty.
  - intros (i & pc & Hi & Hb). destruct i as [|i]; cbn in Hi; [|discriminate].
    injection Hi as <-. exact Hb.
Defined.

(** C5 as stated fails.  A job whose record has expired while it was
    queued is processed to the end; the analysis succeeds and the result
    stored is failed, and no status is stored for the job.  And a job whose
    two writes of the result the store rejects is left without a result. *)
Lemma endsWithTerminalResult_fails :
  (reachable noRender stateLostRecord
   /\ workers stateLostRecord !! 0%nat = Some Idle
   /\ queue (db stateLostRecord) = [throughJson sampleJob]
   /\ analyse (sampleExchange proseThenObject) = Return sampleResult
   /\ ~ endsWithTerminalResult noRender (sampleExchange proseThenObject) 1700000000500%float
          accepted (throughJson sampleJob) (kv (db stateLostRecord)))
  /\ (reachable noRender statePushed
      /\ workers statePushed !! 0%nat = Some Idle
      /\ queue (db statePushed) = [throughJson sampleJob]
      /\ ~ endsWithTerminalResult noRender (sampleExchange proseThenObject)
             1700000000500%float resultsRejected (throughJson sampleJob)
             (kv (db statePushed))).
Proof.
  assert (Ea : analyse (sampleExchange proseThenObject) = Return sampleResult)
    by (vm_compute; reflexivity).
  split.
  - split; [exact stateLostRecord_reachable|]. split; [reflexivity|]. split; [reflexivity|].
    split; [exact Ea|].
    intros (jobId & r & Hid & Hr & Hout & _). rewrite Ea in Hout.
    vm_compute in Hid. injection Hid as <-.
    vm_compute in Hr. injection Hr as <-. vm_compute in Hout. discriminate.
  - split; [exact statePushed_reachable|]. split; [reflexivity|]. split; [reflexivity|].
    intros (jobId & r & Hid & Hr & _).
    vm_compute in Hid. injection Hid as <-.
    vm_compute in Hr. discriminate.
Qed.

Lemma popped_job_reaches_terminal_result_witness :
  exists r,
    kv (pollQueue noRender (sampleExchange "no JSON here") 1700000000500%float accepted
          (db statePushed)) !! resultKey "job-1" = Some r
    /\ storedStatus
         (kv (pollQueue noRender (sampleExchange "no JSON here") 1700000000500%float
                accepted (db statePushed))) "job-1" = VString "failed"
    /\ failedWith r (Error "No JSON object found in response").
Proof.
  destruct (popped_job_reaches_terminal_result noRender statePushed 0
              (throughJson sampleJob) [] (sampleExchange "no JSON here")
              1700000000500%float statePushed_reachable eq_refl eq_refl)
    as (jobId & Hid & H).
  assert (jobId = "job-1") as ->.
  { assert (E : prop (throughJson sampleJob) "jobId" = VString "job-1")
      by (vm_compute; reflexivity).
    rewrite E in Hid. now injection Hid. }
  destruct H as (_ & _ & _ & r & Hr & _ & _ & Hst & _ & _ & _ & Hcalls).
  { eexists. vm_compute. reflexivity. }
  exists r. split; [exact Hr|].
  destruct (Hcalls sampleImage "PNG" eq_refl eq_refl eq_refl) as [_ Hapi].
  destruct (Hapi (sampleReply "no JSON here") eq_refl) as [_ Hok].
  destruct (Hok eq_refl) as [_ Hdata].
  destruct (Hdata _ eq_refl) as (_ & _ & Htext).
  destruct (Htext "no JSON here" eq_refl) as (Hnone & _); [discriminate|].
  assert (Hfailed : failedWith r (Error "No JSON object found in response"))
    by (apply Hnone; vm_compute; reflexivity).
  split; [|exact Hfailed]. rewrite Hst. apply Hfailed.
Defined.

End SampleRun.
